(** * tf_pwa.data: nested data trees over array leaves

    A shallow embedding of [src/tf_pwa/data.py].  A data structure is a
    nested combination of [dict], [list] and [tuple] whose terminal values
    are arrays.  The array library ([numpy] / [tensorflow]) is not part of
    the repository and is taken as an interface ([ArrayLib]); a model with
    nested arrays of integers is used to run the functions on examples.

    The first part holds the definitions: the functions on trees as values,
    then the same functions on a store of objects, where mutation can be
    stated.  The second part holds the theorems. *)

From Stdlib Require Import String Ascii DecimalString.
From Stdlib Require Import List ZArith Lia Bool Arith Permutation.
Import ListNotations.

Set Warnings "-register-all".

Local Open Scope string_scope.
Local Open Scope list_scope.

(** ** Python values used as dictionary keys and subscripts *)

(** A key is a string, an integer, or some other hashable object, which has
    an identity and a string form ([__str__]). *)
Inductive key : Type :=
| KStr (s : string)
| KInt (n : Z)
| KObj (id : nat) (repr : string).

Definition key_eqb (a b : key) : bool :=
  match a, b with
  | KStr s, KStr s' => String.eqb s s'
  | KInt n, KInt n' => Z.eqb n n'
  | KObj i r, KObj i' r' => Nat.eqb i i' && String.eqb r r'
  | _, _ => false
  end.

Definition is_str (k : key) : bool :=
  match k with KStr _ => true | _ => false end.

(** [isinstance(i, int)] *)
Definition is_int (k : key) : bool :=
  match k with KInt _ => true | _ => false end.

(** [str(k)] *)
Definition str (k : key) : string :=
  match k with
  | KStr s => s
  | KInt n => NilZero.string_of_int (Z.to_int n)
  | KObj _ r => r
  end.

(** ** Exceptions and results *)

Inductive exn : Type :=
| IndexError
| KeyError (k : key)
| AssertionError (msg : string)
| ValueError (msg : string)
| Exception_ (msg : string)
| TypeError
| RecursionError
| ArrayError (code : nat).

Inductive result (A : Type) : Type :=
| Ok (a : A)
| Raise (e : exn).
Arguments Ok {A} a.
Arguments Raise {A} e.

Definition bind {A B} (m : result A) (f : A -> result B) : result B :=
  match m with
  | Ok a => f a
  | Raise e => Raise e
  end.

Notation "x <- m ;; k" := (bind m (fun x => k))
  (at level 61, m at next level, right associativity).

(** Evaluate a list of computations from left to right; the first
    exception wins (a list comprehension). *)
Fixpoint sequence {A} (ms : list (result A)) : result (list A) :=
  match ms with
  | [] => Ok []
  | m :: ms' => x <- m ;; xs <- sequence ms' ;; Ok (x :: xs)
  end.

(** ** Dictionaries: insertion-ordered association lists *)

Section DictOps.
Context {V : Type}.

(** [d.get(k)] *)
Fixpoint dict_get (k : key) (d : list (key * V)) : option V :=
  match d with
  | [] => None
  | (k', v) :: d' => if key_eqb k k' then Some v else dict_get k d'
  end.

(** [d[k] = v]: an existing key keeps its position. *)
Fixpoint dict_set (k : key) (v : V) (d : list (key * V)) : list (key * V) :=
  match d with
  | [] => [(k, v)]
  | (k', v') :: d' =>
      if key_eqb k k' then (k', v) :: d' else (k', v') :: dict_set k v d'
  end.

(** [[data_i[i] for data_i in data]] *)
Definition column (i : key) (data : list (list (key * V))) : result (list V) :=
  sequence (map (fun data_i => match dict_get i data_i with
                               | Some v => Ok v
                               | None => Raise (KeyError i)
                               end) data).

Definition keys (d : list (key * V)) : list key := map fst d.
Definition values (d : list (key * V)) : list V := map snd d.
End DictOps.

(** [enumerate(l)] *)
Definition enumerate {A} (l : list A) : list (key * A) :=
  combine (map (fun i => KInt (Z.of_nat i)) (seq 0 (length l))) l.

(** [l[i]] on a list or tuple, with Python's negative subscripts. *)
Definition list_getitem {A} (l : list A) (i : Z) : result A :=
  let n := Z.of_nat (length l) in
  let j := if (i <? 0)%Z then (i + n)%Z else i in
  if ((0 <=? j) && (j <? n))%Z
  then match nth_error l (Z.to_nat j) with
       | Some x => Ok x
       | None => Raise IndexError
       end
  else Raise IndexError.

(** ** Trees *)

Inductive tree (L : Type) : Type :=
| Leaf (a : L)
| Dict (items : list (key * tree L))
| PyList (items : list (tree L))
| PyTuple (items : list (tree L)).
Arguments Leaf {L} a.
Arguments Dict {L} items.
Arguments PyList {L} items.
Arguments PyTuple {L} items.

Section TreeInd.
Context {L : Type}.
Variable P : tree L -> Prop.
Hypothesis HLeaf : forall a, P (Leaf a).
Hypothesis HDict : forall d, Forall (fun kv => P (snd kv)) d -> P (Dict d).
Hypothesis HList : forall l, Forall P l -> P (PyList l).
Hypothesis HTuple : forall l, Forall P l -> P (PyTuple l).

Fixpoint tree_ind' (t : tree L) : P t :=
  match t with
  | Leaf a => HLeaf a
  | Dict d =>
      HDict d ((fix go (d : list (key * tree L)) : Forall (fun kv => P (snd kv)) d :=
                  match d with
                  | [] => Forall_nil _
                  | kv :: d' => Forall_cons kv (tree_ind' (snd kv)) (go d')
                  end) d)
  | PyList l =>
      HList l ((fix go (l : list (tree L)) : Forall P l :=
                  match l with
                  | [] => Forall_nil _
                  | x :: l' => Forall_cons x (tree_ind' x) (go l')
                  end) l)
  | PyTuple l =>
      HTuple l ((fix go (l : list (tree L)) : Forall P l :=
                   match l with
                   | [] => Forall_nil _
                   | x :: l' => Forall_cons x (tree_ind' x) (go l')
                   end) l)
  end.
End TreeInd.

(** ** Computations with a state and exceptions

    A Python callable handed to [data_map] may read and write some state of
    its own (the closure of [data_shape] appends to a list) and may raise. *)

Definition M (S A : Type) : Type := S -> result A * S.

Definition mret {S A} (a : A) : M S A := fun s => (Ok a, s).

Definition mbind {S A B} (m : M S A) (f : A -> M S B) : M S B :=
  fun s => match m s with
           | (Ok a, s') => f a s'
           | (Raise e, s') => (Raise e, s')
           end.

Notation "x <~ m ;; k" := (mbind m (fun x => k))
  (at level 61, m at next level, right associativity).

Section MapM.
Context {S A B : Type}.
Variable f : A -> M S B.

(** [[f(x) for x in l]] *)
Fixpoint mapM (l : list A) : M S (list B) :=
  match l with
  | [] => mret []
  | x :: l' => y <~ f x ;; ys <~ mapM l' ;; mret (y :: ys)
  end.
End MapM.

(** ** data_map *)

Section DataMap.
Context {L L' Args KW S : Type}.

(** The empty keyword dictionary [{}]. *)
Variable no_kwargs : KW.

Definition or_default (kwargs : option KW) : KW :=
  match kwargs with Some kw => kw | None => no_kwargs end.

(** [data_map(data, fun, args=(), kwargs=None)] *)
Fixpoint data_map (data : tree L) (fun_ : L -> Args -> KW -> M S (tree L'))
    (args : Args) (kwargs : option KW) {struct data} : M S (tree L') :=
  let kwargs := or_default kwargs in
  match data with
  | Dict d =>
      r <~ mapM (fun kv => v <~ data_map (snd kv) fun_ args (Some kwargs) ;;
                           mret (fst kv, v)) d ;;
      mret (Dict r)
  | PyList l =>
      r <~ mapM (fun data_i => data_map data_i fun_ args (Some kwargs)) l ;;
      mret (PyList r)
  | PyTuple l =>
      r <~ mapM (fun data_i => data_map data_i fun_ args (Some kwargs)) l ;;
      mret (PyTuple r)
  | Leaf a => fun_ a args kwargs
  end.

End DataMap.

(** ** Observations on trees *)

Section Observe.
Context {L : Type}.

(** The container structure of a tree: kinds, keys in order, lengths. *)
Fixpoint skeleton (t : tree L) : tree unit :=
  match t with
  | Leaf _ => Leaf tt
  | Dict d => Dict (map (fun kv => (fst kv, skeleton (snd kv))) d)
  | PyList l => PyList (map skeleton l)
  | PyTuple l => PyTuple (map skeleton l)
  end.

(** The leaves in traversal order, one entry per leaf position. *)
Fixpoint leaves (t : tree L) : list L :=
  match t with
  | Leaf a => [a]
  | Dict d => flat_map (fun kv => leaves (snd kv)) d
  | PyList l => flat_map leaves l
  | PyTuple l => flat_map leaves l
  end.

(** One step of descent: a dictionary key or a position. *)
Inductive step : Type :=
| AtKey (k : key)
| AtPos (i : nat).

Fixpoint subtree (p : list step) (t : tree L) : option (tree L) :=
  match p with
  | [] => Some t
  | AtKey k :: p' =>
      match t with
      | Dict d => match dict_get k d with
                  | Some v => subtree p' v
                  | None => None
                  end
      | _ => None
      end
  | AtPos i :: p' =>
      match t with
      | PyList l | PyTuple l =>
          match nth_error l i with
          | Some v => subtree p' v
          | None => None
          end
      | _ => None
      end
  end.

Definition leaf_at (p : list step) (t : tree L) : option L :=
  match subtree p t with
  | Some (Leaf a) => Some a
  | _ => None
  end.

Definition is_leaf (t : tree L) : bool :=
  match t with Leaf _ => true | _ => false end.

Definition leaf_values (d : list (key * tree L)) : bool :=
  forallb (fun kv => is_leaf (snd kv)) d.

(** No [dict], [list] or [tuple] inside the tree is empty. *)
Fixpoint no_empty (t : tree L) : bool :=
  match t with
  | Leaf _ => true
  | Dict d => negb (Nat.eqb (length d) 0) && forallb (fun kv => no_empty (snd kv)) d
  | PyList l => negb (Nat.eqb (length l) 0) && forallb no_empty l
  | PyTuple l => negb (Nat.eqb (length l) 0) && forallb no_empty l
  end.

End Observe.

(** A callable that records each call and returns [f]'s value as a leaf. *)
Definition logged {L L' Args KW : Type} (f : L -> Args -> KW -> L')
    : L -> Args -> KW -> M (list (L * Args * KW)) (tree L') :=
  fun a args kw log => (Ok (Leaf (f a args kw)), log ++ [(a, args, kw)]).

(** The tree with every leaf [a] replaced by [g a]. *)
Fixpoint tree_map {L L' : Type} (g : L -> L') (t : tree L) : tree L' :=
  match t with
  | Leaf a => Leaf (g a)
  | Dict d => Dict (map (fun kv => (fst kv, tree_map g (snd kv))) d)
  | PyList l => PyList (map (tree_map g) l)
  | PyTuple l => PyTuple (map (tree_map g) l)
  end.

(** ** The array library

    Leaves are values of the array library, which supplies the leaf
    operations used by the module: the shape query [dat.shape[axis]], the
    slices [dat[i:j]] and [dat[..., i:j]], [tf.concat], [tf.boolean_mask]
    and the subscript [dat[i]].  [tf_concat_values] is [tf.concat] on values
    among which there is a dict, a list or a tuple: the library converts
    each value to a tensor, or refuses. *)

Class ArrayLib (L : Type) : Type := {
  shape_at : L -> Z -> result nat;
  slice_first : L -> nat -> nat -> L;
  slice_last : L -> nat -> nat -> L;
  tf_concat : list L -> Z -> result L;
  tf_concat_values : list (tree L) -> Z -> result L;
  boolean_mask : L -> L -> result L;
  subscript : L -> Z -> result L
}.

(** ** data_index *)

(** The [key] argument of [data_index]: one key, or a list or tuple of keys. *)
Inductive index : Type :=
| One (k : key)
| Path (ks : list key).

Section DataIndex.
Context {L : Type} {AL : ArrayLib L}.

(** [for k, v in data.items(): if str(k) == str(i): return v] *)
Fixpoint first_str_match (i : key) (d : list (key * tree L)) : option (tree L) :=
  match d with
  | [] => None
  | (k, v) :: d' =>
      if String.eqb (str k) (str i) then Some v else first_str_match i d'
  end.

(** The local function [idx(data, i)]. *)
Definition idx (data : tree L) (i : key) : result (tree L) :=
  match i with
  | KInt n =>
      match data with
      | Dict d => match dict_get i d with
                  | Some v => Ok v
                  | None => Raise (KeyError i)
                  end
      | PyList l => list_getitem l n
      | PyTuple l => list_getitem l n
      | Leaf a => x <- subscript a n ;; Ok (Leaf x)
      end
  | _ =>
      match data with
      | Dict d =>
          match dict_get i d with
          | Some v => Ok v
          | None =>
              match first_str_match i d with
              | Some v => Ok v
              | None => Raise (ValueError (str i ++ " is not found"))
              end
          end
      | _ => Raise (AssertionError "")
      end
  end.

Fixpoint data_index_keys (data : tree L) (keys : list key) : result (tree L) :=
  match keys with
  | [] => Raise IndexError
  | k :: rest =>
      match rest with
      | [] => idx data k
      | _ :: _ => d <- idx data k ;; data_index_keys d rest
      end
  end.

(** [data_index(data, key)] *)
Definition data_index (data : tree L) (key : index) : result (tree L) :=
  match key with
  | Path keys => data_index_keys data keys
  | One k => idx data k
  end.

End DataIndex.

(** ** flatten_dict_data *)

(** ["{}/{}".format] *)
Definition format_slash (i j : key) : key := KStr (str i ++ "/" ++ str j).

Section Flatten.
Context {L : Type}.

(** [gen(dat)] for [gen] one of [dict_gen], [list_gen]; nothing for a leaf. *)
Definition items_of (t : tree L) : option (list (key * tree L)) :=
  match t with
  | Dict d => Some d
  | PyList l => Some (enumerate l)
  | PyTuple l => Some (enumerate l)
  | Leaf _ => None
  end.

(** The body of the loop over [(i, data_i)], with [tmp] the flattened child. *)
Definition flatten_step (fun_ : key -> key -> key) (ret : list (key * tree L))
    (i : key) (tmp : tree L) : list (key * tree L) :=
  match items_of tmp with
  | Some its => fold_left (fun ret jt => dict_set (fun_ i (fst jt)) (snd jt) ret) its ret
  | None => dict_set i tmp ret
  end.

Definition flatten_loop (fun_ : key -> key -> key) (its : list (key * tree L))
    : list (key * tree L) :=
  fold_left (fun ret it => flatten_step fun_ ret (fst it) (snd it)) its [].

(** [flatten_dict_data(data, fun="{}/{}".format)].  The recursive call is
    [flatten_dict_data(data_i)], with the default [fun]. *)
Fixpoint flatten_dict_data (data : tree L) (fun_ : key -> key -> key) {struct data}
    : tree L :=
  match data with
  | Dict d =>
      Dict (flatten_loop fun_
              (map (fun kv => (fst kv, flatten_dict_data (snd kv) format_slash)) d))
  | PyList l =>
      Dict (flatten_loop fun_
              (enumerate (map (fun data_i => flatten_dict_data data_i format_slash) l)))
  | PyTuple l =>
      Dict (flatten_loop fun_
              (enumerate (map (fun data_i => flatten_dict_data data_i format_slash) l)))
  | Leaf _ => data
  end.

(** Every value of the mapping is a leaf. *)
Definition single_level (t : tree L) : bool :=
  match t with
  | Dict d => forallb (fun kv => match snd kv with Leaf _ => true | _ => false end) d
  | _ => false
  end.

End Flatten.

(** ** A model of the array library: nested arrays of integers *)

Inductive ndarray : Type :=
| Scalar (x : Z)
| Arr (xs : list ndarray).

Fixpoint shape_eqb (s s' : list nat) : bool :=
  match s, s' with
  | [], [] => true
  | n :: t, n' :: t' => Nat.eqb n n' && shape_eqb t t'
  | _, _ => false
  end.

(** The shape of a rectangular array; [None] for a ragged nesting, which is
    not an array. *)
Fixpoint shape (a : ndarray) : option (list nat) :=
  match a with
  | Scalar _ => Some []
  | Arr xs =>
      match xs with
      | [] => Some [0]
      | x :: xs' =>
          match shape x with
          | Some s =>
              if forallb (fun y => match shape y with
                                   | Some s' => shape_eqb s s'
                                   | None => false
                                   end) xs'
              then Some (length xs :: s) else None
          | None => None
          end
      end
  end.

Definition children (a : ndarray) : list ndarray :=
  match a with Arr xs => xs | Scalar _ => [] end.

(** [l[i:j]] on a list, for [0 <= i], [0 <= j]. *)
Definition list_slice {A} (l : list A) (i j : nat) : list A :=
  firstn (j - i) (skipn i l).

Definition nd_shape_at (a : ndarray) (axis : Z) : result nat :=
  match shape a with
  | Some s => list_getitem s axis
  | None => Raise (ArrayError 0)
  end.

Definition nd_slice_first (a : ndarray) (i j : nat) : ndarray :=
  match a with
  | Arr xs => Arr (list_slice xs i j)
  | Scalar x => Scalar x
  end.

Fixpoint nd_slice_last (a : ndarray) (i j : nat) : ndarray :=
  match a with
  | Scalar x => Scalar x
  | Arr xs =>
      match xs with
      | Arr _ :: _ => Arr (map (fun x => nd_slice_last x i j) xs)
      | _ => Arr (list_slice xs i j)
      end
  end.

(** Split every list into head and tail; [None] when one is empty. *)
Fixpoint uncons_all {A} (ls : list (list A)) : option (list A * list (list A)) :=
  match ls with
  | [] => Some ([], [])
  | l :: ls' =>
      match l with
      | [] => None
      | x :: l' =>
          match uncons_all ls' with
          | Some (hs, ts) => Some (x :: hs, l' :: ts)
          | None => None
          end
      end
  end.

Fixpoint zip_rounds {A} (n : nat) (ls : list (list A)) : list (list A) :=
  match n with
  | 0 => []
  | S n' =>
      match uncons_all ls with
      | Some (hs, ts) => hs :: zip_rounds n' ts
      | None => []
      end
  end.

(** [zip( *ls )] on lists: stops at the shortest. *)
Definition zip_star {A} (ls : list (list A)) : list (list A) :=
  match ls with
  | [] => []
  | l :: _ => zip_rounds (length l) ls
  end.

Fixpoint concat_at (k : nat) (ls : list ndarray) : ndarray :=
  match k with
  | 0 => Arr (flat_map children ls)
  | S k' => Arr (map (concat_at k') (zip_star (map children ls)))
  end.

(** Equal ranks, and equal extents on every axis but [k]. *)
Fixpoint compatible (k : nat) (s s' : list nat) : bool :=
  match s, s' with
  | [], [] => true
  | n :: t, n' :: t' =>
      match k with
      | 0 => shape_eqb t t'
      | S k' => Nat.eqb n n' && compatible k' t t'
      end
  | _, _ => false
  end.

(** [tf.concat(ls, axis)]; a single value is returned as it is. *)
Definition nd_concat (ls : list ndarray) (axis : Z) : result ndarray :=
  match ls with
  | [] => Raise (ValueError "need at least one array to concatenate")
  | [a] => Ok a
  | a :: _ =>
      match shape a with
      | None => Raise (ArrayError 0)
      | Some s =>
          let r := Z.of_nat (length s) in
          let k := if (axis <? 0)%Z then (axis + r)%Z else axis in
          if ((0 <=? k) && (k <? r))%Z
          then if forallb (fun b => match shape b with
                                    | Some s' => compatible (Z.to_nat k) s s'
                                    | None => false
                                    end) ls
               then Ok (concat_at (Z.to_nat k) ls)
               else Raise (ArrayError 1)
          else Raise (ArrayError 2)
      end
  end.

(** The parts of [a] at the places where the mask [m] is true, in order;
    the mask has to fit the leading axes of [a]. *)
Fixpoint mask_select (m a : ndarray) {struct m} : option (list ndarray) :=
  match m with
  | Scalar b => Some (if Z.eqb b 0 then [] else [a])
  | Arr ms =>
      match a with
      | Scalar _ => None
      | Arr xs =>
          (fix rows (ms xs : list ndarray) {struct ms} : option (list ndarray) :=
             match ms, xs with
             | [], [] => Some []
             | m' :: ms', x :: xs' =>
                 match mask_select m' x, rows ms' xs' with
                 | Some l, Some l' => Some (l ++ l')
                 | _, _ => None
                 end
             | _, _ => None
             end) ms xs
      end
  end.

(** [tf.boolean_mask(a, mask)]: the mask is an array of rank at least 1. *)
Definition nd_boolean_mask (a mask : ndarray) : result ndarray :=
  match mask, shape mask with
  | Arr _, Some _ =>
      match mask_select mask a with
      | Some l => Ok (Arr l)
      | None => Raise (ArrayError 3)
      end
  | _, _ => Raise (ArrayError 3)
  end.

Definition nd_subscript (a : ndarray) (i : Z) : result ndarray :=
  match a with
  | Arr xs => list_getitem xs i
  | Scalar _ => Raise IndexError
  end.

(** [tf.convert_to_tensor] on a value: lists and tuples of arrays of one
    shape are stacked, a dict is refused. *)
Fixpoint nd_convert (t : tree ndarray) : result ndarray :=
  let stacked (l : list (tree ndarray)) :=
    xs <- sequence (map nd_convert l) ;;
    match shape (Arr xs) with
    | Some _ => Ok (Arr xs)
    | None => Raise (ValueError "cannot convert a ragged nesting to a tensor")
    end in
  match t with
  | Leaf a => Ok a
  | PyList l => stacked l
  | PyTuple l => stacked l
  | Dict _ => Raise (ValueError "cannot convert a dict to a tensor")
  end.

Definition nd_concat_values (ls : list (tree ndarray)) (axis : Z) : result ndarray :=
  xs <- sequence (map nd_convert ls) ;;
  nd_concat xs axis.

#[export] Instance ndarray_lib : ArrayLib ndarray := {
  shape_at := nd_shape_at;
  slice_first := nd_slice_first;
  slice_last := nd_slice_last;
  tf_concat := nd_concat;
  tf_concat_values := nd_concat_values;
  boolean_mask := nd_boolean_mask;
  subscript := nd_subscript
}.

(** Rows of integers as a two-dimensional array, and a vector. *)
Definition matrix (rows : list (list Z)) : ndarray :=
  Arr (map (fun r => Arr (map Scalar r)) rows).

Definition vector (xs : list Z) : ndarray := Arr (map Scalar xs).

(** A caller-supplied formatter: ["{}.{}".format] *)
Definition format_dot (i j : key) : key := KStr (str i ++ "." ++ str j).

(** ** data_merge *)

Fixpoint all_some {A} (l : list (option A)) : option (list A) :=
  match l with
  | [] => Some []
  | Some x :: l' => match all_some l' with
                    | Some xs => Some (x :: xs)
                    | None => None
                    end
  | None :: _ => None
  end.

Definition key_in (k : key) (ks : list key) : bool := existsb (key_eqb k) ks.

(** The elements of [set.intersection( *all_idx )], listed along the first
    set; [set_iter] below gives the order in which the set is iterated. *)
Definition intersection (all_idx : list (list key)) : list key :=
  match all_idx with
  | [] => []
  | ks :: others => filter (fun k => forallb (key_in k) others) ks
  end.

Section Merge.
Context {L : Type} {AL : ArrayLib L}.

(** The order in which a [set] holding the given elements is iterated. *)
Variable set_iter : list key -> list key.

Definition as_dict (t : tree L) : option (list (key * tree L)) :=
  match t with Dict d => Some d | _ => None end.
Definition as_list (t : tree L) : option (list (tree L)) :=
  match t with PyList l => Some l | _ => None end.
Definition as_tuple (t : tree L) : option (list (tree L)) :=
  match t with PyTuple l => Some l | _ => None end.
Definition as_leaf (t : tree L) : option L :=
  match t with Leaf a => Some a | _ => None end.

(** [data_merge(d0, *rest, axis=axis)], by recursion on the first tree.
    The recursive calls do not pass [axis] on: below the top they run with
    the default [axis=0].  When [data[0]] is a leaf all the values go to
    [tf.concat], also those that are containers. *)
Fixpoint merge_first (d0 : tree L) (rest : list (tree L)) (axis : Z) {struct d0}
    : result (tree L) :=
  match d0 with
  | Dict items0 =>
      match all_some (map as_dict rest) with
      | None => Raise (AssertionError "not all type same")
      | Some others =>
          let idx := set_iter (intersection (keys items0 :: map keys others)) in
          (* the merged child of every key of [data[0]] *)
          let merged :=
            map (fun kv => (fst kv, vs <- column (fst kv) others ;;
                                    merge_first (snd kv) vs 0)) items0 in
          r <- sequence (map (fun i => match dict_get i merged with
                                       | Some m => v <- m ;; Ok (i, v)
                                       | None => Raise (KeyError i)
                                       end) idx) ;;
          Ok (Dict r)
      end
  | PyList l0 =>
      match all_some (map as_list rest) with
      | None => Raise (AssertionError "not all type same")
      | Some others =>
          r <- (fix zipped (l0 : list (tree L)) (others : list (list (tree L)))
                  : result (list (tree L)) :=
                  match l0 with
                  | [] => Ok []
                  | x :: l0' =>
                      match uncons_all others with
                      | None => Ok []
                      | Some (hs, ts) =>
                          v <- merge_first x hs 0 ;;
                          vs <- zipped l0' ts ;;
                          Ok (v :: vs)
                      end
                  end) l0 others ;;
          Ok (PyList r)
      end
  | PyTuple l0 =>
      match all_some (map as_tuple rest) with
      | None => Raise (AssertionError "not all type same")
      | Some others =>
          r <- (fix zipped (l0 : list (tree L)) (others : list (list (tree L)))
                  : result (list (tree L)) :=
                  match l0 with
                  | [] => Ok []
                  | x :: l0' =>
                      match uncons_all others with
                      | None => Ok []
                      | Some (hs, ts) =>
                          v <- merge_first x hs 0 ;;
                          vs <- zipped l0' ts ;;
                          Ok (v :: vs)
                      end
                  end) l0 others ;;
          Ok (PyTuple r)
      end
  | Leaf a =>
      match all_some (map as_leaf rest) with
      | Some others => m_data <- tf_concat (a :: others) axis ;; Ok (Leaf m_data)
      | None => m_data <- tf_concat_values (Leaf a :: rest) axis ;; Ok (Leaf m_data)
      end
  end.

(** [data_merge( *data, axis=0)] *)
Definition data_merge (data : list (tree L)) (axis : Z) : result (tree L) :=
  match data with
  | [] => Raise IndexError
  | d0 :: rest => merge_first d0 rest axis
  end.

End Merge.

(** ** Generators

    A generator is described by what it does when it is run to the end: the
    values it yields, and then either the normal end ([None]) or the
    exception it raises. *)

Record gen (A : Type) : Type := Gen {
  yielded : list A;
  ending : option exn
}.
Arguments Gen {A} yielded ending.
Arguments yielded {A} g.
Arguments ending {A} g.

Definition gen_raise {A} (e : exn) : gen A := Gen [] (Some e).

Definition gen_cons {A} (x : A) (g : gen A) : gen A :=
  Gen (x :: yielded g) (ending g).

Definition gen_map {A B} (f : A -> B) (g : gen A) : gen B :=
  Gen (map f (yielded g)) (ending g).

(** How many values the generator yields. *)
Definition produced {A} (g : gen A) : nat := length (yielded g).

(** [list(g)] *)
Definition list_of_gen {A} (g : gen A) : result (list A) :=
  match ending g with
  | None => Ok (yielded g)
  | Some e => Raise e
  end.

(** One round of [zip]: [next] on every generator from left to right.  The
    first generator that has nothing left stops the round with its ending. *)
Fixpoint next_all {A} (gs : list (gen A)) : (list A * list (gen A)) + option exn :=
  match gs with
  | [] => inl ([], [])
  | g :: gs' =>
      match yielded g with
      | [] => inr (ending g)
      | x :: xs =>
          match next_all gs' with
          | inl (hs, ts) => inl (x :: hs, Gen xs (ending g) :: ts)
          | inr e => inr e
          end
      end
  end.

Fixpoint zip_gen_rounds {A} (n : nat) (gs : list (gen A)) : gen (list A) :=
  match n with
  | 0 => Gen [] None
  | S n' =>
      match next_all gs with
      | inl (hs, ts) => gen_cons hs (zip_gen_rounds n' ts)
      | inr e => Gen [] e
      end
  end.

(** [zip( *vs )] on generators.  With no generator at all it yields nothing;
    otherwise the first generator bounds the number of rounds. *)
Definition zip_gens {A} (vs : list (gen A)) : gen (list A) :=
  match vs with
  | [] => Gen [] None
  | g :: _ => zip_gen_rounds (S (length (yielded g))) vs
  end.

(** The start indices [range(0, n, b)] for [b >= 1]. *)
Definition batch_starts (n b : nat) : list nat :=
  map (fun k => k * b) (seq 0 ((n + b - 1) / b)).

(** [range(0, stop, step)] *)
Definition range_from_0 (stop : nat) (step : Z) : result (list nat) :=
  if (step =? 0)%Z then Raise (ValueError "range() arg 3 must not be zero")
  else if (step <? 0)%Z then Ok []
  else Ok (batch_starts stop (Z.to_nat step)).

Section Split.
Context {L : Type} {AL : ArrayLib L}.

(** [_data_split(dat, batch_size, axis=0)] *)
Definition _data_split (dat : L) (batch_size : Z) (axis : Z) : gen (tree L) :=
  match shape_at dat axis with
  | Raise e => gen_raise e
  | Ok data_size =>
      if (axis =? 0)%Z then
        match range_from_0 data_size batch_size with
        | Raise e => gen_raise e
        | Ok starts =>
            Gen (map (fun i => Leaf (slice_first dat i
                                       (Nat.min (i + Z.to_nat batch_size) data_size)))
                     starts) None
        end
      else if (axis =? -1)%Z then
        match range_from_0 data_size batch_size with
        | Raise e => gen_raise e
        | Ok starts =>
            Gen (map (fun i => Leaf (slice_last dat i
                                       (Nat.min (i + Z.to_nat batch_size) data_size)))
                     starts) None
        end
      else gen_raise (Exception_ ("unsupported axis: " ++ str (KInt axis)))
  end.

Context {Args KW : Type}.
Variable no_kwargs : KW.

(** [data_generator(data, fun=_data_split, args=(), kwargs=None)] *)
Fixpoint data_generator (data : tree L) (fun_ : L -> Args -> KW -> gen (tree L))
    (args : Args) (kwargs : option KW) {struct data} : gen (tree L) :=
  let kw := or_default no_kwargs kwargs in
  match data with
  | Dict d =>
      let ks := keys d in
      let vs := map (fun kv => data_generator (snd kv) fun_ args (Some kw)) d in
      gen_map (fun s_data => Dict (combine ks s_data)) (zip_gens vs)
  | PyList l =>
      let vs := map (fun v => data_generator v fun_ args (Some kw)) l in
      gen_map (fun s_data => PyList s_data) (zip_gens vs)
  | PyTuple l =>
      let vs := map (fun v => data_generator v fun_ args (Some kw)) l in
      gen_map (fun s_data => PyTuple s_data) (zip_gens vs)
  | Leaf a => fun_ a args kw
  end.

End Split.

(** [data_split(data, batch_size, axis=0)]: the keyword dictionary is
    [{"axis": axis}], here the axis itself. *)
Definition data_split {L : Type} {AL : ArrayLib L}
    (data : tree L) (batch_size : Z) (axis : Z) : gen (tree L) :=
  data_generator 0%Z data (fun dat b ax => _data_split dat b ax) batch_size (Some axis).

(** ** Properties of the array library the module relies on *)

Class ArrayLaws (L : Type) {AL : ArrayLib L} : Prop := {
  (** [dat[i:j]] has extent [j - i] on the first axis. *)
  slice_first_shape : forall (a : L) (n i j : nat),
    shape_at a 0 = Ok n -> i <= j -> j <= n ->
    shape_at (slice_first a i j) 0 = Ok (j - i);
  (** Concatenating the consecutive batches of an array along the first
      axis gives the array back. *)
  concat_batches : forall (a : L) (n b : nat),
    shape_at a 0 = Ok n -> 1 <= b -> 1 <= n ->
    tf_concat (map (fun i => slice_first a i (Nat.min (i + b) n)) (batch_starts n b)) 0
    = Ok a
}.

(** ** Comparing trees and numbers *)

Section TreeEq.
Context {L : Type}.

(** Python's [==] on trees: same kind of container; for mappings the same
    keys, in any order, with equal values; for sequences and tuples the same
    length with equal elements; equal leaves. *)
Fixpoint tree_eq (t1 t2 : tree L) {struct t1} : Prop :=
  match t1, t2 with
  | Leaf a, Leaf b => a = b
  | Dict d1, Dict d2 =>
      Permutation (keys d1) (keys d2)
      /\ (fix all (d : list (key * tree L)) : Prop :=
            match d with
            | [] => True
            | kv :: d' =>
                match dict_get (fst kv) d2 with
                | Some v2 => tree_eq (snd kv) v2
                | None => False
                end /\ all d'
            end) d1
  | PyList l1, PyList l2 =>
      (fix all2 (l1 l2 : list (tree L)) : Prop :=
         match l1, l2 with
         | [], [] => True
         | x :: l1', y :: l2' => tree_eq x y /\ all2 l1' l2'
         | _, _ => False
         end) l1 l2
  | PyTuple l1, PyTuple l2 =>
      (fix all2 (l1 l2 : list (tree L)) : Prop :=
         match l1, l2 with
         | [], [] => True
         | x :: l1', y :: l2' => tree_eq x y /\ all2 l1' l2'
         | _, _ => False
         end) l1 l2
  | _, _ => False
  end.

End TreeEq.

(** [n] is the least element of [l]. *)
Definition is_min (n : nat) (l : list nat) : Prop :=
  Forall (fun x => n <= x) l /\ In n l.

(** ** data_mask *)

(** [data_mask(data, select)]: [data_map(data, tf.boolean_mask, args=(select,))] *)
Definition data_mask {L : Type} {AL : ArrayLib L} (data : tree L) (select : L)
    : result (tree L) :=
  fst (data_map tt data
         (fun a sel (_ : unit) (s : unit) => (x <- boolean_mask a sel ;; Ok (Leaf x), s))
         select None tt).

(** * The same functions on a store of objects

    To speak about mutation, a tree is now a reference into a store of
    Python objects; containers hold references.  The functions are the ones
    above, written over the store: they read the objects of their
    arguments and allocate the containers they build.  [depth] bounds the
    nesting of calls, as the interpreter does. *)

Module Store.

Definition loc : Type := nat.

Inductive obj (L : Type) : Type :=
| ODict (items : list (key * loc))
| OList (items : list loc)
| OTuple (items : list loc)
| OLeaf (a : L).
Arguments ODict {L} items.
Arguments OList {L} items.
Arguments OTuple {L} items.
Arguments OLeaf {L} a.

Definition heap (L : Type) : Type := list (obj L).

(** [l[i] := x]; nothing happens outside the list. *)
Fixpoint update {A} (i : nat) (x : A) (l : list A) : list A :=
  match l, i with
  | [], _ => []
  | _ :: l', 0 => x :: l'
  | y :: l', S i' => y :: update i' x l'
  end.

Section Ops.
Context {L : Type} {AL : ArrayLib L}.

Definition H (A : Type) : Type := M (heap L) A.

Definition alloc (o : obj L) : H loc := fun h => (Ok (length h), h ++ [o]).

Definition load (l : loc) : H (obj L) :=
  fun h => match nth_error h l with
           | Some o => (Ok o, h)
           | None => (Raise (Exception_ "dangling reference"), h)
           end.

Definition store (l : loc) (o : obj L) : H unit := fun h => (Ok tt, update l o h).

Definition raise {A} (e : exn) : H A := fun h => (Raise e, h).

Definition lift {A} (r : result A) : H A := fun h => (r, h).

Definition as_dict (o : obj L) : option (list (key * loc)) :=
  match o with ODict d => Some d | _ => None end.
Definition as_list (o : obj L) : option (list loc) :=
  match o with OList l => Some l | _ => None end.
Definition as_tuple (o : obj L) : option (list loc) :=
  match o with OTuple l => Some l | _ => None end.
Definition as_leaf (o : obj L) : option L :=
  match o with OLeaf a => Some a | _ => None end.

Definition is_container (o : obj L) : bool :=
  match o with OLeaf _ => false | _ => true end.

(** The tree a reference stands for. *)
Fixpoint tree_at (depth : nat) (h : heap L) (l : loc) {struct depth} : option (tree L) :=
  match depth with
  | 0 => None
  | S depth' =>
      match nth_error h l with
      | None => None
      | Some (OLeaf a) => Some (Leaf a)
      | Some (ODict d) =>
          option_map (fun vs => Dict (combine (keys d) vs))
                     (all_some (map (fun kv => tree_at depth' h (snd kv)) d))
      | Some (OList ls) => option_map PyList (all_some (map (tree_at depth' h) ls))
      | Some (OTuple ls) => option_map PyTuple (all_some (map (tree_at depth' h) ls))
      end
  end.

(** The value behind a reference, as the array library sees it. *)
Definition read_tree (depth : nat) (l : loc) : H (tree L) :=
  fun h => match tree_at depth h l with
           | Some t => (Ok t, h)
           | None => (Raise RecursionError, h)
           end.

(** The interpreter keeps one empty tuple: the first one of the store,
    made when there is none yet. *)
Fixpoint first_empty_tuple (h : heap L) (l : loc) : option loc :=
  match h with
  | [] => None
  | OTuple [] :: _ => Some l
  | _ :: h' => first_empty_tuple h' (S l)
  end.

Definition empty_tuple : H loc :=
  fun h => match first_empty_tuple h 0 with
           | Some l => (Ok l, h)
           | None => (Ok (length h), h ++ [OTuple []])
           end.

(** [tuple(r)] for a list [r]: a new tuple, or the empty tuple. *)
Definition new_tuple (r : list loc) : H loc :=
  match r with
  | [] => empty_tuple
  | _ :: _ => alloc (OTuple r)
  end.

(** The references an object holds. *)
Definition refs (o : obj L) : list loc :=
  match o with
  | ODict d => values d
  | OList l => l
  | OTuple l => l
  | OLeaf _ => []
  end.

(** [r] is reached from [p] by following references held in [h]. *)
Inductive inside (h : heap L) : loc -> loc -> Prop :=
| inside_child p o c :
    nth_error h p = Some o -> In c (refs o) -> inside h p c
| inside_deeper p o c r :
    nth_error h p = Some o -> In c (refs o) -> inside h c r -> inside h p r.

Section Map.
Context {Args KW : Type}.
Variable no_kwargs : KW.

Fixpoint data_map (depth : nat) (data : loc) (fun_ : loc -> Args -> KW -> H loc)
    (args : Args) (kwargs : option KW) {struct depth} : H loc :=
  match depth with
  | 0 => raise RecursionError
  | S depth' =>
      let kwargs := or_default no_kwargs kwargs in
      o <~ load data ;;
      match o with
      | ODict d =>
          r <~ mapM (fun kv => v <~ data_map depth' (snd kv) fun_ args (Some kwargs) ;;
                               mret (fst kv, v)) d ;;
          alloc (ODict r)
      | OList l =>
          r <~ mapM (fun data_i => data_map depth' data_i fun_ args (Some kwargs)) l ;;
          alloc (OList r)
      | OTuple l =>
          r <~ mapM (fun data_i => data_map depth' data_i fun_ args (Some kwargs)) l ;;
          new_tuple r
      | OLeaf _ => fun_ data args kwargs
      end
  end.

(** [data_generator]: the generator run to its end.  The containers of every
    yielded tree are allocated; an exception met on the way is raised. *)
Definition yield_all (mk : list loc -> obj L) (g : gen (list loc)) : H (gen loc) :=
  ls <~ mapM (fun s_data => alloc (mk s_data)) (yielded g) ;;
  mret (Gen ls (ending g)).

Fixpoint data_generator (depth : nat) (data : loc) (fun_ : loc -> Args -> KW -> H (gen loc))
    (args : Args) (kwargs : option KW) {struct depth} : H (gen loc) :=
  match depth with
  | 0 => raise RecursionError
  | S depth' =>
      let kw := or_default no_kwargs kwargs in
      o <~ load data ;;
      match o with
      | ODict d =>
          vs <~ mapM (fun kv => data_generator depth' (snd kv) fun_ args (Some kw)) d ;;
          yield_all (fun s_data => ODict (combine (keys d) s_data)) (zip_gens vs)
      | OList l =>
          vs <~ mapM (fun v => data_generator depth' v fun_ args (Some kw)) l ;;
          yield_all (fun s_data => OList s_data) (zip_gens vs)
      | OTuple l =>
          vs <~ mapM (fun v => data_generator depth' v fun_ args (Some kw)) l ;;
          yield_all (fun s_data => OTuple s_data) (zip_gens vs)
      | OLeaf _ => fun_ data args kw
      end
  end.

End Map.

(** [tf.boolean_mask(tensor, mask)] on references. *)
Definition tf_boolean_mask (tensor : loc) (mask : loc) (_ : unit) : H loc :=
  t <~ load tensor ;;
  m <~ load mask ;;
  match t, m with
  | OLeaf a, OLeaf s => x <~ lift (boolean_mask a s) ;; alloc (OLeaf x)
  | _, _ => raise TypeError
  end.

Definition data_mask (depth : nat) (data select : loc) : H loc :=
  data_map tt depth data tf_boolean_mask select None.

Definition _data_split (dat : loc) (batch_size : Z) (axis : Z) : H (gen loc) :=
  o <~ load dat ;;
  match o with
  | OLeaf a =>
      let g := _data_split a batch_size axis in
      ls <~ mapM (fun t => match t with
                           | Leaf x => alloc (OLeaf x)
                           | _ => raise TypeError
                           end) (yielded g) ;;
      mret (Gen ls (ending g))
  | _ => raise TypeError
  end.

Definition data_split (depth : nat) (data : loc) (batch_size : Z) (axis : Z)
    : H (gen loc) :=
  data_generator 0%Z depth data (fun dat b ax => _data_split dat b ax)
    batch_size (Some axis).

Variable set_iter : list key -> list key.

Fixpoint data_merge (depth : nat) (data : list loc) (axis : Z) {struct depth} : H loc :=
  match depth with
  | 0 => raise RecursionError
  | S depth' =>
      os <~ mapM load data ;;
      match os with
      | [] => raise IndexError
      | ODict _ :: _ =>
          match all_some (map as_dict os) with
          | None => raise (AssertionError "not all type same")
          | Some ds =>
              let idx := set_iter (intersection (map keys ds)) in
              r <~ mapM (fun i => cs <~ lift (column i ds) ;;
                                  v <~ data_merge depth' cs 0 ;;
                                  mret (i, v)) idx ;;
              alloc (ODict r)
          end
      | OList _ :: _ =>
          match all_some (map as_list os) with
          | None => raise (AssertionError "not all type same")
          | Some ls =>
              r <~ mapM (fun data_i => data_merge depth' data_i 0) (zip_star ls) ;;
              alloc (OList r)
          end
      | OTuple _ :: _ =>
          match all_some (map as_tuple os) with
          | None => raise (AssertionError "not all type same")
          | Some ls =>
              r <~ mapM (fun data_i => data_merge depth' data_i 0) (zip_star ls) ;;
              new_tuple r
          end
      | OLeaf _ :: _ =>
          match all_some (map as_leaf os) with
          | None =>
              values_ <~ mapM (read_tree depth') data ;;
              m_data <~ lift (tf_concat_values values_ axis) ;;
              alloc (OLeaf m_data)
          | Some ls => m_data <~ lift (tf_concat ls axis) ;; alloc (OLeaf m_data)
          end
      end
  end.

(** [dict_gen] / [list_gen]; nothing for a leaf. *)
Definition items_of (o : obj L) : option (list (key * loc)) :=
  match o with
  | ODict d => Some d
  | OList l => Some (enumerate l)
  | OTuple l => Some (enumerate l)
  | OLeaf _ => None
  end.

(** [ret[k] = v] *)
Definition dict_setitem (ret : loc) (k : key) (v : loc) : H unit :=
  o <~ load ret ;;
  match o with
  | ODict d => store ret (ODict (dict_set k v d))
  | _ => raise TypeError
  end.

Fixpoint flatten_dict_data (depth : nat) (data : loc) (fun_ : key -> key -> key)
    {struct depth} : H loc :=
  match depth with
  | 0 => raise RecursionError
  | S depth' =>
      o <~ load data ;;
      match items_of o with
      | Some its =>
          ret <~ alloc (ODict []) ;;
          _ <~ mapM (fun it =>
                       tmp <~ flatten_dict_data depth' (snd it) format_slash ;;
                       ot <~ load tmp ;;
                       match items_of ot with
                       | Some its2 =>
                           _ <~ mapM (fun jt => dict_setitem ret (fun_ (fst it) (fst jt))
                                                  (snd jt)) its2 ;;
                           mret tt
                       | None => dict_setitem ret (fst it) tmp
                       end) its ;;
          mret ret
      | None => mret data
      end
  end.

Definition idx (data : loc) (i : key) : H loc :=
  o <~ load data ;;
  match i with
  | KInt n =>
      match o with
      | ODict d => match dict_get i d with
                   | Some v => mret v
                   | None => raise (KeyError i)
                   end
      | OList l => lift (list_getitem l n)
      | OTuple l => lift (list_getitem l n)
      | OLeaf a => x <~ lift (subscript a n) ;; alloc (OLeaf x)
      end
  | _ =>
      match o with
      | ODict d =>
          match dict_get i d with
          | Some v => mret v
          | None =>
              match find (fun kv => String.eqb (str (fst kv)) (str i)) d with
              | Some kv => mret (snd kv)
              | None => raise (ValueError (str i ++ " is not found"))
              end
          end
      | _ => raise (AssertionError "")
      end
  end.

Fixpoint data_index_keys (data : loc) (keys : list key) : H loc :=
  match keys with
  | [] => raise IndexError
  | k :: rest =>
      match rest with
      | [] => idx data k
      | _ :: _ => d <~ idx data k ;; data_index_keys d rest
      end
  end.

Definition data_index (data : loc) (key : index) : H loc :=
  match key with
  | Path keys => data_index_keys data keys
  | One k => idx data k
  end.

(** ** What a call leaves in place *)

(** Every object of [h] is still there, as it was. *)
Definition preserved (h h' : heap L) : Prop :=
  forall l o, nth_error h l = Some o -> nth_error h' l = Some o.

(** Run from a store of at least [n] objects, [m] leaves the first [n]
    objects as they are, does not shrink the store, and returns values
    satisfying [Q]. *)
Definition keeps (n : nat) {A} (m : H A) (Q : A -> Prop) : Prop :=
  forall h, n <= length h ->
    length h <= length (snd (m h))
    /\ (forall l, l < n -> nth_error (snd (m h)) l = nth_error h l)
    /\ (forall a, fst (m h) = Ok a -> Q a).

(** No condition on the value returned. *)
Definition any {A : Type} : A -> Prop := fun _ => True.

(** Run from a store of at least [n] objects, [m] returns an object made
    after the first [n], or the empty tuple. *)
Definition builds (n : nat) (m : H loc) : Prop :=
  forall h r, n <= length h -> fst (m h) = Ok r ->
    n <= r \/ nth_error (snd (m h)) r = Some (OTuple []).

(** The references a generator yields are at or above [n]. *)
Definition yields_new (n : nat) (g : gen loc) : Prop :=
  Forall (fun l => n <= l) (yielded g).

End Ops.
End Store.

(** * More of the module

    The rest of [data.py] and [root_io.py], with what the theorems about
    them need. *)

(** ** Callables handed to data_map *)

(** A function without effects that returns a leaf. *)
Definition pure_leaf {L L' Args KW S : Type} (f : L -> Args -> KW -> L')
    : L -> Args -> KW -> M S (tree L') :=
  fun a args kw s => (Ok (Leaf (f a args kw)), s).

(** A function that may raise, with every call recorded, also the failing
    one. *)
Definition logged_raising {L L' Args KW : Type} (f : L -> result L')
    : L -> Args -> KW -> M (list L) (tree L') :=
  fun a _ _ log =>
    (match f a with Ok b => Ok (Leaf b) | Raise e => Raise e end, log ++ [a]).

(** The exception of a result, if it is one. *)
Definition outcome {A} (r : result A) : option exn :=
  match r with Ok _ => None | Raise e => Some e end.

(** ** data_shape *)

(** The attribute [dat.shape] of the array library. *)
Class ArrayShape (L : Type) : Type := {
  shape_of : L -> result (list nat)
}.

#[export] Instance ndarray_shape : ArrayShape ndarray := {
  shape_of := fun a => match shape a with
                       | Some s => Ok s
                       | None => Raise (ArrayError 0)
                       end
}.

(** [dat.shape[axis]] is the entry [axis] of [dat.shape]. *)
Class ShapeLaws (L : Type) {AL : ArrayLib L} {AS : ArrayShape L} : Prop := {
  shape_at_shape_of : forall (a : L) (axis : Z),
    shape_at a axis = (s <- shape_of a ;; list_getitem s axis)
}.

(** What [data_shape] returns: all the shapes, or one extent. *)
Inductive shape_info : Type :=
| AllShapes (shapes : list (list nat))
| Extent (n : nat).

Section DataShape.
Context {L : Type} {AS : ArrayShape L}.

(** The local function [data_list(dat1)]: [ret.append(dat1.shape)]; it
    returns [None]. *)
Definition data_list (dat1 : L) (_ : unit) (_ : unit) : M (list (list nat)) (tree unit) :=
  fun ret => match shape_of dat1 with
             | Ok s => (Ok (Leaf tt), ret ++ [s])
             | Raise e => (Raise e, ret)
             end.

(** The local function [flatten(dat)] of [data_shape]. *)
Definition shapes_of (dat : tree L) : result (list (list nat)) :=
  match data_map tt dat data_list tt None [] with
  | (Ok _, ret) => Ok ret
  | (Raise e, _) => Raise e
  end.

(** [data_shape(data, axis=0, all_list=False)] *)
Definition data_shape (data : tree L) (axis : Z) (all_list : bool) : result shape_info :=
  shapes <- shapes_of data ;;
  if all_list then Ok (AllShapes shapes)
  else s0 <- list_getitem shapes 0 ;;
       n <- list_getitem s0 axis ;;
       Ok (Extent n).

End DataShape.

(** What a computation does, apart from the value it returns: the
    exception, if any, and the final state. *)
Definition effect {S A} (m : M S A) (s : S) : option exn * S :=
  (outcome (fst (m s)), snd (m s)).

(** ** The trees a generator yields *)

(** [tr] is the tree [t] with every leaf replaced by value [j] of the leaf's
    own generator: same containers, and at every path of a leaf [a] of [t]
    the leaf that [fun(a, ...)] yields in position [j]. *)
Definition cut_of {L Args KW : Type} (fun_ : L -> Args -> KW -> gen (tree L))
    (args : Args) (kw : KW) (j : nat) (t tr : tree L) : Prop :=
  skeleton tr = skeleton t
  /\ forall p a, leaf_at p t = Some a ->
                 exists x, nth_error (yielded (fun_ a args kw)) j = Some (Leaf x)
                           /\ leaf_at p tr = Some x.

(** ** The kind of a node *)

Inductive kind : Type := Mapping | Sequence | FixedTuple | Terminal.

Definition kind_of {L} (t : tree L) : kind :=
  match t with
  | Dict _ => Mapping
  | PyList _ => Sequence
  | PyTuple _ => FixedTuple
  | Leaf _ => Terminal
  end.

(** ** load_dat_file *)

(** The loaders also meet a division by zero, which the functions above
    never raise. *)
Inductive load_error : Type :=
| Builtin (e : exn)
| ZeroDivisionError.

Inductive loaded (A : Type) : Type :=
| Loaded (a : A)
| Failed (e : load_error).
Arguments Loaded {A} a.
Arguments Failed {A} e.

Definition lbind {A B} (m : loaded A) (f : A -> loaded B) : loaded B :=
  match m with
  | Loaded a => f a
  | Failed e => Failed e
  end.

Notation "x <-- m ;; k" := (lbind m (fun x => k))
  (at level 61, m at next level, right associativity).

Definition of_result {A} (r : result A) : loaded A :=
  match r with
  | Ok a => Loaded a
  | Raise e => Failed (Builtin e)
  end.

(** The argument [fnames]: a string, an iterable of strings, or something
    else. *)
Inductive fnames_arg : Type :=
| FileName (s : string)
| FileNames (l : list string)
| NotFileNames.

(** [np.reshape(flat, (-1, w))]: consecutive groups of [w] elements. *)
Definition reshape_groups {A} (w : nat) (l : list A) : result (list (list A)) :=
  if Nat.eqb w 0 then Raise (ValueError "cannot reshape array")
  else if Nat.eqb (length l mod w) 0
       then Ok (map (fun k => list_slice l (k * w) (k * w + w)) (seq 0 (length l / w)))
       else Raise (ValueError "cannot reshape array").

(** The axes of [transpose] on a three-dimensional array: a permutation of
    0, 1, 2, negative axes counted from the end. *)
Definition axes3 (order : list Z) : result (nat * nat * nat) :=
  let norm (a : Z) : option nat :=
    let a' := if (a <? 0)%Z then (a + 3)%Z else a in
    if ((0 <=? a') && (a' <? 3))%Z then Some (Z.to_nat a') else None in
  match order with
  | [a; b; c] =>
      match norm a, norm b, norm c with
      | Some a', Some b', Some c' =>
          if negb (Nat.eqb a' b') && negb (Nat.eqb a' c') && negb (Nat.eqb b' c')
          then Ok (a', b', c')
          else Raise (ValueError "repeated axis in transpose")
      | _, _, _ => Raise (ValueError "axis is out of bounds")
      end
  | _ => Raise (ValueError "axes don't match array")
  end.

Section Transpose.
Context {num : Type}.

Definition get3 (old : list (list (list num))) (x0 x1 x2 : nat) : list num :=
  match nth_error old x0 with
  | Some m => match nth_error m x1 with
              | Some r => match nth_error r x2 with
                          | Some v => [v]
                          | None => []
                          end
              | None => []
              end
  | None => []
  end.

(** [old.transpose((a, b, c))] for [old] of shape [(d0, d1, d2)]: the new
    array has shape [(d_a, d_b, d_c)] and [new[i][j][k]] is the element of
    [old] whose index has [i] at axis [a], [j] at axis [b], [k] at axis [c]. *)
Definition transpose3 (dims : nat * nat * nat) (axes : nat * nat * nat)
    (old : list (list (list num))) : list (list (list num)) :=
  let '(d0, d1, d2) := dims in
  let '(a, b, c) := axes in
  let dim (q : nat) := match q with 0 => d0 | 1 => d1 | _ => d2 end in
  let at_ (q i j k : nat) := if Nat.eqb q a then i else if Nat.eqb q b then j else k in
  map (fun i =>
         map (fun j =>
                flat_map (fun k => get3 old (at_ 0 i j k) (at_ 1 i j k) (at_ 2 i j k))
                         (seq 0 (dim c)))
             (seq 0 (dim b)))
      (seq 0 (dim a)).

End Transpose.

Section LoadDat.
Context {num : Type}.

(** [np.loadtxt(fname, dtype=dtype)]: the numbers of the file, row after
    row. *)
Variable loadtxt : string -> result (list num).

(** The first loop: the rows of four numbers of every file. *)
Fixpoint load_files (fnames : list string) : result (list (list (list num))) :=
  match fnames with
  | [] => Ok []
  | fname :: rest =>
      data <- loadtxt fname ;;
      data <- reshape_groups 4 data ;;
      datas <- load_files rest ;;
      Ok (data :: datas)
  end.

(** [split = [size // n_data for size in sizes]] after the check of
    [n_total % n]. *)
Definition default_split (sizes : list nat) (n : nat) : loaded (list Z) :=
  let n_total := fold_right Nat.add 0 sizes in
  if Nat.eqb n 0 then Failed ZeroDivisionError
  else if negb (Nat.eqb (n_total mod n) 0)
       then Failed (Builtin (ValueError
                               ("number of data find " ++ str (KInt (Z.of_nat n_total))
                                ++ "/" ++ str (KInt (Z.of_nat n)))))
       else let n_data := n_total / n in
            match sizes with
            | [] => Loaded []
            | _ :: _ =>
                if Nat.eqb n_data 0 then Failed ZeroDivisionError
                else Loaded (map (fun size => Z.of_nat (size / n_data)) sizes)
            end.

(** [data.reshape((-1, size, 4)).transpose(order)], as the list of the
    sub-arrays along its first axis. *)
Definition regroup (size : Z) (order : list Z) (data : list (list num))
    : result (list (list (list num))) :=
  if (size <=? 0)%Z then Raise (ValueError "cannot reshape array")
  else data_1 <- reshape_groups (Z.to_nat size) data ;;
       axes <- axes3 order ;;
       Ok (transpose3 (length data_1, Z.to_nat size, 4) axes data_1).

(** [for i in data_2: part = particles[idx]; ret[part] = i; idx += 1] *)
Fixpoint assign (particles : list key) (data_2 : list (list (list num)))
    (ret : list (key * list (list num))) (idx : nat)
    : result (list (key * list (list num)) * nat) :=
  match data_2 with
  | [] => Ok (ret, idx)
  | i :: rest =>
      part <- list_getitem particles (Z.of_nat idx) ;;
      assign particles rest (dict_set part i ret) (S idx)
  end.

(** The second loop, over [zip(split, datas)]. *)
Fixpoint distribute (particles : list key) (order : list Z)
    (split : list Z) (datas : list (list (list num)))
    (ret : list (key * list (list num))) (idx : nat)
    : result (list (key * list (list num))) :=
  match split, datas with
  | size :: split', data :: datas' =>
      data_2 <- regroup size order data ;;
      st <- assign particles data_2 ret idx ;;
      distribute particles order split' datas' (fst st) (snd st)
  | _, _ => Ok ret
  end.

(** [load_dat_file(fnames, particles, dtype=None, split=None, order=None)] *)
Definition load_dat_file (fnames : fnames_arg) (particles : list key)
    (split : option (list Z)) (order : option (list Z))
    : loaded (list (key * list (list num))) :=
  let n := length particles in
  fnames <-- match fnames with
             | FileName s => Loaded [s]
             | FileNames l => Loaded l
             | NotFileNames => Failed (Builtin TypeError)
             end ;;
  datas <-- of_result (load_files fnames) ;;
  let sizes := map (@length (list num)) datas in
  split <-- match split with
            | Some split => Loaded split
            | None => default_split sizes n
            end ;;
  let order := match order with Some o => o | None => [1; 0; 2]%Z end in
  of_result (distribute particles order split datas [] 0).

End LoadDat.

(** The layout [load_dat_file] expects of a file: [tab] lists the events,
    each event the rows of its [m] particles, each row four numbers; the
    file holds these rows one after the other. *)
Definition well_laid {num : Type} (n_events m : nat) (tab : list (list (list num))) : Prop :=
  length tab = n_events
  /\ Forall (fun ev => length ev = m /\ Forall (fun row => length row = 4) ev) tab.

(** The rows of particle [p] in every event, for each of the [m] particles. *)
Definition columns {num : Type} (m : nat) (tab : list (list (list num)))
    : list (list (list num)) :=
  map (fun p => map (fun ev => nth p ev []) tab) (seq 0 m).

(** A data file as [load_dat_file] reads it: its name, the number of
    particles it holds per event, and its events. *)
Record dat_file (num : Type) : Type := DatFile {
  file_name : string;
  per_event : nat;
  events : list (list (list num))
}.
Arguments DatFile {num} file_name per_event events.
Arguments file_name {num} d.
Arguments per_event {num} d.
Arguments events {num} d.

(** A file laid out for [n_events] events with at least one particle. *)
Definition laid {num} (n_events : nat) (f : dat_file num) : Prop :=
  1 <= per_event f /\ well_laid n_events (per_event f) (events f).

(** ** root_io: loading ROOT files *)

(** [j.split(";")[0]]: the part of a key before its cycle number. *)
Fixpoint before_semicolon (s : string) : string :=
  match s with
  | EmptyString => EmptyString
  | String c s' =>
      if Ascii.eqb c ";" then EmptyString else String c (before_semicolon s')
  end.

Section RootIO.
Context {L : Type} {AL : ArrayLib L}.

(** The iteration orders of a [set] of keys (in [data_merge]) and of a
    [set] of names (in [load_root_data]). *)
Variable set_iter : list key -> list key.
Variable set_iter_str : list string -> list string.

(** The interface of [uproot] that the module uses: opening a file, the
    keys of a file (decoded), the object under a name, the branch names of
    a tree (decoded), and the array of a branch, [Some arr] when it is an
    [np.ndarray] and [None] for any other object. *)
Context {root_directory ttree : Type}.
Variable uproot_open : string -> result root_directory.
Variable allkeys : root_directory -> result (list string).
Variable get : root_directory -> string -> result ttree.
Variable tree_keys : ttree -> result (list string).
Variable branch_array : ttree -> string -> result (option L).

(** The loop of [load_Ttree]:
    [arr = tree.get(i).array(); if isinstance(arr, np.ndarray): ret[i] = arr] *)
Fixpoint load_branches (t : ttree) (ks : list string) (ret : list (key * tree L))
    : result (list (key * tree L)) :=
  match ks with
  | [] => Ok ret
  | i :: ks' =>
      arr <- branch_array t i ;;
      load_branches t ks' match arr with
                          | Some a => dict_set (KStr i) (Leaf a) ret
                          | None => ret
                          end
  end.

Definition load_Ttree (t : ttree) : result (tree L) :=
  ks <- tree_keys t ;;
  ret <- load_branches t ks [] ;;
  Ok (Dict ret).

(** The names gathered in [common_keys]: those of every file. *)
Definition gathered_names (keys_ : list (list string)) : list string :=
  nodup string_dec (map before_semicolon (concat keys_)).

(** The last loop of [load_root_data]:
    [ret[i] = data_merge( *[load_Ttree(j.get(i)) for j in root_file])] *)
Fixpoint merge_names (root_file : list root_directory) (names : list string)
    (ret : list (key * tree L)) : result (list (key * tree L)) :=
  match names with
  | [] => Ok ret
  | i :: rest =>
      data <- sequence (map (fun j => t <- get j i ;; load_Ttree t) root_file) ;;
      m <- data_merge set_iter data 0 ;;
      merge_names root_file rest (dict_set (KStr i) m ret)
  end.

(** [load_root_data(fnames)] *)
Definition load_root_data (fnames : fnames_arg) : result (tree L) :=
  fnames <- match fnames with
            | FileName s => Ok [s]
            | FileNames l => Ok l
            | NotFileNames => Raise TypeError
            end ;;
  root_file <- sequence (map uproot_open fnames) ;;
  keys_ <- sequence (map allkeys root_file) ;;
  let common_keys := gathered_names keys_ in
  ret <- merge_names root_file (set_iter_str common_keys) [] ;;
  Ok (Dict ret).

End RootIO.

(** [b] is a branch of the tree [t] whose array is an [np.ndarray]. *)
Definition array_branch {L ttree : Type} (tree_keys : ttree -> result (list string))
    (branch_array : ttree -> string -> result (option L)) (t : ttree) (b : key) : Prop :=
  exists ks i a,
    tree_keys t = Ok ks /\ In i ks /\ b = KStr i /\ branch_array t i = Ok (Some a).

(** ROOT files given by their content: the objects of a file under their
    keys [name;cycle], each a tree listing its branches with their array,
    [None] for an array that is not an [np.ndarray]. *)
Section RootFiles.
Context {L : Type}.

Definition tree_content : Type := list (string * option L).
Definition file_content : Type := list (string * tree_content).

Variable disk : list (string * file_content).

Definition disk_open (fname : string) : result file_content :=
  match find (fun nf => String.eqb (fst nf) fname) disk with
  | Some nf => Ok (snd nf)
  | None => Raise (ValueError "no such file")
  end.

Definition disk_allkeys (f : file_content) : result (list string) :=
  Ok (map fst f).

Definition disk_get (f : file_content) (name : string) : result tree_content :=
  match find (fun kt => String.eqb (before_semicolon (fst kt)) name) f with
  | Some kt => Ok (snd kt)
  | None => Raise (KeyError (KStr name))
  end.

Definition disk_tree_keys (t : tree_content) : result (list string) :=
  Ok (map fst t).

Definition disk_branch_array (t : tree_content) (i : string) : result (option L) :=
  match find (fun ba => String.eqb (fst ba) i) t with
  | Some ba => Ok (snd ba)
  | None => Raise (KeyError (KStr i))
  end.

End RootFiles.

(** ** root_io: the name of the file written by [save_dict_to_root] *)

(** [c in chars] for a character and the characters of a string. *)
Definition in_chars (c : ascii) (chars : string) : bool :=
  existsb (Ascii.eqb c) (list_ascii_of_string chars).

(** [s.rstrip(chars)]: [s] without its trailing characters that occur in
    [chars]. *)
Fixpoint rstrip (chars : string) (s : string) : string :=
  match s with
  | EmptyString => EmptyString
  | String c s' =>
      match rstrip chars s' with
      | EmptyString => if in_chars c chars then EmptyString else String c EmptyString
      | r => String c r
      end
  end.

(** [file_name.rstrip(".root") + ".root"], the file that
    [save_dict_to_root] creates. *)
Definition root_file_name (file_name : string) : string :=
  rstrip ".root" file_name ++ ".root".

(** The last character of [s] occurs in [chars]. *)
Fixpoint ends_in (chars : string) (s : string) : bool :=
  match s with
  | EmptyString => false
  | String c s' =>
      match s' with
      | EmptyString => in_chars c chars
      | String _ _ => ends_in chars s'
      end
  end.

(** * Theorems *)

(** ** Generic facts *)

Lemma key_eqb_eq (a b : key) : key_eqb a b = true <-> a = b.
Proof.
  destruct a, b; simpl; try (split; [discriminate | intros H; inversion H]).
  - rewrite String.eqb_eq. split; congruence.
  - rewrite Z.eqb_eq. split; congruence.
  - rewrite andb_true_iff, Nat.eqb_eq, String.eqb_eq. split.
    + intros [-> ->]. reflexivity.
    + intros H. inversion H. auto.
Qed.

Lemma key_eqb_refl (a : key) : key_eqb a a = true.
Proof. apply key_eqb_eq. reflexivity. Qed.

Lemma key_eqb_neq (a b : key) : key_eqb a b = false <-> a <> b.
Proof.
  rewrite <- key_eqb_eq. destruct (key_eqb a b); split; congruence.
Qed.

Lemma mbind_ok {S A B} (m : M S A) (f : A -> M S B) (s s' : S) (a : A) :
  m s = (Ok a, s') -> mbind m f s = f a s'.
Proof. unfold mbind. intros ->. reflexivity. Qed.

(** ** data_map *)

Section DataMapFacts.
Context {L L' Args KW : Type}.
Variable no_kwargs : KW.
Variable f : L -> Args -> KW -> L'.

Let call (args : Args) (kw : KW) (a : L) : L * Args * KW := (a, args, kw).

Lemma mapM_logged_list (args : Args) (kw : KW) (l : list (tree L)) :
  Forall (fun t => forall log,
            data_map no_kwargs t (logged f) args (Some kw) log =
            (Ok (tree_map (fun a => f a args kw) t),
             log ++ map (call args kw) (leaves t))) l ->
  forall log,
    mapM (fun data_i => data_map no_kwargs data_i (logged f) args (Some kw)) l log =
    (Ok (map (tree_map (fun a => f a args kw)) l),
     log ++ map (call args kw) (flat_map leaves l)).
Proof.
  induction 1 as [|t l Ht _ IH]; intros log; simpl.
  - unfold mret. rewrite app_nil_r. reflexivity.
  - erewrite mbind_ok by apply Ht. erewrite mbind_ok by apply IH.
    unfold mret. rewrite map_app, app_assoc. reflexivity.
Qed.

Lemma mapM_logged_dict (args : Args) (kw : KW) (d : list (key * tree L)) :
  Forall (fun kv => forall log,
            data_map no_kwargs (snd kv) (logged f) args (Some kw) log =
            (Ok (tree_map (fun a => f a args kw) (snd kv)),
             log ++ map (call args kw) (leaves (snd kv)))) d ->
  forall log,
    mapM (fun kv => v <~ data_map no_kwargs (snd kv) (logged f) args (Some kw) ;;
                    mret (fst kv, v)) d log =
    (Ok (map (fun kv => (fst kv, tree_map (fun a => f a args kw) (snd kv))) d),
     log ++ map (call args kw) (flat_map (fun kv => leaves (snd kv)) d)).
Proof.
  induction 1 as [|kv d Ht _ IH]; intros log; simpl.
  - unfold mret. rewrite app_nil_r. reflexivity.
  - erewrite mbind_ok; [|erewrite mbind_ok by apply Ht; reflexivity].
    erewrite mbind_ok by apply IH.
    unfold mret. rewrite map_app, app_assoc. reflexivity.
Qed.

Lemma data_map_logged (t : tree L) :
  forall args kwargs log,
    data_map no_kwargs t (logged f) args kwargs log =
    (Ok (tree_map (fun a => f a args (or_default no_kwargs kwargs)) t),
     log ++ map (call args (or_default no_kwargs kwargs)) (leaves t)).
Proof.
  induction t as [a|d IH|l IH|l IH] using tree_ind'; intros args kwargs log; simpl.
  - reflexivity.
  - erewrite mbind_ok; [reflexivity|]. apply mapM_logged_dict.
    eapply Forall_impl; [|exact IH]. intros kv H log'. apply (H args (Some _)).
  - erewrite mbind_ok; [reflexivity|]. apply mapM_logged_list.
    eapply Forall_impl; [|exact IH]. intros kv H log'. apply (H args (Some _)).
  - erewrite mbind_ok; [reflexivity|]. apply mapM_logged_list.
    eapply Forall_impl; [|exact IH]. intros kv H log'. apply (H args (Some _)).
Qed.

Lemma skeleton_tree_map (g : L -> L') (t : tree L) :
  skeleton (tree_map g t) = skeleton t.
Proof.
  induction t as [a|d IH|l IH|l IH] using tree_ind'; simpl.
  - reflexivity.
  - f_equal. rewrite map_map. apply map_ext_Forall.
    eapply Forall_impl; [|exact IH]. simpl. intros kv ->. reflexivity.
  - f_equal. rewrite map_map. apply map_ext_Forall. exact IH.
  - f_equal. rewrite map_map. apply map_ext_Forall. exact IH.
Qed.

Lemma dict_get_map {A B} (h : A -> B) (k : key) (d : list (key * A)) :
  dict_get k (map (fun kv => (fst kv, h (snd kv))) d) = option_map h (dict_get k d).
Proof.
  induction d as [|[k' v] d IH]; simpl; [reflexivity|].
  destruct (key_eqb k k'); [reflexivity | exact IH].
Qed.

Lemma subtree_tree_map (g : L -> L') (p : list step) :
  forall t, subtree p (tree_map g t) = option_map (tree_map g) (subtree p t).
Proof.
  induction p as [|[k|i] p IH]; intros t; simpl.
  - reflexivity.
  - destruct t; simpl; try reflexivity.
    rewrite (dict_get_map (tree_map g)).
    destruct (dict_get k items); simpl; [apply IH | reflexivity].
  - destruct t; simpl; try reflexivity.
    + rewrite nth_error_map. destruct (nth_error items i); simpl; [apply IH | reflexivity].
    + rewrite nth_error_map. destruct (nth_error items i); simpl; [apply IH | reflexivity].
Qed.

Lemma leaf_at_tree_map (g : L -> L') (p : list step) (t : tree L) :
  leaf_at p (tree_map g t) = option_map g (leaf_at p t).
Proof.
  unfold leaf_at. rewrite subtree_tree_map.
  destruct (subtree p t) as [[a|d|l|l]|]; reflexivity.
Qed.

End DataMapFacts.

(** C5.  [data_map(t, fn, args, kwargs)] calls [fn] once for every leaf of
    [t] (the calls, in order, are exactly the leaves of [t] with [args] and
    [kwargs]) and returns a tree with the container structure of [t] (same
    kinds, keys in the same order, same lengths) in which the leaf at every
    path is [fn] of the leaf of [t] at that path. *)
Theorem data_map_isomorphic {L L' Args KW : Type} (no_kwargs : KW)
    (fn : L -> Args -> KW -> L') (t : tree L) (args : Args) (kwargs : option KW) :
  exists r : tree L',
    data_map no_kwargs t (logged fn) args kwargs [] =
      (Ok r, map (fun a => (a, args, or_default no_kwargs kwargs)) (leaves t))
    /\ skeleton r = skeleton t
    /\ forall p, leaf_at p r =
                 option_map (fun a => fn a args (or_default no_kwargs kwargs)) (leaf_at p t).
Proof.
  exists (tree_map (fun a => fn a args (or_default no_kwargs kwargs)) t).
  split; [|split].
  - rewrite data_map_logged. reflexivity.
  - apply skeleton_tree_map.
  - intros p. apply leaf_at_tree_map.
Qed.

(** ** data_index *)

Section DataIndexFacts.
Context {L : Type} {AL : ArrayLib L}.

Lemma dict_get_not_key {V} (k : key) (d : list (key * V)) :
  (forall k', In k' (keys d) -> k' <> k) -> dict_get k d = None.
Proof.
  induction d as [|[k' v] d IH]; simpl; intros Hd; [reflexivity|].
  destruct (key_eqb k k') eqn:E.
  - apply key_eqb_eq in E. exfalso. apply (Hd k'); auto.
  - apply IH. intros k'' Hin. apply Hd. auto.
Qed.

(** With a single key of string form [str i], the scan over the items
    stops at the entry the exact lookup of that key returns. *)
Lemma first_str_match_unique (i o : key) (d : list (key * tree L)) (v : tree L) :
  dict_get o d = Some v ->
  str o = str i ->
  (forall k, In k (keys d) -> str k = str i -> k = o) ->
  first_str_match i d = Some v.
Proof.
  induction d as [|[k w] d IH]; simpl; intros Hget Hstr Huniq; [discriminate|].
  destruct (String.eqb (str k) (str i)) eqn:E.
  - apply String.eqb_eq in E.
    assert (k = o) by (apply Huniq; auto). subst k.
    rewrite key_eqb_refl in Hget. exact Hget.
  - destruct (key_eqb o k) eqn:Eo.
    + apply key_eqb_eq in Eo. subst k.
      rewrite Hstr, String.eqb_refl in E. discriminate.
    + apply IH; auto.
Qed.

Lemma first_str_match_none (i : key) (d : list (key * tree L)) :
  (forall k, In k (keys d) -> str k <> str i) -> first_str_match i d = None.
Proof.
  induction d as [|[k w] d IH]; simpl; intros Hd; [reflexivity|].
  destruct (String.eqb (str k) (str i)) eqn:E.
  - apply String.eqb_eq in E. exfalso. apply (Hd k); auto.
  - apply IH. intros k' Hin. apply Hd. auto.
Qed.

Lemma first_str_match_first (i k : key) (v : tree L) (d1 d2 : list (key * tree L)) :
  (forall k', In k' (keys d1) -> str k' <> str i) ->
  str k = str i ->
  first_str_match i (d1 ++ (k, v) :: d2) = Some v.
Proof.
  induction d1 as [|[k' w] d1 IH]; simpl; intros Hd Hk.
  - rewrite Hk, String.eqb_refl. reflexivity.
  - destruct (String.eqb (str k') (str i)) eqn:E.
    + apply String.eqb_eq in E. exfalso. apply (Hd k'); auto.
    + apply IH; auto.
Qed.

End DataIndexFacts.

(** C8.  On a mapping node and a key that is not an integer, [data_index]
    returns the value of the exact key when there is one; otherwise the
    value of the first item whose key has the same string form; otherwise
    it raises the "is not found" error.  Hence, when no key of the mapping
    is a string and [o] is the key of string form [X], looking up the
    string [X] gives the same value as looking up [o]. *)
Theorem data_index_fuzzy_fallback {L : Type} {AL : ArrayLib L}
    (d : list (key * tree L)) (i : key) :
  is_int i = false ->
  (forall v, dict_get i d = Some v -> data_index (Dict d) (One i) = Ok v)
  /\ (forall d1 k v d2,
        dict_get i d = None -> d = d1 ++ (k, v) :: d2 -> str k = str i ->
        (forall k', In k' (keys d1) -> str k' <> str i) ->
        data_index (Dict d) (One i) = Ok v)
  /\ ((forall k, In k (keys d) -> str k <> str i) ->
      dict_get i d = None ->
      data_index (Dict d) (One i) = Raise (ValueError (str i ++ " is not found")))
  /\ (forall o v,
        is_str i = true ->
        (forall k, In k (keys d) -> is_str k = false) ->
        dict_get o d = Some v -> str o = str i ->
        (forall k, In k (keys d) -> str k = str i -> k = o) ->
        data_index (Dict d) (One i) = Ok v /\ data_index (Dict d) (One o) = Ok v).
Proof.
  intros Hint. split; [|split; [|split]].
  - intros v Hv. destruct i; try discriminate; simpl; rewrite Hv; reflexivity.
  - intros d1 k v d2 Hnone -> Hk Hd1.
    destruct i; try discriminate; simpl; rewrite Hnone;
      rewrite (first_str_match_first _ k v d1 d2 Hd1 Hk); reflexivity.
  - intros Hd Hnone.
    destruct i; try discriminate; simpl; rewrite Hnone;
      rewrite (first_str_match_none _ d Hd); reflexivity.
  - intros o v Hstr Hkeys Hget Ho Huniq. split.
    + destruct i as [s| |]; try discriminate. simpl.
      rewrite (dict_get_not_key (KStr s) d).
      * rewrite (first_str_match_unique (KStr s) o d v); auto.
      * intros k' Hin ->. specialize (Hkeys _ Hin). discriminate.
    + destruct o as [s|n|id r]; simpl; rewrite Hget; reflexivity.
Qed.

(** C10.  An integer key is used as a plain subscript of the node, whatever
    the node is: on a mapping it is an exact dictionary lookup, and when the
    integer is not a key the call fails with the raw [KeyError] even if an
    item has a key of the same string form, which a key that is not an
    integer and has that string form would have found. *)
Theorem data_index_int_key_is_subscript {L : Type} {AL : ArrayLib L}
    (d : list (key * tree L)) (n : Z) :
  data_index (Dict d) (One (KInt n)) =
    match dict_get (KInt n) d with
    | Some v => Ok v
    | None => Raise (KeyError (KInt n))
    end
  /\ (forall i v,
        dict_get (KInt n) d = None ->
        first_str_match (KInt n) d = Some v ->
        is_int i = false -> str i = str (KInt n) -> dict_get i d = None ->
        data_index (Dict d) (One (KInt n)) = Raise (KeyError (KInt n))
        /\ data_index (Dict d) (One i) = Ok v)
  /\ (forall l, data_index (PyList l) (One (KInt n)) = list_getitem l n)
  /\ (forall l, data_index (PyTuple l) (One (KInt n)) = list_getitem l n)
  /\ (forall a : L, data_index (Leaf a) (One (KInt n)) = (x <- subscript a n ;; Ok (Leaf x))).
Proof.
  split; [reflexivity|]. split; [|repeat split; reflexivity].
  intros i v Hnone Hfirst Hint Hstr Hi. split.
  - simpl. rewrite Hnone. reflexivity.
  - assert (Hm : first_str_match i d = Some v).
    { clear - Hfirst Hstr. revert Hfirst.
      induction d as [|[k w] d IH]; cbn [first_str_match]; [discriminate|].
      rewrite Hstr. destruct (String.eqb (str k) (str (KInt n))); auto. }
    destruct i; try discriminate; simpl; rewrite Hi, Hm; reflexivity.
Qed.

Lemma data_index_fuzzy_fallback_witness :
  let d := [(KObj 1 "X", Leaf (vector [1; 2]%Z)); (KObj 2 "Y", Leaf (vector [3; 4]%Z))] in
  data_index (Dict d) (One (KStr "X")) = Ok (Leaf (vector [1; 2]%Z))
  /\ data_index (Dict d) (One (KObj 1 "X")) = Ok (Leaf (vector [1; 2]%Z)).
Proof.
  intros d.
  apply (proj2 (proj2 (proj2
           (data_index_fuzzy_fallback d (KStr "X") eq_refl))) (KObj 1 "X")).
  - reflexivity.
  - intros k [<-|[<-|[]]]; reflexivity.
  - reflexivity.
  - reflexivity.
  - intros k [<-|[<-|[]]]; simpl; intros E; [reflexivity | discriminate].
Defined.

Lemma data_index_int_key_is_subscript_witness :
  let d := [(KStr "5", Leaf (vector [1; 2]%Z))] in
  data_index (Dict d) (One (KInt 5)) = Raise (KeyError (KInt 5))
  /\ data_index (Dict d) (One (KObj 0 "5")) = Ok (Leaf (vector [1; 2]%Z)).
Proof.
  intros d.
  apply (proj1 (proj2 (data_index_int_key_is_subscript d 5)) (KObj 0 "5"));
    reflexivity.
Defined.

(** ** flatten_dict_data *)

Section FlattenFacts.
Context {L : Type}.

Lemma dict_set_leaf_values (k : key) (v : tree L) (d : list (key * tree L)) :
  is_leaf v = true -> leaf_values d = true -> leaf_values (dict_set k v d) = true.
Proof.
  intros Hv. induction d as [|[k' v'] d IH]; simpl.
  - rewrite Hv. reflexivity.
  - intros Hd. apply andb_true_iff in Hd as [Hv' Hd].
    destruct (key_eqb k k'); simpl.
    + rewrite Hv, Hd. reflexivity.
    + rewrite Hv', IH; auto.
Qed.

Lemma flatten_step_leaf_values (fun_ : key -> key -> key) (ret : list (key * tree L))
    (i : key) (tmp : tree L) :
  leaf_values ret = true ->
  (is_leaf tmp = true \/ single_level tmp = true) ->
  leaf_values (flatten_step fun_ ret i tmp) = true.
Proof.
  intros Hret [Hleaf|Hsingle].
  - destruct tmp; try discriminate. simpl. apply dict_set_leaf_values; auto.
  - destruct tmp as [a|d|l|l]; try discriminate.
    unfold flatten_step. simpl in *. revert ret Hret.
    induction d as [|[j w] d IH]; simpl in *; intros ret Hret; [exact Hret|].
    apply andb_true_iff in Hsingle as [Hw Hd].
    apply IH; [exact Hd|]. apply dict_set_leaf_values; [|exact Hret].
    destruct w; try discriminate; reflexivity.
Qed.

Lemma flatten_loop_leaf_values (fun_ : key -> key -> key) (its : list (key * tree L)) :
  Forall (fun it => is_leaf (snd it) = true \/ single_level (snd it) = true) its ->
  leaf_values (flatten_loop fun_ its) = true.
Proof.
  unfold flatten_loop. generalize (@nil (key * tree L)) (eq_refl : leaf_values (@nil (key * tree L)) = true).
  induction its as [|[i tmp] its IH]; simpl; intros ret Hret Hits; [exact Hret|].
  inversion Hits; subst. apply IH; [|assumption].
  apply flatten_step_leaf_values; assumption.
Qed.

Lemma Forall_enumerate {A} (P : A -> Prop) (l : list A) :
  Forall P l -> Forall (fun it => P (snd it)) (enumerate l).
Proof.
  unfold enumerate. intros Hl. generalize 0.
  induction Hl as [|x l Hx _ IH]; intros m; simpl.
  - constructor.
  - constructor; [exact Hx | apply IH].
Qed.

(** Flattening a container gives a mapping all of whose values are leaves. *)
Lemma flatten_single_level (t : tree L) :
  forall fun_, is_leaf t = false -> single_level (flatten_dict_data t fun_) = true.
Proof.
  assert (Hchild : forall c : tree L,
             (forall fun_, is_leaf c = false ->
                           single_level (flatten_dict_data c fun_) = true) ->
             is_leaf (flatten_dict_data c format_slash) = true
             \/ single_level (flatten_dict_data c format_slash) = true).
  { intros c Hc. destruct (is_leaf c) eqn:E.
    - left. destruct c; try discriminate. reflexivity.
    - right. apply Hc. reflexivity. }
  induction t as [a|d IH|l IH|l IH] using tree_ind'; intros fun_ Hc;
    [discriminate| | |]; simpl.
  - apply flatten_loop_leaf_values. rewrite Forall_map.
    eapply Forall_impl; [|exact IH]. simpl. intros kv Hkv. apply Hchild, Hkv.
  - apply flatten_loop_leaf_values.
    apply (Forall_enumerate (fun t => is_leaf t = true \/ single_level t = true)).
    rewrite Forall_map. eapply Forall_impl; [|exact IH]. intros c Hkv. apply Hchild, Hkv.
  - apply flatten_loop_leaf_values.
    apply (Forall_enumerate (fun t => is_leaf t = true \/ single_level t = true)).
    rewrite Forall_map. eapply Forall_impl; [|exact IH]. intros c Hkv. apply Hchild, Hkv.
Qed.

End FlattenFacts.

(** C7.  Flattening a container gives a single-level mapping, a child that
    is a leaf keeps its key, and [{"A": {"p": 1, "m": 2}}] flattens to
    [{"A/p": 1, "A/m": 2}] with the default formatter.  The formatter given
    by the caller is used for the outermost level only: below it the
    recursive call falls back to the default one, so
    [{"A": {"B": {"c": 1}}}] flattened with ["{}.{}".format] has the key
    ["A.B/c"]. *)
Theorem flatten_dict_data_formatter :
  (forall (L : Type) (t : tree L) fun_,
      is_leaf t = false -> single_level (flatten_dict_data t fun_) = true)
  /\ (forall (L : Type) (k : key) (a : L) fun_,
        flatten_dict_data (Dict [(k, Leaf a)]) fun_ = Dict [(k, Leaf a)])
  /\ flatten_dict_data
       (Dict [(KStr "A", Dict [(KStr "p", Leaf 1%Z); (KStr "m", Leaf 2%Z)])])
       format_slash
     = Dict [(KStr "A/p", Leaf 1%Z); (KStr "A/m", Leaf 2%Z)]
  /\ flatten_dict_data
       (Dict [(KStr "A", Dict [(KStr "B", Dict [(KStr "c", Leaf 1%Z)])])])
       format_dot
     = Dict [(KStr "A.B/c", Leaf 1%Z)].
Proof.
  split; [|split; [|split]].
  - intros L t fun_. apply flatten_single_level.
  - reflexivity.
  - reflexivity.
  - reflexivity.
Qed.

(** ** data_merge *)

Lemma all_some_map_some {A B} (f : A -> B) (g : B -> option A) (l : list A) :
  (forall x, g (f x) = Some x) -> all_some (map g (map f l)) = Some l.
Proof.
  intros Hgf. induction l as [|x l IH]; simpl; [reflexivity|].
  rewrite Hgf, IH. reflexivity.
Qed.

Lemma dict_get_map_key {A B} (g : key -> A -> B) (k : key) (d : list (key * A)) :
  dict_get k (map (fun kv => (fst kv, g (fst kv) (snd kv))) d)
  = option_map (g k) (dict_get k d).
Proof.
  induction d as [|[k' v] d IH]; simpl; [reflexivity|].
  destruct (key_eqb k k') eqn:E; [|exact IH].
  apply key_eqb_eq in E. subst. reflexivity.
Qed.

Lemma sequence_map_ext {A B} (f g : A -> result B) (l : list A) :
  (forall x, f x = g x) -> sequence (map f l) = sequence (map g l).
Proof.
  intros Hfg. induction l as [|x l IH]; simpl; [reflexivity|].
  rewrite Hfg, IH. reflexivity.
Qed.

Lemma sequence_ok_iff {A} (ms : list (result A)) (xs : list A) :
  sequence ms = Ok xs <-> Forall2 (fun m x => m = Ok x) ms xs.
Proof.
  revert xs. induction ms as [|m ms IH]; intros xs; simpl.
  - split.
    + intros E. inversion E. constructor.
    + intros E. inversion E. reflexivity.
  - split.
    + destruct m as [a|e]; simpl; [|discriminate].
      destruct (sequence ms) as [ys|e] eqn:E; simpl; [|discriminate].
      intros E'. inversion E'. subst. constructor; [reflexivity|].
      apply IH. reflexivity.
    + intros E. inversion E as [|m' x ms' xs' Hm Hms]; subst.
      apply IH in Hms. rewrite Hms. reflexivity.
Qed.

Lemma key_in_In (k : key) (ks : list key) : key_in k ks = true <-> In k ks.
Proof.
  unfold key_in. rewrite existsb_exists. split.
  - intros [x [Hin E]]. apply key_eqb_eq in E. subst. exact Hin.
  - intros Hin. exists k. split; [exact Hin | apply key_eqb_refl].
Qed.

Lemma In_keys_dict_get {V} (k : key) (d : list (key * V)) :
  In k (keys d) -> exists v, dict_get k d = Some v.
Proof.
  induction d as [|[k' w] d IH]; simpl; [intros []|].
  intros Hin. destruct (key_eqb k k') eqn:E; [eauto|].
  destruct Hin as [->|Hin]; [|auto].
  rewrite key_eqb_refl in E. discriminate.
Qed.

Lemma intersection_In (k : key) (ks : list key) (others : list (list key)) :
  In k (intersection (ks :: others)) <-> Forall (In k) (ks :: others).
Proof.
  simpl. rewrite filter_In, forallb_forall. split.
  - intros [Hk Ho]. constructor; [exact Hk|].
    apply Forall_forall. intros l Hl. apply key_in_In, Ho, Hl.
  - intros Hall. inversion Hall as [|? ? Hk Ho]; subst. split; [exact Hk|].
    intros l Hl. apply key_in_In. rewrite Forall_forall in Ho. apply Ho, Hl.
Qed.

Section MergeFacts.
Context {L : Type} {AL : ArrayLib L}.
Variable set_iter : list key -> list key.

Lemma column_cons (i : key) (d : list (key * tree L)) (data : list (list (key * tree L))) :
  column i (d :: data)
  = (x <- match dict_get i d with Some v => Ok v | None => Raise (KeyError i) end ;;
     xs <- column i data ;; Ok (x :: xs)).
Proof. reflexivity. Qed.

Lemma column_ok_iff (i : key) (data : list (list (key * tree L))) (cs : list (tree L)) :
  column i data = Ok cs <-> Forall2 (fun d c => dict_get i d = Some c) data cs.
Proof.
  unfold column. rewrite sequence_ok_iff. revert cs.
  induction data as [|d data IH]; intros cs; simpl.
  - split; intros E; inversion E; constructor.
  - split; intros E; inversion E as [|? c ? cs' Hd Hrest]; subst.
    + constructor; [|apply IH, Hrest].
      destruct (dict_get i d); [congruence | discriminate].
    + constructor; [rewrite Hd; reflexivity | apply IH, Hrest].
Qed.

(** The mapping case, as the comprehension of the source:
    [{i: data_merge( *[data_i[i] for data_i in data]) for i in idx}]. *)
Lemma data_merge_dict (d0 : list (key * tree L)) (others : list (list (key * tree L)))
    (axis : Z) :
  data_merge set_iter (Dict d0 :: map Dict others) axis
  = (r <- sequence
            (map (fun i => cs <- column i (d0 :: others) ;;
                           v <- data_merge set_iter cs 0 ;; Ok (i, v))
                 (set_iter (intersection (map keys (d0 :: others))))) ;;
     Ok (Dict r)).
Proof.
  cbn [data_merge merge_first].
  rewrite (all_some_map_some Dict as_dict) by reflexivity.
  cbn [map]. f_equal. apply sequence_map_ext. intros i.
  rewrite (dict_get_map_key
             (fun k v => vs <- column k others ;; merge_first set_iter v vs 0)).
  rewrite column_cons.
  destruct (dict_get i d0) as [v0|]; simpl; [|reflexivity].
  destruct (column i others) as [vs|e]; reflexivity.
Qed.

Lemma zipped_zip_rounds (l0 : list (tree L)) :
  forall others : list (list (tree L)),
    (fix zipped (l0 : list (tree L)) (others : list (list (tree L)))
       : result (list (tree L)) :=
       match l0 with
       | [] => Ok []
       | x :: l0' =>
           match uncons_all others with
           | None => Ok []
           | Some (hs, ts) =>
               v <- merge_first set_iter x hs 0 ;;
               vs <- zipped l0' ts ;;
               Ok (v :: vs)
           end
       end) l0 others
    = sequence (map (fun data_i => data_merge set_iter data_i 0)
                    (zip_rounds (length l0) (l0 :: others))).
Proof.
  induction l0 as [|x l0 IH]; intros others; [reflexivity|].
  cbn [length zip_rounds uncons_all].
  destruct (uncons_all others) as [[hs ts]|]; [|reflexivity].
  cbn [map sequence data_merge]. rewrite IH. reflexivity.
Qed.

(** The sequence case: [[data_merge( *data_i) for data_i in zip( *data)]]. *)
Lemma data_merge_list (l0 : list (tree L)) (others : list (list (tree L))) (axis : Z) :
  data_merge set_iter (PyList l0 :: map PyList others) axis
  = (r <- sequence (map (fun data_i => data_merge set_iter data_i 0)
                        (zip_star (l0 :: others))) ;;
     Ok (PyList r)).
Proof.
  cbn [data_merge merge_first].
  rewrite (all_some_map_some PyList as_list) by reflexivity.
  rewrite zipped_zip_rounds. reflexivity.
Qed.

Lemma data_merge_tuple (l0 : list (tree L)) (others : list (list (tree L))) (axis : Z) :
  data_merge set_iter (PyTuple l0 :: map PyTuple others) axis
  = (r <- sequence (map (fun data_i => data_merge set_iter data_i 0)
                        (zip_star (l0 :: others))) ;;
     Ok (PyTuple r)).
Proof.
  cbn [data_merge merge_first].
  rewrite (all_some_map_some PyTuple as_tuple) by reflexivity.
  rewrite zipped_zip_rounds. reflexivity.
Qed.

(** The leaf case: [tf.concat(data, axis=axis)]. *)
Lemma data_merge_leaf (a : L) (others : list L) (axis : Z) :
  data_merge set_iter (Leaf a :: map Leaf others) axis
  = (m_data <- tf_concat (a :: others) axis ;; Ok (Leaf m_data)).
Proof.
  cbn [data_merge merge_first].
  rewrite (all_some_map_some Leaf as_leaf) by reflexivity. reflexivity.
Qed.

End MergeFacts.

Lemma sequence_ok_all {A B} (f : A -> result B) (l : list A) :
  (forall x, In x l -> exists y, f x = Ok y) -> exists ys, sequence (map f l) = Ok ys.
Proof.
  induction l as [|x l IH]; simpl; intros Hl.
  - eexists. reflexivity.
  - destruct (Hl x) as [y Hy]; [auto|].
    destruct IH as [ys Hys]; [auto|].
    rewrite Hy, Hys. eexists. reflexivity.
Qed.

Lemma Forall2_map_left {A B C} (P : B -> C -> Prop) (f : A -> B)
    (l : list A) (l' : list C) :
  Forall2 P (map f l) l' <-> Forall2 (fun x y => P (f x) y) l l'.
Proof.
  revert l'. induction l as [|x l IH]; intros l'; simpl.
  - split; intros E; inversion E; constructor.
  - split; intros E; inversion E; subst; constructor; auto; apply IH; auto.
Qed.

Lemma bind_ok_inv {A B} (m : result A) (f : A -> result B) (b : B) :
  bind m f = Ok b -> exists a, m = Ok a /\ f a = Ok b.
Proof.
  destruct m as [a|e]; simpl; [eauto | discriminate].
Qed.

Section MergeKeys.
Context {L : Type} {AL : ArrayLib L}.
Variable set_iter : list key -> list key.

Lemma survivors_have_children (k : key) (data : list (list (key * tree L))) :
  Forall (fun d => In k (keys d)) data ->
  exists cs, Forall2 (fun d c => dict_get k d = Some c) data cs.
Proof.
  induction 1 as [|d data Hd _ [cs IH]].
  - exists []. constructor.
  - destruct (In_keys_dict_get k d Hd) as [c Hc].
    exists (c :: cs). constructor; assumption.
Qed.

Lemma comprehension_keys (F : key -> result (tree L)) (idx : list key)
    (rd : list (key * tree L)) :
  Forall2 (fun i kv => (v <- F i ;; Ok (i, v)) = Ok kv) idx rd ->
  keys rd = idx
  /\ forall k v, dict_get k rd = Some v -> F k = Ok v.
Proof.
  induction 1 as [|i [k' v'] idx rd Hi _ [IHk IHv]]; simpl.
  - split; [reflexivity | discriminate].
  - apply bind_ok_inv in Hi as [v0 [HF E]]. inversion E; subst.
    split; [f_equal; exact IHk|].
    intros k v. destruct (key_eqb k k') eqn:Ek.
    + apply key_eqb_eq in Ek. subst. intros E'. inversion E'. subst. exact HF.
    + apply IHv.
Qed.

End MergeKeys.

(** C2.  Merging mappings: the keys of the result are exactly the keys
    present in every input, and the value at each of them is the merge
    (with the default axis) of the inputs' values at that key; the merge
    succeeds as soon as the merge at every surviving key does. *)
Theorem data_merge_key_intersection {L : Type} {AL : ArrayLib L}
    (set_iter : list key -> list key)
    (d0 : list (key * tree L)) (others : list (list (key * tree L))) (axis : Z) :
  (forall ks, Permutation (set_iter ks) ks) ->
  let data := Dict d0 :: map Dict others in
  let surviving k := Forall (fun d => In k (keys d)) (d0 :: others) in
  let children k cs := Forall2 (fun d c => dict_get k d = Some c) (d0 :: others) cs in
  (forall r, data_merge set_iter data axis = Ok r ->
     exists rd, r = Dict rd
       /\ (forall k, In k (keys rd) <-> surviving k)
       /\ (forall k v, dict_get k rd = Some v ->
             exists cs, children k cs /\ data_merge set_iter cs 0 = Ok v))
  /\ ((forall k cs, surviving k -> children k cs ->
         exists v, data_merge set_iter cs 0 = Ok v) ->
      exists r, data_merge set_iter data axis = Ok r).
Proof.
  intros Hperm data surviving children. subst data.
  assert (Hsurv : forall k,
             In k (set_iter (intersection (map keys (d0 :: others)))) <-> surviving k).
  { intros k. unfold surviving. split.
    - intros Hin. apply (Permutation_in _ (Hperm _)) in Hin.
      cbn [map] in Hin. apply intersection_In in Hin.
      change (Forall (In k) (map keys (d0 :: others))) in Hin.
      rewrite Forall_map in Hin. exact Hin.
    - intros Hs. apply (Permutation_in _ (Permutation_sym (Hperm _))).
      cbn [map]. apply intersection_In.
      change (Forall (In k) (map keys (d0 :: others))).
      rewrite Forall_map. exact Hs. }
  split.
  - intros r. rewrite data_merge_dict. intros Hr.
    apply bind_ok_inv in Hr as [rd [Hseq E]]. inversion E; subst r. clear E.
    exists rd. split; [reflexivity|].
    apply sequence_ok_iff in Hseq. apply Forall2_map_left in Hseq.
    destruct (comprehension_keys
                (fun i => cs <- column i (d0 :: others) ;; data_merge set_iter cs 0)
                (set_iter (intersection (map keys (d0 :: others)))) rd)
      as [Hkeys Hvals].
    { eapply Forall2_impl; [|exact Hseq]. intros i kv Hi. cbv beta in Hi.
      destruct (column i (d0 :: others)); exact Hi. }
    split.
    + intros k. rewrite Hkeys. apply Hsurv.
    + intros k v Hv. apply Hvals in Hv. apply bind_ok_inv in Hv as [cs [Hcs Hm]].
      exists cs. split; [|exact Hm]. apply column_ok_iff, Hcs.
  - intros Hall. rewrite data_merge_dict.
    destruct (sequence_ok_all
                (fun i => cs <- column i (d0 :: others) ;;
                          v <- data_merge set_iter cs 0 ;; Ok (i, v))
                (set_iter (intersection (map keys (d0 :: others))))) as [rd Hrd].
    + intros k Hk. apply Hsurv in Hk.
      destruct (survivors_have_children k _ Hk) as [cs Hcs].
      destruct (Hall k cs Hk Hcs) as [v Hv].
      apply column_ok_iff in Hcs. rewrite Hcs. simpl. rewrite Hv. simpl. eauto.
    + rewrite Hrd. simpl. eauto.
Qed.

Lemma data_merge_key_intersection_witness :
  let x := vector [1; 2]%Z in
  let y := vector [3; 4]%Z in
  let y2 := vector [5; 6]%Z in
  let z := vector [7; 8]%Z in
  let d0 := [(KStr "a", Leaf x); (KStr "b", Leaf y)] in
  let d1 := [(KStr "b", Leaf y2); (KStr "c", Leaf z)] in
  data_merge (fun ks => ks) [Dict d0; Dict d1] 0
    = Ok (Dict [(KStr "b", Leaf (vector [3; 4; 5; 6]%Z))])
  /\ tf_concat [y; y2] 0 = Ok (vector [3; 4; 5; 6]%Z)
  /\ exists rd,
       Dict [(KStr "b", Leaf (vector [3; 4; 5; 6]%Z))] = Dict rd
       /\ (forall k, In k (keys rd) <-> Forall (fun d => In k (keys d)) [d0; d1])
       /\ (forall k v, dict_get k rd = Some v ->
             exists cs, Forall2 (fun d c => dict_get k d = Some c) [d0; d1] cs
                        /\ data_merge (fun ks => ks) cs 0 = Ok v).
Proof.
  intros x y y2 z d0 d1.
  split; [reflexivity|]. split; [reflexivity|].
  apply (proj1 (data_merge_key_intersection (fun ks => ks) d0 [d1] 0%Z
                  (fun ks => Permutation_refl ks))).
  reflexivity.
Defined.

(** ** Sequences of different lengths *)

Lemma fold_min_0 (l : list nat) : fold_right Nat.min 0 l = 0.
Proof. induction l as [|n l IH]; simpl; [reflexivity | rewrite IH; lia]. Qed.

Lemma uncons_all_none {A} (ls : list (list A)) :
  uncons_all ls = None -> In [] ls.
Proof.
  induction ls as [|l ls IH]; simpl; [discriminate|].
  destruct l as [|x l']; [auto|].
  destruct (uncons_all ls) as [[hs ts]|]; [discriminate | auto].
Qed.

Lemma fold_min_uncons {A} (n : nat) (ls : list (list A)) (hs : list A) (ts : list (list A)) :
  uncons_all ls = Some (hs, ts) ->
  fold_right Nat.min (S n) (map (@length A) ls)
  = S (fold_right Nat.min n (map (@length A) ts)).
Proof.
  revert hs ts. induction ls as [|l ls IH]; simpl; intros hs ts E.
  - inversion E. reflexivity.
  - destruct l as [|x l']; [discriminate|].
    destruct (uncons_all ls) as [[hs' ts']|]; [|discriminate].
    inversion E; subst. simpl. rewrite (IH hs' ts' eq_refl). reflexivity.
Qed.

Lemma fold_min_in_nil {A} (n : nat) (ls : list (list A)) :
  In [] ls -> fold_right Nat.min n (map (@length A) ls) = 0.
Proof.
  induction ls as [|l ls IH]; simpl; [intros []|].
  intros [->|Hin]; [reflexivity|]. rewrite IH by assumption. lia.
Qed.

Lemma zip_rounds_length {A} (n : nat) :
  forall ls : list (list A),
    length (zip_rounds n ls) = fold_right Nat.min n (map (@length A) ls).
Proof.
  induction n as [|n IH]; intros ls; simpl.
  - symmetry. apply fold_min_0.
  - destruct (uncons_all ls) as [[hs ts]|] eqn:E.
    + simpl. rewrite IH. symmetry. apply (fold_min_uncons n ls hs ts E).
    + symmetry. apply fold_min_in_nil, uncons_all_none, E.
Qed.

(** [zip( *ls )] has the length of the shortest list. *)
Lemma zip_star_length {A} (l0 : list A) (others : list (list A)) :
  length (zip_star (l0 :: others))
  = fold_right Nat.min (length l0) (map (@length A) others).
Proof.
  unfold zip_star. rewrite zip_rounds_length. simpl.
  assert (H : forall n l, fold_right Nat.min n l <= n).
  { intros n l. induction l; simpl; lia. }
  specialize (H (length l0) (map (@length A) others)). lia.
Qed.

Lemma uncons_all_heads {A} (ls : list (list A)) :
  forall hs ts, uncons_all ls = Some (hs, ts) ->
                Forall2 (fun l c => nth_error l 0 = Some c) ls hs.
Proof.
  induction ls as [|l ls IH]; simpl; intros hs ts E.
  - inversion E. constructor.
  - destruct l as [|x l']; [discriminate|].
    destruct (uncons_all ls) as [[hs' ts']|]; [|discriminate].
    inversion E; subst. constructor; [reflexivity | eapply IH; reflexivity].
Qed.

Lemma uncons_all_tails {A} (j : nat) (ls : list (list A)) :
  forall hs ts col,
    uncons_all ls = Some (hs, ts) ->
    Forall2 (fun t c => nth_error t j = Some c) ts col ->
    Forall2 (fun l c => nth_error l (S j) = Some c) ls col.
Proof.
  induction ls as [|l ls IH]; simpl; intros hs ts col E Hts.
  - inversion E; subst. inversion Hts. constructor.
  - destruct l as [|x l']; [discriminate|].
    destruct (uncons_all ls) as [[hs' ts']|]; [|discriminate].
    inversion E; subst. inversion Hts; subst.
    constructor; [assumption | eapply IH; [reflexivity | assumption]].
Qed.

Lemma zip_rounds_nth {A} (n : nat) :
  forall (ls : list (list A)) (j : nat) (col : list A),
    nth_error (zip_rounds n ls) j = Some col ->
    Forall2 (fun l c => nth_error l j = Some c) ls col.
Proof.
  induction n as [|n IH]; intros ls j col; simpl.
  - destruct j; discriminate.
  - destruct (uncons_all ls) as [[hs ts]|] eqn:E; [|destruct j; discriminate].
    destruct j as [|j]; simpl.
    + intros E'. inversion E'. subst. eapply uncons_all_heads, E.
    + intros E'. apply IH in E'. eapply uncons_all_tails; eassumption.
Qed.

(** C3 (amended).  Sequences, or tuples, of different lengths at the same
    place do not make [data_merge] fail: [zip] stops at the shortest, the
    positions up to that length are merged one by one with the default
    axis, and the elements beyond it are left out. *)
Theorem data_merge_zip_shortest {L : Type} {AL : ArrayLib L}
    (set_iter : list key -> list key)
    (l0 : list (tree L)) (others : list (list (tree L))) (axis : Z) :
  data_merge set_iter (PyList l0 :: map PyList others) axis
    = (r <- sequence (map (fun data_i => data_merge set_iter data_i 0)
                          (zip_star (l0 :: others))) ;;
       Ok (PyList r))
  /\ data_merge set_iter (PyTuple l0 :: map PyTuple others) axis
    = (r <- sequence (map (fun data_i => data_merge set_iter data_i 0)
                          (zip_star (l0 :: others))) ;;
       Ok (PyTuple r))
  /\ length (zip_star (l0 :: others))
     = fold_right Nat.min (length l0) (map (@length (tree L)) others)
  /\ (forall j data_i,
        nth_error (zip_star (l0 :: others)) j = Some data_i ->
        Forall2 (fun l c => nth_error l j = Some c) (l0 :: others) data_i).
Proof.
  split; [apply data_merge_list|].
  split; [apply data_merge_tuple|].
  split; [apply zip_star_length|].
  intros j data_i. apply zip_rounds_nth.
Qed.

(** Two mappings whose key ["k"] holds lists of lengths 2 and 1 are merged
    without an error. *)
Lemma data_merge_different_lengths_returns :
  data_merge (fun ks => ks)
    [Dict [(KStr "k", PyList [Leaf (vector [1]%Z); Leaf (vector [2]%Z)])];
     Dict [(KStr "k", PyList [Leaf (vector [3]%Z)])]] 0
  = Ok (Dict [(KStr "k", PyList [Leaf (vector [1; 3]%Z)])]).
Proof. reflexivity. Qed.

(** C4.  Leaves handed to [data_merge] directly are concatenated along
    [axis].  Inside a container the axis is lost: the recursive calls do
    not pass it on, and the leaves are concatenated along axis 0 whatever
    [axis] is.  With [axis=1], [{"k": [[1],[2]]}] and [{"k": [[3],[4]]}]
    give [{"k": [[1],[2],[3],[4]]}], not [{"k": [[1,3],[2,4]]}]. *)
Theorem data_merge_axis_not_passed_on :
  (forall (L : Type) (AL : ArrayLib L) set_iter (a : L) others axis,
      data_merge set_iter (Leaf a :: map Leaf others) axis
      = (m_data <- tf_concat (a :: others) axis ;; Ok (Leaf m_data)))
  /\ (forall (L : Type) (AL : ArrayLib L) set_iter (d0 : list (key * tree L)) others axis,
        data_merge set_iter (Dict d0 :: map Dict others) axis
        = data_merge set_iter (Dict d0 :: map Dict others) 0)
  /\ (forall (L : Type) (AL : ArrayLib L) set_iter (l0 : list (tree L)) others axis,
        data_merge set_iter (PyList l0 :: map PyList others) axis
        = data_merge set_iter (PyList l0 :: map PyList others) 0)
  /\ data_merge (fun ks => ks)
       [Dict [(KStr "k", Leaf (matrix [[1]; [2]]%Z))];
        Dict [(KStr "k", Leaf (matrix [[3]; [4]]%Z))]] 1
     = Ok (Dict [(KStr "k", Leaf (matrix [[1]; [2]; [3]; [4]]%Z))])
  /\ tf_concat [matrix [[1]; [2]]%Z; matrix [[3]; [4]]%Z] 1
     = Ok (matrix [[1; 3]; [2; 4]]%Z).
Proof.
  split; [intros; apply data_merge_leaf|].
  split; [intros; rewrite !data_merge_dict; reflexivity|].
  split; [intros; rewrite !data_merge_list; reflexivity|].
  split; reflexivity.
Qed.

(** ** Generators *)

Lemma is_min_flat_map {A} (count : A -> nat) (sub : A -> list nat) (n : nat) (xs : list A) :
  is_min n (map count xs) ->
  Forall (fun x => is_min (count x) (sub x)) xs ->
  is_min n (flat_map sub xs).
Proof.
  intros [Hle Hin] Hsub. split.
  - apply Forall_forall. intros m Hm. apply in_flat_map in Hm as [x [Hx Hm]].
    rewrite Forall_forall in Hle, Hsub.
    destruct (Hsub x Hx) as [Hs _]. rewrite Forall_forall in Hs.
    specialize (Hs m Hm). specialize (Hle (count x) (in_map count xs x Hx)). lia.
  - apply in_map_iff in Hin as [x [E Hx]]. apply in_flat_map. exists x.
    split; [exact Hx|]. rewrite Forall_forall in Hsub.
    destruct (Hsub x Hx) as [_ Hs]. rewrite E in Hs. exact Hs.
Qed.

Lemma fold_min_le (n : nat) (l : list nat) :
  fold_right Nat.min n l <= n /\ Forall (fun x => fold_right Nat.min n l <= x) l.
Proof.
  induction l as [|x l [IH1 IH2]]; simpl.
  - split; [lia | constructor].
  - split; [lia|]. constructor; [lia|].
    eapply Forall_impl; [|exact IH2]. simpl. intros. lia.
Qed.

Lemma fold_min_attained (n : nat) (l : list nat) :
  fold_right Nat.min n l = n \/ In (fold_right Nat.min n l) l.
Proof.
  induction l as [|x l IH]; simpl; [auto|].
  destruct (Nat.min_spec x (fold_right Nat.min n l)) as [[_ E]|[_ E]]; rewrite E.
  - auto.
  - destruct IH; auto.
Qed.

Section ZipGens.
Context {A : Type}.

Lemma next_all_inl (gs : list (gen A)) (hs : list A) (ts : list (gen A)) :
  next_all gs = inl (hs, ts) ->
  map produced gs = map (fun t => S (produced t)) ts.
Proof.
  revert hs ts. induction gs as [|g gs IH]; simpl; intros hs ts E.
  - inversion E. reflexivity.
  - destruct (yielded g) as [|x xs] eqn:Ex; [discriminate|].
    destruct (next_all gs) as [[hs' ts']|e]; [|discriminate].
    inversion E; subst. simpl. rewrite (IH hs' ts' eq_refl).
    unfold produced at 1. rewrite Ex. reflexivity.
Qed.

Lemma next_all_inr (gs : list (gen A)) (e : option exn) :
  next_all gs = inr e -> In 0 (map produced gs).
Proof.
  induction gs as [|g gs IH]; simpl; [discriminate|].
  destruct (yielded g) as [|x xs] eqn:Ex.
  - intros _. left. unfold produced. rewrite Ex. reflexivity.
  - destruct (next_all gs) as [[hs' ts']|e']; [discriminate|]. auto.
Qed.

Lemma zip_gen_rounds_length (n : nat) :
  forall gs : list (gen A),
    produced (zip_gen_rounds n gs) = fold_right Nat.min n (map produced gs).
Proof.
  induction n as [|n IH]; intros gs; simpl.
  - symmetry. apply fold_min_0.
  - destruct (next_all gs) as [[hs ts]|e] eqn:E.
    + rewrite (next_all_inl gs hs ts E).
      transitivity (S (produced (zip_gen_rounds n ts))); [reflexivity|].
      rewrite IH. clear.
      induction ts as [|t ts IHt]; simpl; [reflexivity|].
      rewrite <- IHt. reflexivity.
    + apply next_all_inr in E. unfold produced at 1. simpl.
      generalize (map produced gs) E. clear.
      intros l. induction l as [|x l IHl]; simpl; [intros []|].
      intros [->|Hin]; [reflexivity|]. rewrite <- (IHl Hin). lia.
Qed.

(** [zip] over generators yields as many rounds as the shortest of them. *)
Lemma zip_gens_length (vs : list (gen A)) :
  vs <> [] -> is_min (produced (zip_gens vs)) (map produced vs).
Proof.
  destruct vs as [|g gs]; [congruence|]. intros _.
  unfold zip_gens. rewrite zip_gen_rounds_length.
  fold (produced g). set (l := map produced (g :: gs)).
  destruct (fold_min_le (S (produced g)) l) as [Hn Hall].
  split; [exact Hall|].
  destruct (fold_min_attained (S (produced g)) l) as [E|Hin]; [|exact Hin].
  exfalso. subst l. simpl in E. lia.
Qed.

End ZipGens.

Lemma produced_gen_map {A B} (f : A -> B) (g : gen A) :
  produced (gen_map f g) = produced g.
Proof. unfold produced, gen_map. simpl. apply length_map. Qed.

Section SplitLength.
Context {L : Type} {AL : ArrayLib L} {Args KW : Type}.
Variable no_kwargs : KW.
Variable fun_ : L -> Args -> KW -> gen (tree L).
Variable args : Args.

(** The number of trees a generator over a tree without empty containers
    yields is the least number of values that [fun] yields on a leaf. *)
Lemma data_generator_length (t : tree L) :
  forall kwargs,
    no_empty t = true ->
    is_min (produced (data_generator no_kwargs t fun_ args kwargs))
           (map (fun a => produced (fun_ a args (or_default no_kwargs kwargs))) (leaves t)).
Proof.
  induction t as [a|d IH|l IH|l IH] using tree_ind'; intros kwargs Hne;
    cbn [data_generator leaves].
  - split; [constructor; [lia | constructor] | left; reflexivity].
  - cbn [no_empty] in Hne. apply andb_true_iff in Hne as [Hlen Hne].
    rewrite produced_gen_map, flat_map_concat_map, concat_map, map_map,
      <- flat_map_concat_map.
    apply (is_min_flat_map
             (fun kv => produced (data_generator no_kwargs (snd kv) fun_ args
                                    (Some (or_default no_kwargs kwargs))))).
    + rewrite <- (map_map _ produced). apply zip_gens_length.
      destruct d; [discriminate | discriminate].
    + rewrite forallb_forall in Hne. rewrite Forall_forall in IH |- *.
      intros kv Hkv. apply (IH kv Hkv (Some _)), Hne, Hkv.
  - cbn [no_empty] in Hne. apply andb_true_iff in Hne as [Hlen Hne].
    rewrite produced_gen_map, flat_map_concat_map, concat_map, map_map,
      <- flat_map_concat_map.
    apply (is_min_flat_map
             (fun v => produced (data_generator no_kwargs v fun_ args
                                   (Some (or_default no_kwargs kwargs))))).
    + rewrite <- (map_map _ produced). apply zip_gens_length.
      destruct l; [discriminate | discriminate].
    + rewrite forallb_forall in Hne. rewrite Forall_forall in IH |- *.
      intros kv Hkv. apply (IH kv Hkv (Some _)), Hne, Hkv.
  - cbn [no_empty] in Hne. apply andb_true_iff in Hne as [Hlen Hne].
    rewrite produced_gen_map, flat_map_concat_map, concat_map, map_map,
      <- flat_map_concat_map.
    apply (is_min_flat_map
             (fun v => produced (data_generator no_kwargs v fun_ args
                                   (Some (or_default no_kwargs kwargs))))).
    + rewrite <- (map_map _ produced). apply zip_gens_length.
      destruct l; [discriminate | discriminate].
    + rewrite forallb_forall in Hne. rewrite Forall_forall in IH |- *.
      intros kv Hkv. apply (IH kv Hkv (Some _)), Hne, Hkv.
Qed.

End SplitLength.

(** ** The nested-array model satisfies the laws *)

Lemma shape_eqb_eq (s s' : list nat) : shape_eqb s s' = true <-> s = s'.
Proof.
  revert s'. induction s as [|n s IH]; intros [|n' s']; simpl;
    try (split; [discriminate | intros E; inversion E]); [tauto|].
  rewrite andb_true_iff, Nat.eqb_eq, IH. split.
  - intros [-> ->]. reflexivity.
  - intros E. inversion E. auto.
Qed.

Lemma list_getitem_head {A} (x : A) (l : list A) : list_getitem (x :: l) 0 = Ok x.
Proof.
  unfold list_getitem. cbn [Z.ltb Z.compare].
  replace ((0 <=? 0)%Z && (0 <? Z.of_nat (length (x :: l)))%Z) with true.
  - reflexivity.
  - symmetry. apply andb_true_iff. split; [reflexivity|].
    apply Z.ltb_lt. simpl length. lia.
Qed.

Lemma list_getitem_nil {A} (i : Z) : @list_getitem A [] i = Raise IndexError.
Proof.
  unfold list_getitem. simpl.
  destruct (i <? 0)%Z eqn:E.
  - destruct ((0 <=? i + 0)%Z && (i + 0 <? 0)%Z) eqn:E'; [|reflexivity].
    apply andb_true_iff in E' as [E1 E2].
    apply Z.leb_le in E1. apply Z.ltb_lt in E2. lia.
  - destruct ((0 <=? i)%Z && (i <? 0)%Z) eqn:E'; [|reflexivity].
    apply andb_true_iff in E' as [E1 E2].
    apply Z.leb_le in E1. apply Z.ltb_lt in E2. lia.
Qed.

Lemma shape_Arr_uniform (xs : list ndarray) (s' : list nat) :
  xs <> [] -> Forall (fun y => shape y = Some s') xs ->
  shape (Arr xs) = Some (length xs :: s').
Proof.
  destruct xs as [|x xs]; [congruence|]. intros _ Hall.
  inversion Hall as [|? ? Hx Hxs]; subst. cbn [shape]. rewrite Hx.
  replace (forallb _ xs) with true; [reflexivity|].
  symmetry. apply forallb_forall. intros y Hy.
  rewrite Forall_forall in Hxs. rewrite (Hxs y Hy). apply shape_eqb_eq. reflexivity.
Qed.

Lemma shape_Arr_inv (xs : list ndarray) (s : list nat) :
  shape (Arr xs) = Some s ->
  (xs = [] /\ s = [0])
  \/ (exists s', s = length xs :: s' /\ Forall (fun y => shape y = Some s') xs).
Proof.
  destruct xs as [|x xs]; cbn [shape].
  - intros E. inversion E. auto.
  - destruct (shape x) as [s'|] eqn:Ex; [|discriminate].
    destruct (forallb _ xs) eqn:Ea; [|discriminate].
    intros E. inversion E. right. exists s'. split; [reflexivity|].
    constructor; [exact Ex|]. apply Forall_forall. intros y Hy.
    rewrite forallb_forall in Ea. specialize (Ea y Hy).
    destruct (shape y) as [sy|]; [|discriminate].
    apply shape_eqb_eq in Ea. congruence.
Qed.

(** An array with a first axis is a list of sub-arrays of one shape. *)
Lemma nd_shape_at_0_inv (a : ndarray) (n : nat) :
  nd_shape_at a 0 = Ok n ->
  exists xs s', a = Arr xs /\ length xs = n /\ Forall (fun y => shape y = Some s') xs.
Proof.
  unfold nd_shape_at. destruct a as [x|xs].
  - simpl. rewrite list_getitem_nil. discriminate.
  - destruct (shape (Arr xs)) as [s|] eqn:E; [|discriminate].
    apply shape_Arr_inv in E as [[-> ->]|[s' [-> Hall]]].
    + rewrite list_getitem_head. intros E. inversion E.
      exists [], []. repeat split. constructor.
    + rewrite list_getitem_head. intros E. inversion E.
      exists xs, s'. repeat split; auto.
Qed.

Lemma list_slice_length {A} (l : list A) (i j : nat) :
  j <= length l -> length (list_slice l i j) = j - i.
Proof.
  intros Hj. unfold list_slice. rewrite length_firstn, length_skipn. lia.
Qed.

Lemma list_slice_Forall {A} (P : A -> Prop) (l : list A) (i j : nat) :
  Forall P l -> Forall P (list_slice l i j).
Proof.
  intros Hl. unfold list_slice. rewrite Forall_forall in Hl |- *.
  intros x Hx. apply Hl.
  rewrite <- (firstn_skipn i l). apply in_or_app. right.
  rewrite <- (firstn_skipn (j - i) (skipn i l)). apply in_or_app. left. exact Hx.
Qed.

Lemma firstn_add {A} (a b : nat) :
  forall m : list A, firstn a m ++ firstn b (skipn a m) = firstn (a + b) m.
Proof.
  induction a as [|a IH]; intros m; [reflexivity|].
  destruct m as [|x m]; simpl.
  - rewrite firstn_nil. reflexivity.
  - f_equal. apply IH.
Qed.

Lemma list_slice_app {A} (l : list A) (i j k : nat) :
  i <= j -> j <= k ->
  list_slice l i j ++ list_slice l j k = list_slice l i k.
Proof.
  intros Hij Hjk. unfold list_slice.
  replace (skipn j l) with (skipn (j - i) (skipn i l)).
  - rewrite firstn_add. f_equal. lia.
  - rewrite skipn_skipn. f_equal. lia.
Qed.

Lemma nd_slice_first_shape (a : ndarray) (n i j : nat) :
  nd_shape_at a 0 = Ok n -> i <= j -> j <= n ->
  nd_shape_at (nd_slice_first a i j) 0 = Ok (j - i).
Proof.
  intros Ha Hij Hjn.
  apply nd_shape_at_0_inv in Ha as [xs [s' [-> [Hlen Hall]]]].
  cbn [nd_slice_first]. unfold nd_shape_at.
  destruct (list_slice xs i j) as [|y ys] eqn:E.
  - assert (Hl := list_slice_length xs i j). rewrite E in Hl. simpl in Hl.
    cbn [shape]. rewrite list_getitem_head. f_equal. lia.
  - rewrite (shape_Arr_uniform (y :: ys) s').
    + rewrite list_getitem_head. f_equal. rewrite <- E.
      apply list_slice_length. lia.
    + discriminate.
    + rewrite <- E. apply list_slice_Forall, Hall.
Qed.

Lemma batch_count_bounds (n b : nat) :
  1 <= b ->
  (forall k, k < (n + b - 1) / b -> k * b < n) /\ n <= (n + b - 1) / b * b.
Proof.
  intros Hb. set (c := (n + b - 1) / b).
  assert (H1 : b * c <= n + b - 1) by (apply Nat.Div0.mul_div_le).
  assert (H2 : n + b - 1 < b * S c) by (apply Nat.mul_succ_div_gt; lia).
  split.
  - intros k Hk. nia.
  - nia.
Qed.

Lemma In_batch_starts (n b i : nat) :
  1 <= b -> In i (batch_starts n b) -> i < n.
Proof.
  intros Hb Hin. unfold batch_starts in Hin.
  apply in_map_iff in Hin as [k [<- Hk]]. apply in_seq in Hk.
  apply (proj1 (batch_count_bounds n b Hb)). lia.
Qed.

Lemma batch_starts_nonempty (n b : nat) :
  1 <= b -> 1 <= n -> batch_starts n b <> [].
Proof.
  intros Hb Hn. unfold batch_starts.
  destruct ((n + b - 1) / b) as [|c] eqn:E; [|discriminate].
  exfalso. destruct (batch_count_bounds n b Hb) as [_ H]. rewrite E in H. lia.
Qed.

(** The batches of a list, one after the other, are the list. *)
Lemma batches_cover {A} (xs : list A) (b : nat) (c : nat) :
  forall s,
    flat_map (fun i => list_slice xs i (Nat.min (i + b) (length xs)))
             (map (fun k => k * b) (seq s c))
    = list_slice xs (s * b) (Nat.min ((s + c) * b) (length xs)).
Proof.
  induction c as [|c IH]; intros s; cbn [seq map flat_map].
  - unfold list_slice. replace (_ - _) with 0 by lia. reflexivity.
  - rewrite IH. set (n := length xs).
    destruct (Nat.le_gt_cases (s * b + b) n) as [Hle|Hgt].
    + rewrite (Nat.min_l (s * b + b) n) by lia.
      replace (S s * b) with (s * b + b) by lia.
      rewrite list_slice_app; [|lia|nia].
      f_equal. f_equal. lia.
    + rewrite (Nat.min_r (s * b + b) n) by lia.
      replace (list_slice xs (S s * b) _) with (@nil A).
      * rewrite app_nil_r. f_equal. nia.
      * unfold list_slice. replace (_ - _) with 0 by nia. reflexivity.
Qed.

Lemma batches_cover_all {A} (xs : list A) (b : nat) :
  1 <= b ->
  flat_map (fun i => list_slice xs i (Nat.min (i + b) (length xs)))
           (batch_starts (length xs) b)
  = xs.
Proof.
  intros Hb. unfold batch_starts. rewrite batches_cover.
  destruct (batch_count_bounds (length xs) b Hb) as [_ H].
  rewrite Nat.min_r by (simpl; lia).
  unfold list_slice. simpl. rewrite Nat.sub_0_r. apply firstn_all.
Qed.

Lemma nd_concat_batches (a : ndarray) (n b : nat) :
  nd_shape_at a 0 = Ok n -> 1 <= b -> 1 <= n ->
  nd_concat (map (fun i => nd_slice_first a i (Nat.min (i + b) n)) (batch_starts n b)) 0
  = Ok a.
Proof.
  intros Ha Hb Hn.
  apply nd_shape_at_0_inv in Ha as [xs [s' [-> [Hlen Hall]]]].
  cbn [nd_slice_first].
  assert (Hpiece : forall i, In i (batch_starts n b) ->
             shape (Arr (list_slice xs i (Nat.min (i + b) n)))
             = Some (length (list_slice xs i (Nat.min (i + b) n)) :: s')).
  { intros i Hi. apply In_batch_starts in Hi; [|exact Hb].
    apply shape_Arr_uniform; [|apply list_slice_Forall, Hall].
    intros E. apply (f_equal (@length ndarray)) in E.
    rewrite list_slice_length in E by lia. simpl in E. lia. }
  assert (Hcover : flat_map (fun i => list_slice xs i (Nat.min (i + b) n)) (batch_starts n b)
                   = xs) by (subst n; apply batches_cover_all, Hb).
  unfold nd_concat.
  destruct (batch_starts n b) as [|i0 starts] eqn:Es.
  { exfalso. apply (batch_starts_nonempty n b Hb Hn). exact Es. }
  destruct starts as [|i1 starts].
  { cbn [map]. cbn [flat_map] in Hcover. rewrite app_nil_r in Hcover.
    rewrite Hcover. reflexivity. }
  cbn [map]. rewrite (Hpiece i0) by (left; reflexivity).
  cbn [length Z.ltb Z.compare].
  replace ((0 <=? 0)%Z && (0 <? Z.of_nat (S (length s')))%Z) with true
    by (symmetry; apply andb_true_iff; split; [reflexivity | apply Z.ltb_lt; lia]).
  change (Z.to_nat 0) with 0.
  replace (forallb _ _) with true.
  - cbn [concat_at]. f_equal. f_equal.
    change (Arr (list_slice xs i0 (Nat.min (i0 + b) n))
              :: Arr (list_slice xs i1 (Nat.min (i1 + b) n))
              :: map (fun i => Arr (list_slice xs i (Nat.min (i + b) n))) starts)
      with (map (fun i => Arr (list_slice xs i (Nat.min (i + b) n))) (i0 :: i1 :: starts)).
    rewrite flat_map_concat_map, map_map. cbn [children].
    rewrite <- flat_map_concat_map. exact Hcover.
  - symmetry. apply forallb_forall. intros p Hp.
    change (Arr (list_slice xs i0 (Nat.min (i0 + b) n))
              :: Arr (list_slice xs i1 (Nat.min (i1 + b) n))
              :: map (fun i => Arr (list_slice xs i (Nat.min (i + b) n))) starts)
      with (map (fun i => Arr (list_slice xs i (Nat.min (i + b) n))) (i0 :: i1 :: starts)) in Hp.
    apply in_map_iff in Hp as [i [<- Hi]].
    rewrite Hpiece by exact Hi. cbn [compatible]. apply shape_eqb_eq. reflexivity.
Qed.

#[export] Instance ndarray_laws : ArrayLaws ndarray.
Proof.
  split.
  - exact nd_slice_first_shape.
  - exact nd_concat_batches.
Qed.

(** ** data_split *)

Section SplitLeaf.
Context {L : Type} {AL : ArrayLib L}.

(** On the first axis and with a positive batch size, a leaf of extent [n]
    yields its consecutive batches and stops. *)
Lemma _data_split_batches (dat : L) (batch_size : Z) (n : nat) :
  shape_at dat 0 = Ok n -> (1 <= batch_size)%Z ->
  _data_split dat batch_size 0
  = Gen (map (fun i => Leaf (slice_first dat i (Nat.min (i + Z.to_nat batch_size) n)))
             (batch_starts n (Z.to_nat batch_size)))
        None.
Proof.
  intros Hn Hb. unfold _data_split. rewrite Hn. cbn [Z.eqb].
  unfold range_from_0.
  replace (batch_size =? 0)%Z with false by (symmetry; apply Z.eqb_neq; lia).
  replace (batch_size <? 0)%Z with false by (symmetry; apply Z.ltb_ge; lia).
  reflexivity.
Qed.

End SplitLeaf.

(** C6 (amended).  For a tree without empty containers, [data_split] yields
    as many sub-trees as the leaf with the fewest batches has batches.  A
    leaf of extent [n] has [ceil(n / batch_size)] batches; each has
    [batch_size] elements but the last, which has the elements that remain
    (at least one, at most [batch_size]). *)
Theorem data_split_length_shortest {L : Type} {AL : ArrayLib L} {ALaws : ArrayLaws L}
    (t : tree L) (batch_size : Z) :
  no_empty t = true ->
  is_min (produced (data_split t batch_size 0))
         (map (fun a => produced (_data_split a batch_size 0)) (leaves t))
  /\ forall a n,
       In a (leaves t) -> shape_at a 0 = Ok n -> (1 <= batch_size)%Z ->
       let b := Z.to_nat batch_size in
       produced (_data_split a batch_size 0) = (n + b - 1) / b
       /\ forall k s,
            nth_error (yielded (_data_split a batch_size 0)) k = Some s ->
            exists x, s = Leaf x
                      /\ shape_at x 0 = Ok (Nat.min b (n - k * b))
                      /\ 1 <= Nat.min b (n - k * b)
                      /\ (S k < (n + b - 1) / b -> Nat.min b (n - k * b) = b).
Proof.
  intros Hne. split.
  - apply (data_generator_length 0%Z (fun dat b ax => _data_split dat b ax)
             batch_size t (Some 0%Z) Hne).
  - intros a n _ Hn Hb b.
    rewrite (_data_split_batches a batch_size n Hn Hb). fold b.
    assert (Hb1 : 1 <= b) by (unfold b; lia).
    destruct (batch_count_bounds n b Hb1) as [Hlt Hcov].
    split.
    + unfold produced. cbn [yielded]. unfold batch_starts.
      rewrite !length_map, length_seq. reflexivity.
    + intros k s Hk. cbn [yielded] in Hk. unfold batch_starts in Hk.
      rewrite !nth_error_map in Hk.
      destruct (nth_error (seq 0 ((n + b - 1) / b)) k) as [k'|] eqn:Ek; [|discriminate].
      rewrite nth_error_seq in Ek.
      destruct (Nat.ltb_spec k ((n + b - 1) / b)) as [Hkc|Hge]; [|discriminate].
      inversion Ek; subst k'. simpl in Hk. inversion Hk; subst s. clear Hk Ek.
      specialize (Hlt k Hkc).
      eexists. split; [reflexivity|]. split; [|split].
      * rewrite (slice_first_shape a n) by (auto; lia). f_equal. lia.
      * lia.
      * intros Hnext. specialize (batch_count_bounds n b Hb1) as [Hlt' _].
        specialize (Hlt' (S k) Hnext). lia.
Qed.

Lemma data_split_length_shortest_witness :
  let t := Dict [(KStr "a", Leaf (vector [1; 2; 3; 4]%Z));
                 (KStr "b", PyList [Leaf (vector [1; 2; 3; 4; 5; 6; 7]%Z)])] in
  is_min (produced (data_split t 3 0)) [2; 3]
  /\ produced (_data_split (vector [1; 2; 3; 4; 5; 6; 7]%Z) 3 0) = 3
  /\ exists x, Leaf (vector [7]%Z) = Leaf x
               /\ shape_at x 0 = Ok 1 /\ 1 <= 1 /\ (3 < 3 -> 1 = 3).
Proof.
  intros t.
  destruct (data_split_length_shortest t 3%Z eq_refl) as [Hmin Hleaf].
  split; [exact Hmin|].
  destruct (Hleaf (vector [1; 2; 3; 4; 5; 6; 7]%Z) 7) as [Hcount Hslices].
  - simpl. auto.
  - reflexivity.
  - lia.
  - split; [exact Hcount|]. apply (Hslices 2 (Leaf (vector [7]%Z))). reflexivity.
Defined.

(** A tree with two leaves of different extents and an empty list: the
    leaves have 2 and 3 batches, and [data_split] yields nothing. *)
Lemma data_split_empty_container_yields_nothing :
  let t := Dict [(KStr "a", Leaf (vector [1; 2; 3; 4]%Z));
                 (KStr "b", Leaf (vector [1; 2; 3; 4; 5; 6]%Z));
                 (KStr "c", PyList [])] in
  data_split t 2 0 = Gen [] None
  /\ map (fun a => produced (_data_split a 2 0)) (leaves t) = [2; 3]
  /\ ~ is_min (produced (data_split t 2 0))
              (map (fun a => produced (_data_split a 2 0)) (leaves t)).
Proof.
  intros t. split; [reflexivity|]. split; [reflexivity|].
  intros [_ Hin]. vm_compute in Hin. intuition discriminate.
Qed.

(** ** Splitting and merging back *)

Section UniformGens.
Context {X A : Type}.
Variable F : nat -> X -> A.

Lemma next_all_uniform (s n : nat) (xs : list X) :
  next_all (map (fun x => Gen (map (fun j => F j x) (seq s (S n))) None) xs)
  = inl (map (F s) xs,
         map (fun x => Gen (map (fun j => F j x) (seq (S s) n)) None) xs).
Proof.
  induction xs as [|x xs IH]; [reflexivity|].
  simpl in *. rewrite IH. reflexivity.
Qed.

Lemma zip_gen_rounds_uniform (xs : list X) :
  xs <> [] ->
  forall n s r, n < r ->
    zip_gen_rounds r (map (fun x => Gen (map (fun j => F j x) (seq s n)) None) xs)
    = Gen (map (fun j => map (F j) xs) (seq s n)) None.
Proof.
  intros Hxs. induction n as [|n IH]; intros s r Hr;
    (destruct r as [|r]; [lia|]); cbn [zip_gen_rounds].
  - destruct xs as [|x xs]; [congruence|]. reflexivity.
  - rewrite next_all_uniform, IH by lia. reflexivity.
Qed.

Lemma zip_gens_uniform (n : nat) (xs : list X) :
  xs <> [] ->
  zip_gens (map (fun x => Gen (map (fun j => F j x) (seq 0 n)) None) xs)
  = Gen (map (fun j => map (F j) xs) (seq 0 n)) None.
Proof.
  intros Hxs. destruct xs as [|x xs]; [congruence|].
  unfold zip_gens. cbn [map yielded].
  apply (zip_gen_rounds_uniform (x :: xs) Hxs n 0).
  rewrite length_map, length_seq. lia.
Qed.

End UniformGens.

Lemma combine_keys_map {A B} (f : A -> B) (d : list (key * A)) :
  combine (keys d) (map (fun kv => f (snd kv)) d) = map (fun kv => (fst kv, f (snd kv))) d.
Proof.
  induction d as [|[k v] d IH]; simpl; [reflexivity|].
  f_equal. exact IH.
Qed.

Lemma nonempty_length {A} (l : list A) : negb (Nat.eqb (length l) 0) = true -> l <> [].
Proof. destruct l; [discriminate | discriminate]. Qed.

Section SplitUniform.
Context {L : Type} {AL : ArrayLib L} {Args KW : Type}.
Variable no_kwargs : KW.
Variable fun_ : L -> Args -> KW -> gen (tree L).
Variable args : Args.
Variable h : nat -> L -> L.
Variable n : nat.

(** When [fun] yields [n] leaves on every leaf, the generator yields [n]
    trees, the [j]-th holding the [j]-th value of every leaf. *)
Lemma data_generator_uniform (t : tree L) :
  forall kw,
    no_empty t = true ->
    (forall a, In a (leaves t) ->
               fun_ a args kw = Gen (map (fun j => Leaf (h j a)) (seq 0 n)) None) ->
    data_generator no_kwargs t fun_ args (Some kw)
    = Gen (map (fun j => tree_map (h j) t) (seq 0 n)) None.
Proof.
  induction t as [a|d IH|l IH|l IH] using tree_ind'; intros kw Hne Hfun;
    cbn [data_generator or_default].
  - apply Hfun. left. reflexivity.
  - cbn [no_empty] in Hne. apply andb_true_iff in Hne as [Hlen Hne].
    rewrite forallb_forall in Hne.
    rewrite (map_ext_in _ (fun kv => Gen (map (fun j => tree_map (h j) (snd kv))
                                               (seq 0 n)) None)).
    + rewrite (zip_gens_uniform (fun j kv => tree_map (h j) (snd kv)))
        by (apply nonempty_length, Hlen).
      unfold gen_map. cbn [yielded ending]. rewrite map_map. f_equal.
      apply map_ext. intros j. cbn [tree_map]. f_equal. apply combine_keys_map.
    + intros kv Hkv. rewrite Forall_forall in IH.
      apply (IH kv Hkv kw); [apply Hne, Hkv|].
      intros a Ha. apply Hfun. cbn [leaves]. apply in_flat_map. eauto.
  - cbn [no_empty] in Hne. apply andb_true_iff in Hne as [Hlen Hne].
    rewrite forallb_forall in Hne.
    rewrite (map_ext_in _ (fun v => Gen (map (fun j => tree_map (h j) v)
                                              (seq 0 n)) None)).
    + rewrite (zip_gens_uniform (fun j v => tree_map (h j) v))
        by (apply nonempty_length, Hlen).
      unfold gen_map. cbn [yielded ending]. rewrite map_map. reflexivity.
    + intros v Hv. rewrite Forall_forall in IH.
      apply (IH v Hv kw); [apply Hne, Hv|].
      intros a Ha. apply Hfun. cbn [leaves]. apply in_flat_map. eauto.
  - cbn [no_empty] in Hne. apply andb_true_iff in Hne as [Hlen Hne].
    rewrite forallb_forall in Hne.
    rewrite (map_ext_in _ (fun v => Gen (map (fun j => tree_map (h j) v)
                                              (seq 0 n)) None)).
    + rewrite (zip_gens_uniform (fun j v => tree_map (h j) v))
        by (apply nonempty_length, Hlen).
      unfold gen_map. cbn [yielded ending]. rewrite map_map. reflexivity.
    + intros v Hv. rewrite Forall_forall in IH.
      apply (IH v Hv kw); [apply Hne, Hv|].
      intros a Ha. apply Hfun. cbn [leaves]. apply in_flat_map. eauto.
Qed.

End SplitUniform.

Section TreeEqFacts.
Context {L : Type}.

Lemma tree_eq_dict (d1 d2 : list (key * tree L)) :
  tree_eq (Dict d1) (Dict d2)
  <-> Permutation (keys d1) (keys d2)
      /\ Forall (fun kv => exists v2, dict_get (fst kv) d2 = Some v2
                                      /\ tree_eq (snd kv) v2) d1.
Proof.
  cbn [tree_eq]. apply and_iff_compat_l.
  induction d1 as [|kv d1 IH].
  - split; [constructor | trivial].
  - split.
    + intros [Hkv Hrest]. constructor; [|apply IH, Hrest].
      destruct (dict_get (fst kv) d2) as [v2|]; [eauto | contradiction].
    + intros Hall. inversion Hall as [|? ? [v2 [Hget Heq]] Hrest]; subst.
      split; [rewrite Hget; exact Heq | apply IH, Hrest].
Qed.

Lemma tree_eq_list (l1 l2 : list (tree L)) :
  tree_eq (PyList l1) (PyList l2) <-> Forall2 tree_eq l1 l2.
Proof.
  cbn [tree_eq]. revert l2. induction l1 as [|x l1 IH]; intros [|y l2].
  - split; [constructor | trivial].
  - split; [contradiction | intros E; inversion E].
  - split; [contradiction | intros E; inversion E].
  - split.
    + intros [Hxy Hrest]. constructor; [exact Hxy | apply IH, Hrest].
    + intros E. inversion E; subst. split; [assumption | apply IH; assumption].
Qed.

Lemma tree_eq_tuple (l1 l2 : list (tree L)) :
  tree_eq (PyTuple l1) (PyTuple l2) <-> Forall2 tree_eq l1 l2.
Proof.
  cbn [tree_eq]. revert l2. induction l1 as [|x l1 IH]; intros [|y l2].
  - split; [constructor | trivial].
  - split; [contradiction | intros E; inversion E].
  - split; [contradiction | intros E; inversion E].
  - split.
    + intros [Hxy Hrest]. constructor; [exact Hxy | apply IH, Hrest].
    + intros E. inversion E; subst. split; [assumption | apply IH; assumption].
Qed.

End TreeEqFacts.

Lemma sequence_ok_with {A B} (Q : A -> B -> Prop) (f : A -> result B) (l : list A) :
  (forall x, In x l -> exists y, f x = Ok y /\ Q x y) ->
  exists ys, sequence (map f l) = Ok ys /\ Forall2 Q l ys.
Proof.
  induction l as [|x l IH]; simpl; intros Hl.
  - exists []. split; [reflexivity | constructor].
  - destruct (Hl x) as [y [Hy HQ]]; [auto|].
    destruct IH as [ys [Hys HQs]]; [auto|].
    rewrite Hy, Hys. exists (y :: ys). split; [reflexivity | constructor; assumption].
Qed.

Lemma dict_get_In_value {V} (k : key) (d : list (key * V)) (v : V) :
  dict_get k d = Some v -> exists kv, In kv d /\ snd kv = v.
Proof.
  induction d as [|[k' w] d IH]; simpl; [discriminate|].
  destruct (key_eqb k k').
  - intros E. inversion E. subst. exists (k', v). auto.
  - intros E. destruct (IH E) as [kv [Hin Hv]]. eauto.
Qed.

Lemma uncons_all_uniform {X A} (G : X -> A) (T : X -> list A) (hs : list X) :
  uncons_all (map (fun h => G h :: T h) hs) = Some (map G hs, map T hs).
Proof.
  induction hs as [|h hs IH]; simpl; [reflexivity|]. rewrite IH. reflexivity.
Qed.

Lemma zip_rounds_uniform {X Y A} (G : X -> Y -> A) (hs : list X) (l : list Y) :
  zip_rounds (length l) (map (fun h => map (G h) l) hs)
  = map (fun x => map (fun h => G h x) hs) l.
Proof.
  induction l as [|x l IH]; [reflexivity|].
  cbn [length zip_rounds map].
  rewrite (uncons_all_uniform (fun h => G h x) (fun h => map (G h) l)).
  rewrite IH. reflexivity.
Qed.

(** [zip] over the lists [[G h x for x in l]], one for every [h]. *)
Lemma zip_star_uniform {X Y A} (G : X -> Y -> A) (h0 : X) (hs : list X) (l : list Y) :
  zip_star (map (fun h => map (G h) l) (h0 :: hs))
  = map (fun x => map (fun h => G h x) (h0 :: hs)) l.
Proof.
  unfold zip_star. cbn [map]. rewrite length_map.
  exact (zip_rounds_uniform G (h0 :: hs) l).
Qed.

Lemma intersection_same_keys (ks : list key) (others : list (list key)) :
  Forall (fun ks' => ks' = ks) others -> intersection (ks :: others) = ks.
Proof.
  intros Hsame. cbn [intersection].
  rewrite <- (filter_ext_in (fun _ => true)).
  - clear. induction ks as [|k ks IH]; simpl; [reflexivity | f_equal; exact IH].
  - intros k Hk. symmetry. apply forallb_forall. intros ks' Hks'.
    rewrite Forall_forall in Hsame. rewrite (Hsame ks' Hks').
    apply key_in_In, Hk.
Qed.

Lemma keys_map_values {A B} (f : A -> B) (d : list (key * A)) :
  keys (map (fun kv => (fst kv, f (snd kv))) d) = keys d.
Proof. unfold keys. rewrite map_map. reflexivity. Qed.

Lemma sequence_map_Ok {A B} (g : A -> B) (l : list A) :
  sequence (map (fun x => Ok (g x)) l) = Ok (map g l).
Proof.
  induction l as [|x l IH]; simpl; [reflexivity|]. rewrite IH. reflexivity.
Qed.

Lemma Forall2_right {A B} (Q : A -> B -> Prop) (P : B -> Prop) (l : list A) (l' : list B) :
  (forall x y, Q x y -> P y) -> Forall2 Q l l' -> Forall P l'.
Proof.
  intros HQP. induction 1; constructor; eauto.
Qed.

Section MergeBack.
Context {L : Type} {AL : ArrayLib L}.
Variable set_iter : list key -> list key.
Hypothesis set_iter_perm : forall ks, Permutation (set_iter ks) ks.
Variable h0 : L -> L.
Variable hs : list (L -> L).

Lemma column_tree_maps (i : key) (d : list (key * tree L)) (v : tree L) (fs : list (L -> L)) :
  dict_get i d = Some v ->
  column i (map (fun h => map (fun kv => (fst kv, tree_map h (snd kv))) d) fs)
  = Ok (map (fun h => tree_map h v) fs).
Proof.
  intros Hv. unfold column. rewrite map_map.
  rewrite <- sequence_map_Ok. apply sequence_map_ext. intros h.
  rewrite (dict_get_map (tree_map h)), Hv. reflexivity.
Qed.

(** Merging the trees [tree_map h t], one for every [h], gives a tree equal
    to [t] when concatenating the values [h a] gives back every leaf [a]. *)
Lemma data_merge_tree_maps (t : tree L) :
  (forall a, In a (leaves t) -> tf_concat (map (fun h => h a) (h0 :: hs)) 0 = Ok a) ->
  exists r, data_merge set_iter (map (fun h => tree_map h t) (h0 :: hs)) 0 = Ok r
            /\ tree_eq r t.
Proof.
  induction t as [a|d IH|l IH|l IH] using tree_ind'; intros Hleaf.
  - exists (Leaf a). split; [|reflexivity].
    cbn [map tree_map]. rewrite <- (map_map (fun h => h a) Leaf).
    rewrite data_merge_leaf.
    change (h0 a :: map (fun h => h a) hs) with (map (fun h => h a) (h0 :: hs)).
    rewrite Hleaf by (left; reflexivity). reflexivity.
  - set (dmap := fun h : L -> L => map (fun kv => (fst kv, tree_map h (snd kv))) d).
    cbn [map tree_map]. fold (dmap h0).
    rewrite <- (map_map dmap Dict). rewrite data_merge_dict.
    assert (Hidx : intersection (map keys (dmap h0 :: map dmap hs)) = keys d).
    { cbn [map]. unfold dmap at 1. rewrite keys_map_values.
      apply intersection_same_keys. rewrite !Forall_map. apply Forall_forall.
      intros h _. apply keys_map_values. }
    rewrite Hidx.
    destruct (sequence_ok_with
                (fun i kv => fst kv = i
                             /\ exists v, dict_get (fst kv) d = Some v
                                          /\ tree_eq (snd kv) v)
                (fun i => cs <- column i (dmap h0 :: map dmap hs) ;;
                          v <- data_merge set_iter cs 0 ;; Ok (i, v))
                (set_iter (keys d))) as [rd [Hrd HQ]].
    { intros i Hi. apply (Permutation_in _ (set_iter_perm _)) in Hi.
      destruct (In_keys_dict_get i d Hi) as [v Hv].
      destruct (dict_get_In_value i d v Hv) as [kv [Hkv Hsnd]].
      rewrite Forall_forall in IH. destruct (IH kv Hkv) as [r [Hr Heq]].
      { intros a Ha. apply Hleaf. cbn [leaves]. apply in_flat_map. eauto. }
      change (dmap h0 :: map dmap hs) with (map dmap (h0 :: hs)).
      subst v.
      unfold dmap. rewrite (column_tree_maps i d (snd kv) _ Hv). cbn [bind].
      rewrite Hr. cbn [bind]. eexists. split; [reflexivity|].
      cbn [fst snd]. split; [reflexivity|].
      exists (snd kv). split; [exact Hv | exact Heq]. }
    rewrite Hrd. cbn [bind]. eexists. split; [reflexivity|].
    apply tree_eq_dict. split.
    + replace (keys rd) with (set_iter (keys d)); [apply set_iter_perm|].
      clear - HQ. induction HQ as [|i kv idx rd [Hi _] _ IHQ]; [reflexivity|].
      cbn [keys map]. rewrite Hi. f_equal. exact IHQ.
    + eapply Forall2_right; [|exact HQ]. intros i kv [_ H]. exact H.
  - cbn [map tree_map].
    rewrite <- (map_map (fun h => map (tree_map h) l) PyList).
    rewrite data_merge_list.
    change (map (tree_map h0) l :: map (fun h => map (tree_map h) l) hs)
      with (map (fun h => map (tree_map h) l) (h0 :: hs)).
    rewrite (zip_star_uniform (@tree_map L L)), map_map.
    destruct (sequence_ok_with (fun x r => tree_eq r x)
                (fun x => data_merge set_iter (map (fun h => tree_map h x) (h0 :: hs)) 0)
                l) as [rs [Hrs HQ]].
    { intros x Hx. rewrite Forall_forall in IH. apply (IH x Hx).
      intros a Ha. apply Hleaf. cbn [leaves]. apply in_flat_map. eauto. }
    rewrite Hrs. cbn [bind]. eexists. split; [reflexivity|].
    apply tree_eq_list. apply Forall2_flip in HQ. exact HQ.
  - cbn [map tree_map].
    rewrite <- (map_map (fun h => map (tree_map h) l) PyTuple).
    rewrite data_merge_tuple.
    change (map (tree_map h0) l :: map (fun h => map (tree_map h) l) hs)
      with (map (fun h => map (tree_map h) l) (h0 :: hs)).
    rewrite (zip_star_uniform (@tree_map L L)), map_map.
    destruct (sequence_ok_with (fun x r => tree_eq r x)
                (fun x => data_merge set_iter (map (fun h => tree_map h x) (h0 :: hs)) 0)
                l) as [rs [Hrs HQ]].
    { intros x Hx. rewrite Forall_forall in IH. apply (IH x Hx).
      intros a Ha. apply Hleaf. cbn [leaves]. apply in_flat_map. eauto. }
    rewrite Hrs. cbn [bind]. eexists. split; [reflexivity|].
    apply tree_eq_tuple. apply Forall2_flip in HQ. exact HQ.
Qed.

End MergeBack.

(** C1 (amended).  For a tree without empty containers all of whose leaves
    have extent [n] on the first axis, and a batch size between 1 and [n],
    merging the batches of [data_split] along axis 0 returns a tree equal
    to the tree: same containers, same keys, equal leaves. *)
Theorem split_merge_round_trip {L : Type} {AL : ArrayLib L} {ALaws : ArrayLaws L}
    (set_iter : list key -> list key) (t : tree L) (n : nat) (batch_size : Z) :
  (forall ks, Permutation (set_iter ks) ks) ->
  no_empty t = true ->
  (forall a, In a (leaves t) -> shape_at a 0 = Ok n) ->
  (1 <= batch_size <= Z.of_nat n)%Z ->
  exists r,
    (batches <- list_of_gen (data_split t batch_size 0) ;;
     data_merge set_iter batches 0) = Ok r
    /\ tree_eq r t.
Proof.
  intros Hperm Hne Hshape [Hb Hbn].
  set (b := Z.to_nat batch_size).
  assert (Hb1 : 1 <= b) by (unfold b; lia).
  assert (Hn1 : 1 <= n) by lia.
  set (h := fun (j : nat) (a : L) => slice_first a (j * b) (Nat.min (j * b + b) n)).
  set (c := (n + b - 1) / b).
  assert (Hsplit : data_split t batch_size 0
                   = Gen (map (fun j => tree_map (h j) t) (seq 0 c)) None).
  { unfold data_split. apply data_generator_uniform; [exact Hne|].
    intros a Ha. rewrite (_data_split_batches a batch_size n (Hshape a Ha) Hb).
    unfold batch_starts. rewrite map_map. reflexivity. }
  rewrite Hsplit. cbn [list_of_gen ending yielded bind].
  assert (Hc : c <> 0).
  { intros E. destruct (batch_count_bounds n b Hb1) as [_ H]. fold c in H.
    rewrite E in H. lia. }
  rewrite <- (map_map h (fun g => tree_map g t)).
  destruct c as [|c'] eqn:Ec; [congruence|]. cbn [seq map].
  apply (data_merge_tree_maps set_iter Hperm (h 0) (map h (seq 1 c')) t).
  intros a Ha.
  change (h 0 :: map h (seq 1 c')) with (map h (seq 0 (S c'))).
  rewrite map_map, <- Ec. unfold c.
  rewrite <- (concat_batches a n b (Hshape a Ha) Hb1 Hn1).
  unfold batch_starts. rewrite map_map. reflexivity.
Qed.

Lemma split_merge_round_trip_witness :
  let t := Dict [(KStr "a", Leaf (vector [1; 2; 3; 4; 5]%Z));
                 (KStr "b", PyList [Leaf (matrix [[1; 2]; [3; 4]; [5; 6]; [7; 8]; [9; 10]]%Z)])] in
  exists r,
    (batches <- list_of_gen (data_split t 2 0) ;;
     data_merge (@rev key) batches 0) = Ok r
    /\ tree_eq r t.
Proof.
  intros t.
  apply (split_merge_round_trip (@rev key) t 5 2%Z).
  - intros ks. apply Permutation_sym, Permutation_rev.
  - reflexivity.
  - intros a [<-|[<-|[]]]; reflexivity.
  - lia.
Defined.

(** A mapping with a leaf of extent 4 and an empty list: [data_split]
    yields no batch, and [data_merge] of no tree fails. *)
Lemma split_merge_empty_container_fails :
  let t := Dict [(KStr "a", Leaf (vector [1; 2; 3; 4]%Z)); (KStr "b", PyList [])] in
  map (fun a => shape_at a 0) (leaves t) = [Ok 4]
  /\ list_of_gen (data_split t 2 0) = Ok []
  /\ (batches <- list_of_gen (data_split t 2 0) ;;
      data_merge (fun ks => ks) batches 0) = Raise IndexError.
Proof.
  intros t. repeat split.
Qed.

(** * The store: what a call leaves in place *)

Section StoreFacts.
Context {L : Type} {AL : ArrayLib L}.

Lemma update_length {A} (i : nat) (x : A) (l : list A) :
  length (Store.update i x l) = length l.
Proof.
  revert i. induction l as [|y l IH]; intros [|i]; simpl; auto.
Qed.

Lemma update_other {A} (i j : nat) (x : A) (l : list A) :
  i <> j -> nth_error (Store.update i x l) j = nth_error l j.
Proof.
  revert i j. induction l as [|y l IH]; intros [|i] [|j] Hij; simpl; auto.
  congruence.
Qed.

Lemma keeps_ret {A} (n : nat) (a : A) (Q : A -> Prop) :
  Q a -> Store.keeps (L:=L) n (mret a) Q.
Proof.
  intros HQ h Hn. cbn. repeat split; auto. intros a' E. inversion E. subst. exact HQ.
Qed.

Lemma keeps_raise {A} (n : nat) (e : exn) (Q : A -> Prop) :
  Store.keeps (L:=L) n (Store.raise e) Q.
Proof.
  intros h Hn. cbn. repeat split; auto. discriminate.
Qed.

Lemma keeps_lift {A} (n : nat) (r : result A) :
  Store.keeps (L:=L) n (Store.lift r) (fun _ => True).
Proof.
  intros h Hn. cbn. repeat split; auto.
Qed.

Lemma keeps_load (n : nat) (l : Store.loc) :
  Store.keeps (L:=L) n (Store.load l) (fun _ => True).
Proof.
  intros h Hn. unfold Store.load. destruct (nth_error h l); cbn; repeat split; auto.
Qed.

Lemma keeps_alloc (n : nat) (o : Store.obj L) :
  Store.keeps (L:=L) n (Store.alloc o) (fun l => n <= l).
Proof.
  intros h Hn. unfold Store.alloc. cbn. split; [|split].
  - rewrite length_app. simpl. lia.
  - intros l Hl. apply nth_error_app1. lia.
  - intros a E. inversion E. subst. exact Hn.
Qed.

Lemma first_empty_tuple_found (h : Store.heap L) :
  forall l0 l, Store.first_empty_tuple h l0 = Some l ->
    l0 <= l /\ nth_error h (l - l0) = Some (Store.OTuple []).
Proof.
  induction h as [|o h IH]; intros l0 l; cbn [Store.first_empty_tuple]; [discriminate|].
  assert (Hnext : Store.first_empty_tuple h (S l0) = Some l ->
                  l0 <= l /\ nth_error (o :: h) (l - l0) = Some (Store.OTuple [])).
  { intros E. apply IH in E as [Hle Hl]. split; [lia|].
    replace (l - l0) with (S (l - S l0)) by lia. exact Hl. }
  destruct o as [d|ls|ls|a]; try exact Hnext.
  destruct ls as [|x ls]; [|exact Hnext].
  intros E. inversion E; subst. split; [lia|]. rewrite Nat.sub_diag. reflexivity.
Qed.

Lemma empty_tuple_returns (h : Store.heap L) :
  exists l, fst (Store.empty_tuple h) = Ok l
    /\ nth_error (snd (Store.empty_tuple h)) l = Some (Store.OTuple [])
    /\ (snd (Store.empty_tuple h) = h \/ snd (Store.empty_tuple h) = h ++ [Store.OTuple []]).
Proof.
  unfold Store.empty_tuple.
  destruct (Store.first_empty_tuple h 0) as [l|] eqn:E; cbn [fst snd].
  - exists l. apply first_empty_tuple_found in E as [_ Hl]. rewrite Nat.sub_0_r in Hl.
    split; [reflexivity|]. split; [exact Hl | left; reflexivity].
  - exists (length h). split; [reflexivity|]. split; [|right; reflexivity].
    rewrite nth_error_app2, Nat.sub_diag by lia. reflexivity.
Qed.

Lemma keeps_empty_tuple (n : nat) :
  Store.keeps (L:=L) n Store.empty_tuple (fun _ => True).
Proof.
  intros h Hn. destruct (empty_tuple_returns h) as [l [_ [_ [E|E]]]]; rewrite E.
  - repeat split; auto.
  - split; [rewrite length_app; simpl; lia|]. split; [|auto].
    intros l' Hl'. apply nth_error_app1. lia.
Qed.

Lemma keeps_new_tuple (n : nat) (r : list Store.loc) :
  Store.keeps (L:=L) n (Store.new_tuple r) (fun _ => True).
Proof.
  destruct r as [|x r]; cbn [Store.new_tuple]; [apply keeps_empty_tuple|].
  intros h Hn. destruct (keeps_alloc n (Store.OTuple (x :: r)) h Hn) as [H1 [H2 _]].
  repeat split; auto.
Qed.

Lemma keeps_read_tree (n depth : nat) (l : Store.loc) :
  Store.keeps (L:=L) n (Store.read_tree depth l) (fun _ => True).
Proof.
  intros h Hn. unfold Store.read_tree.
  destruct (Store.tree_at depth h l); cbn; repeat split; auto.
Qed.

Lemma builds_alloc (n : nat) (o : Store.obj L) : Store.builds n (Store.alloc o).
Proof.
  intros h r Hn E. unfold Store.alloc in E. cbn in E. inversion E; subst. left. exact Hn.
Qed.

Lemma builds_raise (n : nat) (e : exn) : Store.builds (L:=L) n (Store.raise e).
Proof. intros h r Hn E. discriminate. Qed.

Lemma builds_new_tuple (n : nat) (r : list Store.loc) :
  Store.builds (L:=L) n (Store.new_tuple r).
Proof.
  destruct r as [|x r]; cbn [Store.new_tuple]; [|apply builds_alloc].
  intros h l Hn E. destruct (empty_tuple_returns h) as [l' [E' [Hl _]]].
  rewrite E' in E. inversion E; subst. right. exact Hl.
Qed.

Lemma keeps_store (n : nat) (l : Store.loc) (o : Store.obj L) :
  n <= l -> Store.keeps (L:=L) n (Store.store l o) (fun _ => True).
Proof.
  intros Hl h Hn. unfold Store.store. cbn. split; [|split]; auto.
  - rewrite update_length. lia.
  - intros l' Hl'. apply update_other. lia.
Qed.

Lemma keeps_bind {A B} (n : nat) (m : Store.H (L:=L) A) (f : A -> Store.H (L:=L) B)
    (Q : A -> Prop) (R : B -> Prop) :
  Store.keeps (L:=L) n m Q -> (forall a, Q a -> Store.keeps (L:=L) n (f a) R) -> Store.keeps (L:=L) n (mbind m f) R.
Proof.
  intros Hm Hf h Hn. destruct (Hm h Hn) as [Hlen [Hsame HQ]].
  unfold mbind. destruct (m h) as [[a|e] h1] eqn:E; cbn in *.
  - destruct (Hf a (HQ a eq_refl) h1) as [Hlen' [Hsame' HR]]; [lia|].
    split; [lia|]. split; [|exact HR].
    intros l Hl. rewrite Hsame' by exact Hl. apply Hsame, Hl.
  - repeat split; auto. discriminate.
Qed.

Lemma builds_bind {A} (n : nat) (m : Store.H (L:=L) A) (f : A -> Store.H (L:=L) Store.loc)
    (Q : A -> Prop) :
  Store.keeps (L:=L) n m Q -> (forall a, Store.builds n (f a)) ->
  Store.builds n (mbind m f).
Proof.
  intros Hm Hf h r Hn. destruct (Hm h Hn) as [Hlen _].
  unfold mbind. destruct (m h) as [[a|e] h1]; cbn in *; [|discriminate].
  apply Hf. lia.
Qed.

Lemma keeps_weaken {A} (n : nat) (m : Store.H (L:=L) A) (Q Q' : A -> Prop) :
  Store.keeps (L:=L) n m Q -> (forall a, Q a -> Q' a) -> Store.keeps (L:=L) n m Q'.
Proof.
  intros Hm HQ h Hn. destruct (Hm h Hn) as [Hlen [Hsame Hq]].
  repeat split; auto.
Qed.

Lemma keeps_mapM {A B} (n : nat) (f : A -> Store.H (L:=L) B) (Q : B -> Prop) (l : list A) :
  (forall x, Store.keeps (L:=L) n (f x) Q) -> Store.keeps (L:=L) n (mapM f l) (Forall Q).
Proof.
  intros Hf. induction l as [|x l IH]; cbn [mapM].
  - apply keeps_ret. constructor.
  - eapply keeps_bind; [apply Hf|]. intros y Hy.
    eapply keeps_bind; [apply IH|]. intros ys Hys.
    apply keeps_ret. constructor; assumption.
Qed.

Lemma keeps_preserved {A} (m : Store.H (L:=L) A) (Q : A -> Prop) (h : Store.heap L) :
  Store.keeps (L:=L) (length h) m Q -> Store.preserved h (snd (m h)).
Proof.
  intros Hm l o Hl. destruct (Hm h (le_n _)) as [_ [Hsame _]].
  rewrite Hsame; [exact Hl|]. apply nth_error_Some. congruence.
Qed.

End StoreFacts.

Section StoreCalls.
Context {L : Type} {AL : ArrayLib L}.
Variable n : nat.

Lemma keeps_any {A} (m : Store.H (L:=L) A) (Q : A -> Prop) :
  Store.keeps (L:=L) n m Q -> Store.keeps (L:=L) n m Store.any.
Proof. intros Hm. eapply keeps_weaken; [exact Hm | exact (fun _ _ => I)]. Qed.

Lemma keeps_bind_any {A B} (m : Store.H (L:=L) A) (f : A -> Store.H (L:=L) B)
    (R : B -> Prop) :
  Store.keeps (L:=L) n m Store.any -> (forall a, Store.keeps (L:=L) n (f a) R) ->
  Store.keeps (L:=L) n (mbind m f) R.
Proof. intros Hm Hf. eapply keeps_bind; [exact Hm | intros a _; apply Hf]. Qed.

Lemma keeps_mapM_any {A B} (f : A -> Store.H (L:=L) B) (l : list A) :
  (forall x, Store.keeps (L:=L) n (f x) Store.any) -> Store.keeps (L:=L) n (mapM f l) Store.any.
Proof. intros Hf. eapply keeps_any, keeps_mapM, Hf. Qed.

Ltac keeps_step :=
  match goal with
  | |- Store.keeps _ (mbind _ _) _ => apply keeps_bind_any; [|intros ?]
  | |- Store.keeps _ (mapM _ _) Store.any => apply keeps_mapM_any; intros ?
  | |- Store.keeps _ (Store.load _) _ => apply keeps_any with (Q := fun _ => True), keeps_load
  | |- Store.keeps _ (Store.alloc _) Store.any => eapply keeps_any, keeps_alloc
  | |- Store.keeps _ (Store.new_tuple _) Store.any => eapply keeps_any, keeps_new_tuple
  | |- Store.keeps _ (Store.read_tree _ _) Store.any => eapply keeps_any, keeps_read_tree
  | |- Store.keeps _ (Store.raise _) _ => apply keeps_raise
  | |- Store.keeps _ (Store.lift _) _ => apply keeps_any with (Q := fun _ => True), keeps_lift
  | |- Store.keeps _ (mret _) Store.any => apply keeps_ret; exact I
  | |- Store.keeps _ (match ?x with _ => _ end) _ => destruct x
  end.

Lemma data_map_keeps {Args KW : Type} (no_kwargs : KW)
    (fun_ : Store.loc -> Args -> KW -> Store.H (L:=L) Store.loc) (args : Args) :
  (forall l a k, Store.keeps (L:=L) n (fun_ l a k) Store.any) ->
  forall depth data kwargs,
    Store.keeps (L:=L) n (Store.data_map no_kwargs depth data fun_ args kwargs) Store.any.
Proof.
  intros Hfun. induction depth as [|depth IH]; intros data kwargs;
    cbn [Store.data_map]; repeat keeps_step; auto.
Qed.

Lemma data_mask_keeps (depth : nat) (data select : Store.loc) :
  Store.keeps (L:=L) n (Store.data_mask depth data select) Store.any.
Proof.
  unfold Store.data_mask. apply data_map_keeps. intros l a k.
  unfold Store.tf_boolean_mask. repeat keeps_step.
Qed.

Lemma data_merge_keeps (set_iter : list key -> list key) :
  forall depth data axis,
    Store.keeps (L:=L) n (Store.data_merge set_iter depth data axis) Store.any.
Proof.
  induction depth as [|depth IH]; intros data axis;
    cbn [Store.data_merge]; repeat keeps_step; auto.
Qed.

Lemma data_index_keeps (data : Store.loc) (key : index) :
  Store.keeps (L:=L) n (Store.data_index data key) Store.any.
Proof.
  assert (Hidx : forall d i, Store.keeps (L:=L) n (Store.idx d i) Store.any).
  { intros d i. unfold Store.idx. repeat keeps_step. }
  destruct key as [k|ks]; cbn [Store.data_index]; [apply Hidx|].
  revert data. induction ks as [|k ks IH]; intros data; cbn [Store.data_index_keys].
  - apply keeps_raise.
  - destruct ks as [|k' ks]; [apply Hidx|].
    apply keeps_bind_any; [apply Hidx | intros d; apply IH].
Qed.

Lemma dict_setitem_keeps (ret : Store.loc) (k : key) (v : Store.loc) :
  n <= ret -> Store.keeps (L:=L) n (Store.dict_setitem ret k v) Store.any.
Proof.
  intros Hret. unfold Store.dict_setitem. repeat keeps_step.
  apply keeps_store, Hret.
Qed.

Lemma flatten_dict_data_keeps :
  forall depth data fun_,
    Store.keeps (L:=L) n (Store.flatten_dict_data depth data fun_) Store.any.
Proof.
  induction depth as [|depth IH]; intros data fun_;
    cbn [Store.flatten_dict_data]; [apply keeps_raise|].
  keeps_step; [keeps_step|]. keeps_step; [|apply keeps_ret; exact I].
  eapply keeps_bind; [apply keeps_alloc|]. intros ret Hret.
  keeps_step; [|apply keeps_ret; exact I].
  keeps_step. keeps_step; [apply IH|]. keeps_step; [keeps_step|].
  keeps_step.
  - keeps_step; [|apply keeps_ret; exact I].
    keeps_step. apply dict_setitem_keeps, Hret.
  - apply dict_setitem_keeps, Hret.
Qed.

Lemma yield_all_keeps (mk : list Store.loc -> Store.obj L) (g : gen (list Store.loc)) :
  Store.keeps (L:=L) n (Store.yield_all mk g) (Store.yields_new n).
Proof.
  unfold Store.yield_all. eapply keeps_bind.
  - apply keeps_mapM. intros s. apply keeps_alloc.
  - intros ls Hls. apply keeps_ret. exact Hls.
Qed.

Lemma data_generator_keeps {Args KW : Type} (no_kwargs : KW)
    (fun_ : Store.loc -> Args -> KW -> Store.H (L:=L) (gen Store.loc)) (args : Args) :
  (forall l a k, Store.keeps (L:=L) n (fun_ l a k) (Store.yields_new n)) ->
  forall depth data kwargs,
    Store.keeps (L:=L) n (Store.data_generator no_kwargs depth data fun_ args kwargs)
      (Store.yields_new n).
Proof.
  intros Hfun. induction depth as [|depth IH]; intros data kwargs;
    cbn [Store.data_generator]; [apply keeps_raise|].
  keeps_step; [keeps_step|]. keeps_step.
  - keeps_step; [|apply yield_all_keeps].
    keeps_step. eapply keeps_any, IH.
  - keeps_step; [|apply yield_all_keeps].
    keeps_step. eapply keeps_any, IH.
  - keeps_step; [|apply yield_all_keeps].
    keeps_step. eapply keeps_any, IH.
  - apply Hfun.
Qed.

Lemma _data_split_keeps (dat : Store.loc) (batch_size axis : Z) :
  Store.keeps (L:=L) n (Store._data_split dat batch_size axis) (Store.yields_new n).
Proof.
  unfold Store._data_split. keeps_step; [keeps_step|].
  keeps_step; try apply keeps_raise.
  eapply keeps_bind.
  - apply (keeps_mapM n _ (fun l => n <= l)). intros t.
    destruct t; try apply keeps_raise. apply keeps_alloc.
  - intros ls Hls. apply keeps_ret. exact Hls.
Qed.

Lemma data_split_keeps (depth : nat) (data : Store.loc) (batch_size axis : Z) :
  Store.keeps (L:=L) n (Store.data_split depth data batch_size axis) (Store.yields_new n).
Proof.
  unfold Store.data_split. apply data_generator_keeps.
  intros l a k. apply _data_split_keeps.
Qed.

End StoreCalls.

Section StoreResults.
Context {L : Type} {AL : ArrayLib L}.

Lemma keeps_result {A} (m : Store.H (L:=L) A) (Q : A -> Prop) (h : Store.heap L) (a : A) :
  Store.keeps (L:=L) (length h) m Q -> fst (m h) = Ok a -> Q a.
Proof.
  intros Hm. destruct (Hm h (le_n _)) as [_ [_ HQ]]. apply HQ.
Qed.

Lemma mbind_load (l : Store.loc) (o : Store.obj L) {B} (f : Store.obj L -> Store.H (L:=L) B)
    (h : Store.heap L) :
  nth_error h l = Some o -> mbind (Store.load l) f h = f o h.
Proof.
  intros Hl. unfold mbind, Store.load. rewrite Hl. reflexivity.
Qed.

Lemma builds_result (m : Store.H (L:=L) Store.loc) (h : Store.heap L) (r : Store.loc) :
  Store.builds (length h) m -> fst (m h) = Ok r ->
  length h <= r \/ nth_error (snd (m h)) r = Some (Store.OTuple []).
Proof. intros Hm. apply Hm. lia. Qed.

(** [data_map] on a container returns a new container, or the empty
    tuple. *)
Lemma data_map_new {Args KW : Type} (no_kwargs : KW)
    (fun_ : Store.loc -> Args -> KW -> Store.H (L:=L) Store.loc) (args : Args)
    (kwargs : option KW) (depth : nat) (data : Store.loc) (h : Store.heap L)
    (o : Store.obj L) (r : Store.loc) :
  (forall l a k, Store.keeps (L:=L) (length h) (fun_ l a k) Store.any) ->
  nth_error h data = Some o -> Store.is_container o = true ->
  fst (Store.data_map no_kwargs depth data fun_ args kwargs h) = Ok r ->
  length h <= r
  \/ nth_error (snd (Store.data_map no_kwargs depth data fun_ args kwargs h)) r
     = Some (Store.OTuple []).
Proof.
  intros Hfun Ho Hc. destruct depth as [|depth]; [discriminate|].
  cbn [Store.data_map]. rewrite (mbind_load data o) by exact Ho.
  apply builds_result.
  destruct o; try discriminate;
    (eapply builds_bind;
     [ apply keeps_mapM_any; intros x;
       repeat first [ apply keeps_bind_any; [|intros ?]
                    | apply data_map_keeps; exact Hfun
                    | apply keeps_ret; exact I ]
     | intros rs; first [apply builds_alloc | apply builds_new_tuple] ]).
Qed.

(** [data_merge] returns a new object, or the empty tuple. *)
Lemma data_merge_new (set_iter : list key -> list key) (depth : nat)
    (data : list Store.loc) (axis : Z) (h : Store.heap L) (r : Store.loc) :
  fst (Store.data_merge set_iter depth data axis h) = Ok r ->
  length h <= r
  \/ nth_error (snd (Store.data_merge set_iter depth data axis h)) r
     = Some (Store.OTuple []).
Proof.
  apply builds_result. destruct depth as [|depth]; [apply builds_raise|].
  cbn [Store.data_merge]. eapply builds_bind.
  { apply keeps_mapM_any. intros l. eapply keeps_any, keeps_load. }
  intros os. destruct os as [|o os]; [apply builds_raise|].
  destruct o.
  - destruct (all_some _); [|apply builds_raise].
    eapply builds_bind; [|intros rs; apply builds_alloc].
    apply keeps_mapM_any. intros i.
    apply keeps_bind_any; [eapply keeps_any, keeps_lift|]. intros cs.
    apply keeps_bind_any; [apply data_merge_keeps|]. intros v. apply keeps_ret. exact I.
  - destruct (all_some _); [|apply builds_raise].
    eapply builds_bind; [|intros rs; apply builds_alloc].
    apply keeps_mapM_any. intros i. apply data_merge_keeps.
  - destruct (all_some _); [|apply builds_raise].
    eapply builds_bind; [|intros rs; apply builds_new_tuple].
    apply keeps_mapM_any. intros i. apply data_merge_keeps.
  - destruct (all_some _).
    + eapply builds_bind; [eapply keeps_any, keeps_lift|].
      intros x. apply builds_alloc.
    + eapply builds_bind.
      { apply keeps_mapM_any. intros l. eapply keeps_any, keeps_read_tree. }
      intros values_. eapply builds_bind; [eapply keeps_any, keeps_lift|].
      intros x. apply builds_alloc.
Qed.

(** [flatten_dict_data] on a container returns a new mapping. *)
Lemma flatten_dict_data_new (depth : nat) (data : Store.loc) (fun_ : key -> key -> key)
    (h : Store.heap L) (o : Store.obj L) (r : Store.loc) :
  nth_error h data = Some o -> Store.is_container o = true ->
  fst (Store.flatten_dict_data depth data fun_ h) = Ok r ->
  length h <= r.
Proof.
  intros Ho Hc. destruct depth as [|depth]; [discriminate|].
  cbn [Store.flatten_dict_data]. rewrite (mbind_load data o) by exact Ho.
  apply keeps_result.
  assert (Hits : exists its, Store.items_of o = Some its)
    by (destruct o; try discriminate; eexists; reflexivity).
  destruct Hits as [its ->].
  eapply keeps_bind; [apply keeps_alloc|]. intros ret Hret.
  apply keeps_bind_any; [|intros ?; apply keeps_ret; exact Hret].
  apply keeps_mapM_any. intros it.
  apply keeps_bind_any; [apply flatten_dict_data_keeps|]. intros tmp.
  apply keeps_bind_any; [eapply keeps_any, keeps_load|]. intros ot.
  destruct (Store.items_of ot).
  - apply keeps_bind_any; [|intros ?; apply keeps_ret; exact I].
    apply keeps_mapM_any. intros jt. apply dict_setitem_keeps, Hret.
  - apply dict_setitem_keeps, Hret.
Qed.

(** [data_index] with one key on a mapping allocates nothing and returns a
    reference the mapping holds. *)
Lemma data_index_alias (data : Store.loc) (k : key) (d : list (key * Store.loc))
    (h : Store.heap L) :
  nth_error h data = Some (Store.ODict d) ->
  snd (Store.data_index data (One k) h) = h
  /\ forall r, fst (Store.data_index data (One k) h) = Ok r -> In r (values d).
Proof.
  intros Hd. cbn [Store.data_index]. unfold Store.idx.
  rewrite (mbind_load data (Store.ODict d)) by exact Hd.
  assert (Hget : forall i v, dict_get i d = Some v -> In v (values d)).
  { intros i v Hv. destruct (dict_get_In_value i d v Hv) as [kv [Hin <-]].
    apply in_map, Hin. }
  destruct k as [s|z|id r0]; destruct (dict_get _ d) as [v|] eqn:Ev; cbn;
    try (split; [reflexivity|]; intros r E; inversion E; subst; eapply Hget; eassumption);
    try (split; [reflexivity | discriminate]);
    (destruct (find _ d) as [kv|] eqn:Ef; cbn;
     [ split; [reflexivity|]; intros r E; inversion E; subst;
       apply find_some in Ef as [Hin _]; apply in_map, Hin
     | split; [reflexivity | discriminate] ]).
Qed.

Lemma list_getitem_In {A} (l : list A) (i : Z) (x : A) :
  list_getitem l i = Ok x -> In x l.
Proof.
  unfold list_getitem. destruct (_ && _); [|discriminate].
  destruct (nth_error l _) as [y|] eqn:E; [|discriminate].
  intros E'. inversion E'; subst. eapply nth_error_In, E.
Qed.

(** One step of [data_index] returns a reference that the node holds and
    leaves the store as it is, or, on an array, adds the array that the
    subscript gives. *)
Lemma idx_result (d : Store.loc) (k : key) (h h1 : Store.heap L) (r : Store.loc) :
  Store.idx d k h = (Ok r, h1) ->
  (h1 = h /\ exists o, nth_error h d = Some o /\ In r (Store.refs o))
  \/ (exists o a, nth_error h d = Some o /\ Store.refs o = []
                  /\ h1 = h ++ [Store.OLeaf a] /\ r = length h).
Proof.
  unfold Store.idx, mbind, Store.load.
  destruct (nth_error h d) as [o|] eqn:Eo; [|discriminate].
  assert (Hget : forall (items : list (key * Store.loc)) i v,
             dict_get i items = Some v -> In v (values items)).
  { intros items i v Hv. destruct (dict_get_In_value i items v Hv) as [kv [Hin <-]].
    apply in_map, Hin. }
  assert (Hdict : forall (items : list (key * Store.loc)) (i : key) (m : Store.H (L:=L) Store.loc),
             (forall r' h', m h = (Ok r', h') -> h' = h /\ In r' (values items)) ->
             match dict_get i items with Some v => mret v | None => m end h = (Ok r, h1) ->
             h1 = h /\ In r (values items)).
  { intros items i m Hm. destruct (dict_get i items) as [v|] eqn:Ev.
    - intros E. inversion E; subst. split; [reflexivity|]. eapply Hget, Ev.
    - apply Hm. }
  assert (Hseq : forall l z, Store.lift (list_getitem l z) h = (Ok r, h1) ->
                             h1 = h /\ In r l).
  { intros l z E. unfold Store.lift in E. inversion E; subst.
    split; [reflexivity|]. eapply list_getitem_In; eassumption. }
  assert (Hraise : forall e, Store.raise (L:=L) e h = (Ok r, h1) -> False)
    by (intros e E; discriminate).
  destruct k as [str_|z|id repr]; destruct o as [items|l|l|a]; intros E;
    try (exfalso; eapply Hraise; exact E);
    try (left; apply Hseq in E as [-> Hin]; split; [reflexivity|];
         eexists; split; [reflexivity | exact Hin]);
    try (left; apply Hdict in E;
         [ destruct E as [-> Hin]; split; [reflexivity|];
           eexists; split; [reflexivity | exact Hin]
         | intros r' h' E';
           first [ discriminate
                 | destruct (find _ items) as [kv|] eqn:Ef; [|discriminate];
                   inversion E'; subst; split; [reflexivity|];
                   apply find_some in Ef as [Hin _]; apply in_map, Hin ] ]).
  right. unfold Store.lift, Store.alloc in E.
  destruct (subscript a z) as [x|e]; [|discriminate]. inversion E; subst.
  exists (Store.OLeaf a), x. repeat split; reflexivity.
Qed.

(** [data_index] builds no container: the store only grows by the arrays
    that subscripts give, and what is returned is reached from the input
    by the references held in the store, or is such an array. *)
Lemma data_index_result (key : index) :
  forall (data : Store.loc) (h h1 : Store.heap L) (r : Store.loc),
    Store.data_index data key h = (Ok r, h1) ->
    (exists ls, h1 = h ++ map Store.OLeaf ls)
    /\ (Store.inside h data r
        \/ (length h <= r /\ exists a, nth_error h1 r = Some (Store.OLeaf a))).
Proof.
  assert (Hone : forall d k h h1 r, Store.idx d k h = (Ok r, h1) ->
             (exists ls, h1 = h ++ map Store.OLeaf ls)
             /\ (Store.inside h d r
                 \/ (length h <= r /\ exists a, nth_error h1 r = Some (Store.OLeaf a)))).
  { intros d k h h1 r E.
    apply idx_result in E as [[-> [o [Ho Hin]]]|[o [a [Ho [_ [-> ->]]]]]].
    - split; [exists []; cbn; rewrite app_nil_r; reflexivity|].
      left. eapply Store.inside_child; eassumption.
    - split; [exists [a]; reflexivity|]. right. split; [lia|]. exists a.
      rewrite nth_error_app2, Nat.sub_diag by lia. reflexivity. }
  destruct key as [k|ks]; cbn [Store.data_index]; [intros; eapply Hone; eassumption|].
  induction ks as [|k ks IH]; intros data h h1 r; cbn [Store.data_index_keys];
    [discriminate|].
  destruct ks as [|k' ks]; [apply Hone|].
  unfold mbind. destruct (Store.idx data k h) as [[d1|e] h0] eqn:E1; [|discriminate].
  intros E2. apply IH in E2 as [[ls Hls] Hr].
  apply idx_result in E1 as [[-> [o [Ho Hin]]]|[o [a [Ho [_ [-> ->]]]]]].
  - split; [exists ls; exact Hls|].
    destruct Hr as [Hr|Hr]; [left|right; exact Hr].
    eapply Store.inside_deeper; eassumption.
  - split; [exists (a :: ls); rewrite Hls, <- app_assoc; reflexivity|].
    right. destruct Hr as [Hr|[Hlen Ha]].
    + exfalso. assert (Hleaf : nth_error (h ++ [Store.OLeaf a]) (length h)
                               = Some (Store.OLeaf a))
        by (rewrite nth_error_app2, Nat.sub_diag by lia; reflexivity).
      inversion Hr as [p o' c Hp Hc|p o' c r' Hp Hc _]; subst;
        rewrite Hleaf in Hp; inversion Hp; subst; exact Hc.
    + split; [rewrite length_app in Hlen; lia | exact Ha].
Qed.

End StoreResults.

(** On an example, the functions on the store build the trees that the
    functions on trees return. *)
Lemma store_agrees_on_example :
  let h : Store.heap ndarray :=
    [Store.OLeaf (vector [1; 2; 3]%Z); Store.OLeaf (vector [4; 5; 6]%Z);
     Store.OList [1]; Store.ODict [(KStr "a", 0); (KStr "b", 2)]] in
  let t := Dict [(KStr "a", Leaf (vector [1; 2; 3]%Z));
                 (KStr "b", PyList [Leaf (vector [4; 5; 6]%Z)])] in
  let read {A} (run : result A * Store.heap ndarray) (f : Store.heap ndarray -> A -> option (tree ndarray)) :=
    match fst run with
    | Ok a => match f (snd run) a with Some x => Ok x | None => Raise TypeError end
    | Raise e => Raise e
    end in
  Store.tree_at 5 h 3 = Some t
  /\ read (Store.data_merge (fun ks => ks) 5 [3; 3] 0 h) (Store.tree_at 5)
     = data_merge (fun ks => ks) [t; t] 0
  /\ read (Store.flatten_dict_data 5 3 format_slash h) (Store.tree_at 5)
     = Ok (flatten_dict_data t format_slash)
  /\ read (Store.data_index 3 (Path [KStr "b"; KInt 0]) h) (Store.tree_at 5)
     = data_index t (Path [KStr "b"; KInt 0])
  /\ read (Store.data_mask 5 3 0 h) (Store.tree_at 5)
     = data_mask t (vector [1; 2; 3]%Z)
  /\ read (Store.data_split 5 3 2 0 h)
          (fun h' g => option_map PyList (all_some (map (Store.tree_at 5 h') (yielded g))))
     = Ok (PyList (yielded (data_split t 2 0))).
Proof.
  intros h t read. repeat split.
Qed.

(** C9 (amended).  None of [data_map] (with a callable that itself leaves
    the objects in place), [data_mask], [data_merge], [data_split],
    [flatten_dict_data] and [data_index] changes an object that existed
    before the call.  The first five build the containers they return:
    the object returned for a container (for [data_split], every yielded
    tree) did not exist before, unless it is the empty tuple, of which the
    interpreter keeps one.  [data_index] builds no container: the store
    grows only by the arrays that subscripts give, and what is returned is
    held by the input itself, or is such an array. *)
Theorem calls_leave_inputs_unchanged {L : Type} {AL : ArrayLib L} (h : Store.heap L) :
  (forall (Args KW : Type) (no_kwargs : KW) depth data
          (fun_ : Store.loc -> Args -> KW -> Store.H (L:=L) Store.loc) args kwargs,
      (forall l a k, Store.keeps (L:=L) (length h) (fun_ l a k) Store.any) ->
      Store.preserved h (snd (Store.data_map no_kwargs depth data fun_ args kwargs h))
      /\ forall o r,
           nth_error h data = Some o -> Store.is_container o = true ->
           fst (Store.data_map no_kwargs depth data fun_ args kwargs h) = Ok r ->
           length h <= r
           \/ nth_error (snd (Store.data_map no_kwargs depth data fun_ args kwargs h)) r
              = Some (Store.OTuple []))
  /\ (forall depth data select,
        Store.preserved h (snd (Store.data_mask depth data select h))
        /\ forall o r,
             nth_error h data = Some o -> Store.is_container o = true ->
             fst (Store.data_mask depth data select h) = Ok r ->
             length h <= r
             \/ nth_error (snd (Store.data_mask depth data select h)) r
                = Some (Store.OTuple []))
  /\ (forall set_iter depth data axis,
        Store.preserved h (snd (Store.data_merge set_iter depth data axis h))
        /\ forall r, fst (Store.data_merge set_iter depth data axis h) = Ok r ->
                     length h <= r
                     \/ nth_error (snd (Store.data_merge set_iter depth data axis h)) r
                        = Some (Store.OTuple []))
  /\ (forall depth data batch_size axis,
        Store.preserved h (snd (Store.data_split depth data batch_size axis h))
        /\ forall g, fst (Store.data_split depth data batch_size axis h) = Ok g ->
                     Forall (fun l => length h <= l) (yielded g))
  /\ (forall depth data fun_,
        Store.preserved h (snd (Store.flatten_dict_data depth data fun_ h))
        /\ forall o r,
             nth_error h data = Some o -> Store.is_container o = true ->
             fst (Store.flatten_dict_data depth data fun_ h) = Ok r -> length h <= r)
  /\ (forall data key, Store.preserved h (snd (Store.data_index data key h)))
  /\ (forall data k d,
        nth_error h data = Some (Store.ODict d) ->
        snd (Store.data_index data (One k) h) = h
        /\ forall r, fst (Store.data_index data (One k) h) = Ok r -> In r (values d))
  /\ (forall data key r h1,
        Store.data_index data key h = (Ok r, h1) ->
        (exists ls, h1 = h ++ map Store.OLeaf ls)
        /\ (Store.inside h data r
            \/ (length h <= r /\ exists a, nth_error h1 r = Some (Store.OLeaf a)))).
Proof.
  split; [|split; [|split; [|split; [|split; [|split; [|split]]]]]].
  - intros Args KW no_kwargs depth data fun_ args kwargs Hfun. split.
    + eapply keeps_preserved, data_map_keeps, Hfun.
    + intros o r Ho Hc. eapply data_map_new; eassumption.
  - intros depth data select. split.
    + eapply keeps_preserved, data_mask_keeps.
    + intros o r Ho Hc. unfold Store.data_mask. eapply data_map_new; try eassumption.
      intros l a k. unfold Store.tf_boolean_mask.
      apply keeps_bind_any; [eapply keeps_any, keeps_load|]. intros t.
      apply keeps_bind_any; [eapply keeps_any, keeps_load|]. intros m.
      destruct t; try apply keeps_raise. destruct m; try apply keeps_raise.
      apply keeps_bind_any; [eapply keeps_any, keeps_lift|]. intros x.
      eapply keeps_any, keeps_alloc.
  - intros set_iter depth data axis. split.
    + eapply keeps_preserved, data_merge_keeps.
    + intros r. apply data_merge_new.
  - intros depth data batch_size axis. split.
    + eapply keeps_preserved, data_split_keeps.
    + intros g. apply (keeps_result _ (Store.yields_new (length h))).
      apply data_split_keeps.
  - intros depth data fun_. split.
    + eapply keeps_preserved, flatten_dict_data_keeps.
    + intros o r. apply flatten_dict_data_new.
  - intros data key. eapply keeps_preserved, data_index_keeps.
  - intros data k d. apply data_index_alias.
  - intros data key r h1. apply data_index_result.
Qed.

Lemma calls_leave_inputs_unchanged_witness :
  let h : Store.heap ndarray :=
    [Store.OLeaf (vector [1; 2; 3]%Z); Store.OLeaf (vector [4; 5; 6]%Z);
     Store.OList [1]; Store.ODict [(KStr "a", 0); (KStr "b", 2)]] in
  let fun_ := fun (l : Store.loc) (_ _ : unit) => @mret (Store.heap ndarray) _ l in
  fst (Store.data_map tt 5 3 fun_ tt None h) = Ok 5
  /\ Store.preserved h (snd (Store.data_map tt 5 3 fun_ tt None h))
  /\ forall o r,
       nth_error h 3 = Some o -> Store.is_container o = true ->
       fst (Store.data_map tt 5 3 fun_ tt None h) = Ok r ->
       length h <= r
       \/ nth_error (snd (Store.data_map tt 5 3 fun_ tt None h)) r = Some (Store.OTuple []).
Proof.
  intros h fun_. split; [reflexivity|].
  apply (proj1 (calls_leave_inputs_unchanged h) unit unit tt 5 3 fun_ tt None).
  intros l a k. apply keeps_ret. exact I.
Defined.

(** The empty tuple is shared: [data_map] and [data_merge] on it return
    the object they were given. *)
Lemma empty_tuple_is_returned :
  let h : Store.heap ndarray := [Store.OLeaf (vector [1]%Z); Store.OTuple []] in
  let fun_ := fun (l : Store.loc) (_ _ : unit) => @mret (Store.heap ndarray) _ l in
  Store.data_map tt 5 1 fun_ tt None h = (Ok 1, h)
  /\ Store.data_merge (fun ks => ks) 5 [1; 1] 0 h = (Ok 1, h).
Proof.
  intros h fun_. split; reflexivity.
Qed.

(** [data_index(tree, "decay")] returns the list held by the input mapping
    itself, the object at address 1, and builds no container. *)
Lemma data_index_returns_input_node :
  let h : Store.heap ndarray :=
    [Store.OLeaf (vector [1; 2]%Z); Store.OList [0];
     Store.ODict [(KStr "decay", 1)]] in
  Store.data_index 2 (One (KStr "decay")) h = (Ok 1, h)
  /\ nth_error h 1 = Some (Store.OList [0]).
Proof.
  intros h. split; reflexivity.
Qed.

(** * More of the module *)

(** ** data_map as a traversal of the leaves *)

Lemma mapM_ok_pointwise {S A B} (f : A -> M S B) (g : A -> B) (l : list A) (s : S) :
  (forall x, In x l -> forall s', f x s' = (Ok (g x), s')) ->
  mapM f l s = (Ok (map g l), s).
Proof.
  intros Hf. induction l as [|x l IH]; [reflexivity|].
  cbn [mapM map]. erewrite mbind_ok by (apply Hf; left; reflexivity).
  erewrite mbind_ok by (apply IH; intros y Hy; apply Hf; right; exact Hy).
  reflexivity.
Qed.

Lemma effect_then_ret {S A B} (m : M S A) (k : A -> B) (s : S) :
  effect (x <~ m ;; mret (k x)) s = effect m s.
Proof.
  unfold effect, mbind. destruct (m s) as [[a|e] s']; reflexivity.
Qed.

Lemma effect_bind {S A B A' B'} (m : M S A) (f : A -> M S B)
    (m' : M S A') (f' : A' -> M S B') (s : S) :
  effect m s = effect m' s ->
  (forall a a' s1, m s = (Ok a, s1) -> m' s = (Ok a', s1) ->
                   effect (f a) s1 = effect (f' a') s1) ->
  effect (mbind m f) s = effect (mbind m' f') s.
Proof.
  unfold effect, mbind. intros Hm Hf.
  destruct (m s) as [[a|e] s1]; destruct (m' s) as [[a'|e'] s1'];
    cbn in Hm; inversion Hm; subst.
  - apply (Hf a a' s1'); reflexivity.
  - reflexivity.
Qed.

Lemma mapM_app {S A B} (f : A -> M S B) (l1 l2 : list A) (s : S) :
  mapM f (l1 ++ l2) s
  = (xs <~ mapM f l1 ;; ys <~ mapM f l2 ;; mret (xs ++ ys)) s.
Proof.
  revert s. induction l1 as [|x l1 IH]; intros s; cbn [app mapM].
  - unfold mbind, mret. cbn. destruct (mapM f l2 s) as [[ys|e] s']; reflexivity.
  - unfold mbind, mret. destruct (f x s) as [[y|e] s1]; [|reflexivity].
    rewrite IH. unfold mbind, mret.
    destruct (mapM f l1 s1) as [[xs|e] s2]; [|reflexivity].
    destruct (mapM f l2 s2) as [[ys|e] s3]; reflexivity.
Qed.

Section DataMapTraversal.
Context {L L' Args KW S : Type}.
Variable no_kwargs : KW.
Variable fun_ : L -> Args -> KW -> M S (tree L').
Variable args : Args.

(** Where the callable returns the leaf [m a] and leaves the state alone
    on every leaf of the tree, [data_map] returns the tree of the [m a]. *)
Lemma data_map_pure_on_leaves (m : L -> L') (t : tree L) :
  forall kwargs s,
    (forall a, In a (leaves t) ->
               forall s', fun_ a args (or_default no_kwargs kwargs) s' = (Ok (Leaf (m a)), s')) ->
    data_map no_kwargs t fun_ args kwargs s = (Ok (tree_map m t), s).
Proof.
  induction t as [a|d IH|l IH|l IH] using tree_ind'; intros kwargs s Hfun;
    cbn [data_map tree_map].
  - apply Hfun. left. reflexivity.
  - erewrite mbind_ok; [reflexivity|].
    apply (mapM_ok_pointwise _ (fun kv => (fst kv, tree_map m (snd kv)))).
    intros kv Hkv s'. rewrite Forall_forall in IH.
    erewrite mbind_ok; [reflexivity|]. apply (IH kv Hkv (Some _)).
    intros a Ha. apply Hfun. cbn [leaves]. apply in_flat_map. eauto.
  - erewrite mbind_ok; [reflexivity|].
    apply (mapM_ok_pointwise _ (tree_map m)).
    intros v Hv s'. rewrite Forall_forall in IH. apply (IH v Hv (Some _)).
    intros a Ha. apply Hfun. cbn [leaves]. apply in_flat_map. eauto.
  - erewrite mbind_ok; [reflexivity|].
    apply (mapM_ok_pointwise _ (tree_map m)).
    intros v Hv s'. rewrite Forall_forall in IH. apply (IH v Hv (Some _)).
    intros a Ha. apply Hfun. cbn [leaves]. apply in_flat_map. eauto.
Qed.

Lemma effect_mapM_children {A B} (sub : A -> list L) (F : A -> M S B)
    (kw : KW) (l : list A) :
  Forall (fun x => forall s, effect (F x) s
                             = effect (mapM (fun a => fun_ a args kw) (sub x)) s) l ->
  forall s, effect (mapM F l) s
            = effect (mapM (fun a => fun_ a args kw) (flat_map sub l)) s.
Proof.
  induction 1 as [|x l Hx _ IH]; intros s; [reflexivity|].
  cbn [mapM flat_map].
  transitivity (effect (xs <~ mapM (fun a => fun_ a args kw) (sub x) ;;
                        ys <~ mapM (fun a => fun_ a args kw) (flat_map sub l) ;;
                        mret (xs ++ ys)) s).
  - apply effect_bind; [apply Hx|]. intros a a' s1 _ _.
    rewrite !effect_then_ret. apply IH.
  - unfold effect. rewrite mapM_app. reflexivity.
Qed.

(** The exception and the final state of [data_map] are those of calling
    the callable on the leaves, one after the other. *)
Lemma data_map_effect (t : tree L) :
  forall kwargs s,
    effect (data_map no_kwargs t fun_ args kwargs) s
    = effect (mapM (fun a => fun_ a args (or_default no_kwargs kwargs)) (leaves t)) s.
Proof.
  induction t as [a|d IH|l IH|l IH] using tree_ind'; intros kwargs s;
    cbn [data_map leaves].
  - cbn [mapM]. unfold effect, mbind, mret.
    destruct (fun_ a args (or_default no_kwargs kwargs) s) as [[v|e] s']; reflexivity.
  - rewrite effect_then_ret.
    apply (effect_mapM_children (fun kv => leaves (snd kv))).
    eapply Forall_impl; [|exact IH]. intros kv Hkv s'.
    rewrite effect_then_ret. apply (Hkv (Some _)).
  - rewrite effect_then_ret. apply (effect_mapM_children leaves).
    eapply Forall_impl; [|exact IH]. intros v Hv s'. apply (Hv (Some _)).
  - rewrite effect_then_ret. apply (effect_mapM_children leaves).
    eapply Forall_impl; [|exact IH]. intros v Hv s'. apply (Hv (Some _)).
Qed.

End DataMapTraversal.

Lemma tree_map_id {L} (t : tree L) : tree_map (fun a => a) t = t.
Proof.
  induction t as [a|d IH|l IH|l IH] using tree_ind'; cbn [tree_map].
  - reflexivity.
  - f_equal. rewrite <- (map_id d) at 2. apply map_ext_Forall.
    eapply Forall_impl; [|exact IH]. intros [k v] Hkv. cbn in *. rewrite Hkv. reflexivity.
  - f_equal. rewrite <- (map_id l) at 2. apply map_ext_Forall. exact IH.
  - f_equal. rewrite <- (map_id l) at 2. apply map_ext_Forall. exact IH.
Qed.

Lemma tree_map_compose {L L' L''} (f : L -> L') (g : L' -> L'') (t : tree L) :
  tree_map g (tree_map f t) = tree_map (fun a => g (f a)) t.
Proof.
  induction t as [a|d IH|l IH|l IH] using tree_ind'; cbn [tree_map].
  - reflexivity.
  - f_equal. rewrite map_map. apply map_ext_Forall.
    eapply Forall_impl; [|exact IH]. intros kv Hkv. cbn. rewrite Hkv. reflexivity.
  - f_equal. rewrite map_map. apply map_ext_Forall. exact IH.
  - f_equal. rewrite map_map. apply map_ext_Forall. exact IH.
Qed.

Lemma mapM_first_failure {S A B} (c : A -> M S B) (step : A -> S -> S) (fail : S -> S)
    (pre : list A) (a : A) (post : list A) (e : exn) (s : S) :
  (forall x, In x pre -> forall s', exists b, c x s' = (Ok b, step x s')) ->
  (forall s', c a s' = (Raise e, fail s')) ->
  mapM c (pre ++ a :: post) s
  = (Raise e, fail (fold_left (fun s' x => step x s') pre s)).
Proof.
  intros Hpre Ha. revert s. induction pre as [|x pre IH]; intros s; cbn [app mapM fold_left].
  - unfold mbind. rewrite Ha. reflexivity.
  - destruct (Hpre x (or_introl eq_refl) s) as [b Hb].
    erewrite mbind_ok by exact Hb. unfold mbind.
    rewrite IH by (intros y Hy; apply Hpre; right; exact Hy). reflexivity.
Qed.

Lemma mapM_all_ok {S A B} (c : A -> M S B) (step : A -> S -> S) (l : list A) (s : S) :
  (forall x, In x l -> forall s', exists b, c x s' = (Ok b, step x s')) ->
  exists bs, mapM c l s = (Ok bs, fold_left (fun s' x => step x s') l s).
Proof.
  revert s. induction l as [|x l IH]; intros s Hl; cbn [mapM fold_left].
  - eexists. reflexivity.
  - destruct (Hl x (or_introl eq_refl) s) as [b Hb].
    destruct (IH (step x s)) as [bs Hbs]; [intros y Hy; apply Hl; right; exact Hy|].
    exists (b :: bs). erewrite mbind_ok by exact Hb.
    erewrite mbind_ok by exact Hbs. reflexivity.
Qed.

Lemma fold_left_snoc {A B} (g : A -> B) (l : list A) (acc : list B) :
  fold_left (fun s' x => s' ++ [g x]) l acc = acc ++ map g l.
Proof.
  revert acc. induction l as [|x l IH]; intros acc; cbn [fold_left map].
  - symmetry. apply app_nil_r.
  - rewrite IH, <- app_assoc. reflexivity.
Qed.

Lemma effect_raise_inv {S A} (m : M S A) (s s' : S) (e : exn) :
  effect m s = (Some e, s') -> m s = (Raise e, s').
Proof.
  unfold effect. destruct (m s) as [[a|e'] s1]; cbn; intros E; inversion E; reflexivity.
Qed.

Lemma effect_ok_inv {S A} (m : M S A) (s s' : S) :
  effect m s = (None, s') -> exists a, m s = (Ok a, s').
Proof.
  unfold effect. destruct (m s) as [[a|e'] s1]; cbn; intros E; inversion E; eauto.
Qed.

(** X1.  Mapping the identity over a tree returns the tree, whatever its
    nesting, and touches no state. *)
Theorem data_map_identity {L Args KW S : Type} (no_kwargs : KW) (t : tree L)
    (args : Args) (kwargs : option KW) (s : S) :
  data_map no_kwargs t (fun a _ _ => mret (Leaf a)) args kwargs s = (Ok t, s).
Proof.
  rewrite (data_map_pure_on_leaves no_kwargs _ args (fun a => a)).
  - rewrite tree_map_id. reflexivity.
  - intros a _ s'. reflexivity.
Qed.

(** X2.  For callables without side effect that return one leaf each (an
    array, not a dict, list or tuple), mapping [f] and then [g] is mapping
    [g] after [f] in one pass. *)
Theorem data_map_composition {L L' L'' Args KW Args' KW' S : Type}
    (no_kwargs : KW) (no_kwargs' : KW')
    (f : L -> Args -> KW -> L') (g : L' -> Args' -> KW' -> L'')
    (t : tree L) (args : Args) (kwargs : option KW)
    (args' : Args') (kwargs' : option KW') (s : S) :
  (r <~ data_map no_kwargs t (pure_leaf f) args kwargs ;;
   data_map no_kwargs' r (pure_leaf g) args' kwargs') s
  = data_map tt t
      (pure_leaf (fun a (_ : unit) (_ : unit) =>
                    g (f a args (or_default no_kwargs kwargs))
                      args' (or_default no_kwargs' kwargs')))
      tt None s.
Proof.
  erewrite mbind_ok.
  2: { apply (data_map_pure_on_leaves no_kwargs _ args
                (fun a => f a args (or_default no_kwargs kwargs))).
       intros a _ s'. reflexivity. }
  rewrite (data_map_pure_on_leaves no_kwargs' _ args'
             (fun b => g b args' (or_default no_kwargs' kwargs')))
    by (intros b _ s'; reflexivity).
  rewrite (data_map_pure_on_leaves tt _ tt
             (fun a => g (f a args (or_default no_kwargs kwargs))
                         args' (or_default no_kwargs' kwargs')))
    by (intros a _ s'; reflexivity).
  rewrite tree_map_compose. reflexivity.
Qed.

(** X3.  When the callable raises on a leaf, [data_map] raises that
    exception: the callable has been called on the leaves before it, in
    order, and on it, and on no leaf after it. *)
Theorem data_map_first_exception {L L' Args KW : Type} (no_kwargs : KW)
    (f : L -> result L') (t : tree L) (args : Args) (kwargs : option KW)
    (pre : list L) (a : L) (post : list L) (e : exn) (log : list L) :
  leaves t = pre ++ a :: post ->
  (forall x, In x pre -> exists y, f x = Ok y) ->
  f a = Raise e ->
  data_map no_kwargs t (logged_raising f) args kwargs log
  = (Raise e, log ++ pre ++ [a]).
Proof.
  intros Hleaves Hpre Ha. apply effect_raise_inv.
  rewrite data_map_effect, Hleaves. unfold effect.
  rewrite (mapM_first_failure _ (fun x s' => s' ++ [x]) (fun s' => s' ++ [a])
             pre a post e).
  - cbn [fst snd outcome]. rewrite (fold_left_snoc (fun x => x)), map_id, app_assoc.
    reflexivity.
  - intros x Hx s'. destruct (Hpre x Hx) as [y Hy].
    unfold logged_raising. rewrite Hy. eauto.
  - intros s'. unfold logged_raising. rewrite Ha. reflexivity.
Qed.

Lemma data_map_first_exception_witness :
  let f := fun a : Z => if (a <? 0)%Z then Raise (ValueError "negative") else Ok a in
  let t := Dict [(KStr "a", Leaf 1%Z);
                 (KStr "b", PyList [Leaf 2%Z; Leaf (-3)%Z; Leaf 4%Z]);
                 (KStr "c", Leaf 5%Z)] in
  data_map tt t (logged_raising f) tt None []
  = (Raise (ValueError "negative"), [] ++ [1; 2]%Z ++ [(-3)%Z]).
Proof.
  intros f t.
  apply (data_map_first_exception tt f t tt None [1; 2]%Z (-3)%Z [4; 5]%Z).
  - reflexivity.
  - intros x [<-|[<-|[]]]; eexists; reflexivity.
  - reflexivity.
Defined.

(** ** data_shape *)

#[export] Instance ndarray_shape_laws : ShapeLaws ndarray.
Proof.
  split. intros a axis. cbn. unfold nd_shape_at.
  destruct (shape a); reflexivity.
Qed.

Section DataShapeFacts.
Context {L : Type} {AS : ArrayShape L}.

Lemma shapes_of_all (sh : L -> list nat) (t : tree L) :
  (forall a, In a (leaves t) -> shape_of a = Ok (sh a)) ->
  shapes_of t = Ok (map sh (leaves t)).
Proof.
  intros Hsh. unfold shapes_of.
  destruct (effect_ok_inv (data_map tt t data_list tt None) [] (map sh (leaves t)))
    as [r Hr].
  - rewrite data_map_effect. unfold effect.
    destruct (mapM_all_ok (fun a => data_list a tt (or_default tt None))
                (fun a ret => ret ++ [sh a]) (leaves t) []) as [bs Hbs].
    + intros a Ha ret. unfold data_list. rewrite (Hsh a Ha). eauto.
    + rewrite Hbs. cbn [fst snd outcome]. rewrite fold_left_snoc. reflexivity.
  - rewrite Hr. reflexivity.
Qed.

Lemma shapes_of_failure (sh : L -> list nat) (t : tree L)
    (pre : list L) (a : L) (post : list L) (e : exn) :
  leaves t = pre ++ a :: post ->
  (forall x, In x pre -> shape_of x = Ok (sh x)) ->
  shape_of a = Raise e ->
  shapes_of t = Raise e.
Proof.
  intros Hleaves Hpre Ha. unfold shapes_of.
  rewrite (effect_raise_inv (data_map tt t data_list tt None) []
             (fold_left (fun ret x => ret ++ [sh x]) pre []) e).
  - reflexivity.
  - rewrite data_map_effect, Hleaves. unfold effect.
    rewrite (mapM_first_failure _ (fun x ret => ret ++ [sh x]) (fun ret => ret)
               pre a post e).
    + reflexivity.
    + intros x Hx ret. unfold data_list. rewrite (Hpre x Hx). eauto.
    + intros ret. unfold data_list. rewrite Ha. reflexivity.
Qed.

Lemma data_shape_of_first (sh : L -> list nat) (t : tree L) (axis : Z)
    (a : L) (rest : list L) :
  leaves t = a :: rest ->
  (forall x, In x (leaves t) -> shape_of x = Ok (sh x)) ->
  data_shape t axis false = (n <- list_getitem (sh a) axis ;; Ok (Extent n)).
Proof.
  intros Hleaves Hsh. unfold data_shape.
  rewrite (shapes_of_all sh t Hsh), Hleaves. cbn [map bind].
  rewrite list_getitem_head. reflexivity.
Qed.

End DataShapeFacts.

(** X4.  With [all_list=True], [data_shape] returns the shape of every leaf,
    one entry per leaf in the order of the traversal, whatever [axis] is. *)
Theorem data_shape_all_list {L : Type} {AS : ArrayShape L}
    (sh : L -> list nat) (t : tree L) (axis : Z) :
  (forall a, In a (leaves t) -> shape_of a = Ok (sh a)) ->
  data_shape t axis true = Ok (AllShapes (map sh (leaves t))).
Proof.
  intros Hsh. unfold data_shape.
  rewrite (shapes_of_all sh t Hsh). reflexivity.
Qed.

Lemma data_shape_all_list_witness :
  let t := Dict [(KStr "m", Leaf (vector [1; 2; 3]%Z));
                 (KStr "p", PyTuple [Leaf (matrix [[1; 2]; [3; 4]; [5; 6]]%Z)])] in
  data_shape t 0 true = Ok (AllShapes [[3]; [3; 2]]).
Proof.
  intros t.
  apply (data_shape_all_list
           (fun a => match shape a with Some s => s | None => [] end) t 0%Z).
  intros a [<-|[<-|[]]]; reflexivity.
Defined.

(** X5.  Without [all_list], [data_shape] reports the extent of the first
    leaf only: the other leaves need not agree with it.  A tree without
    leaves gives [IndexError], and a leaf without a shape, wherever it is,
    makes the call fail. *)
Theorem data_shape_first_leaf {L : Type} {AS : ArrayShape L}
    (sh : L -> list nat) (t : tree L) (axis : Z) :
  (leaves t = [] -> data_shape t axis false = Raise IndexError)
  /\ (forall a rest,
        leaves t = a :: rest ->
        (forall x, In x (leaves t) -> shape_of x = Ok (sh x)) ->
        data_shape t axis false = (n <- list_getitem (sh a) axis ;; Ok (Extent n)))
  /\ (forall pre a post e all_list,
        leaves t = pre ++ a :: post ->
        (forall x, In x pre -> shape_of x = Ok (sh x)) ->
        shape_of a = Raise e ->
        data_shape t axis all_list = Raise e).
Proof.
  split; [|split].
  - intros Hnone. unfold data_shape.
    rewrite (shapes_of_all sh t) by (rewrite Hnone; intros a []).
    rewrite Hnone. reflexivity.
  - intros a rest Hleaves Hsh. apply (data_shape_of_first sh t axis a rest Hleaves Hsh).
  - intros pre a post e all_list Hleaves Hpre Ha. unfold data_shape.
    rewrite (shapes_of_failure sh t pre a post e Hleaves Hpre Ha). reflexivity.
Qed.

Lemma data_shape_first_leaf_witness :
  let t := Dict [(KStr "m", Leaf (vector [1; 2; 3]%Z));
                 (KStr "p", Leaf (vector [1; 2; 3; 4; 5]%Z))] in
  data_shape t 0 false = (n <- list_getitem [3] 0 ;; Ok (Extent n))
  /\ data_shape (Dict [(KStr "m", PyList [])] : tree ndarray) 0 false = Raise IndexError
  /\ data_shape (PyList [Leaf (vector [1]%Z); Leaf (Arr [Arr [Scalar 1%Z]; Arr []])]) 0 false
     = Raise (ArrayError 0).
Proof.
  intros t. split; [|split].
  - apply (proj1 (proj2 (data_shape_first_leaf
                           (fun a => match shape a with Some s => s | None => [] end)
                           t 0%Z))
             (vector [1; 2; 3]%Z) [vector [1; 2; 3; 4; 5]%Z]).
    + reflexivity.
    + intros x [<-|[<-|[]]]; reflexivity.
  - apply (proj1 (data_shape_first_leaf (fun _ => []) _ 0%Z)). reflexivity.
  - apply (proj2 (proj2 (data_shape_first_leaf
                           (fun a => match shape a with Some s => s | None => [] end)
                           _ 0%Z))
             [vector [1]%Z] (Arr [Arr [Scalar 1%Z]; Arr []]) [] (ArrayError 0) false).
    + reflexivity.
    + intros x [<-|[]]. reflexivity.
    + reflexivity.
Defined.

Lemma no_empty_has_leaf {L} (t : tree L) : no_empty t = true -> leaves t <> [].
Proof.
  induction t as [a|d IH|l IH|l IH] using tree_ind'; cbn [no_empty leaves]; intros Hne.
  - discriminate.
  - apply andb_true_iff in Hne as [Hlen Hne].
    destruct d as [|kv d]; [discriminate|]. cbn [flat_map forallb] in *.
    apply andb_true_iff in Hne as [Hkv _]. inversion IH as [|? ? IHkv _]; subst.
    specialize (IHkv Hkv). destruct (leaves (snd kv)); [congruence | discriminate].
  - apply andb_true_iff in Hne as [Hlen Hne].
    destruct l as [|v l]; [discriminate|]. cbn [flat_map forallb] in *.
    apply andb_true_iff in Hne as [Hv _]. inversion IH as [|? ? IHv _]; subst.
    specialize (IHv Hv). destruct (leaves v); [congruence | discriminate].
  - apply andb_true_iff in Hne as [Hlen Hne].
    destruct l as [|v l]; [discriminate|]. cbn [flat_map forallb] in *.
    apply andb_true_iff in Hne as [Hv _]. inversion IH as [|? ? IHv _]; subst.
    specialize (IHv Hv). destruct (leaves v); [congruence | discriminate].
Qed.

(** X6.  For a tree without empty containers whose leaves all have extent
    [n] on the first axis, [data_shape] reports [n], and [data_split] with a
    batch size [b >= 1] yields [ceil(n / b)] batches: the number of batches
    can be computed from [data_shape]. *)
Theorem data_split_count_from_data_shape {L : Type} {AL : ArrayLib L}
    {AS : ArrayShape L} {SL : ShapeLaws L}
    (t : tree L) (n : nat) (batch_size : Z) :
  no_empty t = true ->
  (forall a, In a (leaves t) -> shape_at a 0 = Ok n) ->
  (1 <= batch_size)%Z ->
  data_shape t 0 false = Ok (Extent n)
  /\ produced (data_split t batch_size 0)
     = (n + Z.to_nat batch_size - 1) / Z.to_nat batch_size
  /\ ending (data_split t batch_size 0) = None.
Proof.
  intros Hne Hshape Hb. split.
  - assert (Hsh : forall a, In a (leaves t) ->
               exists s, shape_of a = Ok s /\ list_getitem s 0 = Ok n).
    { intros a Ha. specialize (Hshape a Ha). rewrite shape_at_shape_of in Hshape.
      destruct (shape_of a) as [s|e]; [eauto | discriminate]. }
    set (sh := fun a => match shape_of a with Ok s => s | Raise _ => [] end).
    destruct (leaves t) as [|a rest] eqn:El.
    { exfalso. apply (no_empty_has_leaf t Hne El). }
    rewrite (data_shape_of_first sh t 0%Z a rest).
    + destruct (Hsh a (or_introl eq_refl)) as [s [Hs Hn]].
      unfold sh. rewrite Hs, Hn. reflexivity.
    + exact El.
    + intros x Hx. rewrite El in Hx. destruct (Hsh x Hx) as [s [Hs _]].
      unfold sh. rewrite Hs. reflexivity.
  - set (b := Z.to_nat batch_size).
    set (h := fun (j : nat) (a : L) => slice_first a (j * b) (Nat.min (j * b + b) n)).
    assert (Hsplit : data_split t batch_size 0
                     = Gen (map (fun j => tree_map (h j) t) (seq 0 ((n + b - 1) / b))) None).
    { unfold data_split. apply data_generator_uniform; [exact Hne|].
      intros a Ha. rewrite (_data_split_batches a batch_size n (Hshape a Ha) Hb).
      unfold batch_starts. rewrite map_map. reflexivity. }
    rewrite Hsplit. unfold produced. cbn [yielded ending].
    rewrite length_map, length_seq. split; reflexivity.
Qed.

Lemma data_split_count_from_data_shape_witness :
  let t := Dict [(KStr "m", Leaf (vector [1; 2; 3; 4; 5]%Z));
                 (KStr "p", PyList [Leaf (matrix [[1; 2]; [3; 4]; [5; 6]; [7; 8]; [9; 10]]%Z)])] in
  data_shape t 0 false = Ok (Extent 5)
  /\ produced (data_split t 2 0) = (5 + Z.to_nat 2 - 1) / Z.to_nat 2
  /\ ending (data_split t 2 0) = None.
Proof.
  intros t. apply (data_split_count_from_data_shape t 5 2%Z).
  - reflexivity.
  - intros a [<-|[<-|[]]]; reflexivity.
  - lia.
Defined.

(** ** data_mask *)

(** X7.  [data_mask] applies the mask to every leaf and keeps the containers:
    when the mask fits every leaf the result is the tree of the masked
    leaves; when it does not fit some leaf, the error of the first such leaf
    is raised. *)
Theorem data_mask_every_leaf {L : Type} {AL : ArrayLib L}
    (t : tree L) (select : L) :
  (forall m : L -> L,
      (forall a, In a (leaves t) -> boolean_mask a select = Ok (m a)) ->
      data_mask t select = Ok (tree_map m t))
  /\ (forall pre a post e,
        leaves t = pre ++ a :: post ->
        (forall x, In x pre -> exists y, boolean_mask x select = Ok y) ->
        boolean_mask a select = Raise e ->
        data_mask t select = Raise e).
Proof.
  split.
  - intros m Hm. unfold data_mask.
    rewrite (data_map_pure_on_leaves tt _ select m).
    + reflexivity.
    + intros a Ha s'. rewrite (Hm a Ha). reflexivity.
  - intros pre a post e Hleaves Hpre Ha. unfold data_mask.
    rewrite (effect_raise_inv _ tt tt e); [reflexivity|].
    rewrite data_map_effect, Hleaves. unfold effect.
    rewrite (mapM_first_failure _ (fun _ s' => s') (fun s' => s') pre a post e).
    + f_equal. clear. induction pre as [|x pre IH]; [reflexivity | exact IH].
    + intros x Hx s'. destruct (Hpre x Hx) as [y Hy]. rewrite Hy. cbn. eauto.
    + intros s'. rewrite Ha. reflexivity.
Qed.

Lemma data_mask_every_leaf_witness :
  let t := Dict [(KStr "m", Leaf (vector [1; 2; 3]%Z));
                 (KStr "p", PyList [Leaf (matrix [[1; 2]; [3; 4]; [5; 6]]%Z)])] in
  let select := vector [1; 0; 1]%Z in
  data_mask t select
    = Ok (Dict [(KStr "m", Leaf (vector [1; 3]%Z));
                (KStr "p", PyList [Leaf (matrix [[1; 2]; [5; 6]]%Z)])])
  /\ data_mask (PyList [Leaf (vector [1; 2; 3]%Z); Leaf (vector [1; 2]%Z)]) select
     = Raise (ArrayError 3).
Proof.
  intros t select. split.
  - apply (proj1 (data_mask_every_leaf t select)
             (fun a => match nd_boolean_mask a select with Ok x => x | Raise _ => a end)).
    intros a [<-|[<-|[]]]; reflexivity.
  - apply (proj2 (data_mask_every_leaf _ select) [vector [1; 2; 3]%Z] (vector [1; 2]%Z) []).
    + reflexivity.
    + intros x [<-|[]]. eexists. reflexivity.
    + reflexivity.
Defined.

(** ** The trees a generator yields *)

Lemma next_all_heads {A} (gs : list (gen A)) :
  forall hs ts, next_all gs = inl (hs, ts) ->
                Forall2 (fun g h => nth_error (yielded g) 0 = Some h) gs hs.
Proof.
  induction gs as [|g gs IH]; cbn [next_all]; intros hs ts E.
  - inversion E. constructor.
  - destruct (yielded g) as [|x xs] eqn:Ex; [discriminate|].
    destruct (next_all gs) as [[hs' ts']|e]; [|discriminate].
    inversion E; subst. constructor; [rewrite Ex; reflexivity | eapply IH; reflexivity].
Qed.

Lemma next_all_tails {A} (j : nat) (gs : list (gen A)) :
  forall hs ts col,
    next_all gs = inl (hs, ts) ->
    Forall2 (fun t x => nth_error (yielded t) j = Some x) ts col ->
    Forall2 (fun g x => nth_error (yielded g) (S j) = Some x) gs col.
Proof.
  induction gs as [|g gs IH]; cbn [next_all]; intros hs ts col E Hts.
  - inversion E; subst. inversion Hts. constructor.
  - destruct (yielded g) as [|x xs] eqn:Ex; [discriminate|].
    destruct (next_all gs) as [[hs' ts']|e]; [|discriminate].
    inversion E; subst. inversion Hts; subst.
    constructor; [rewrite Ex; assumption | eapply IH; [reflexivity | assumption]].
Qed.

Lemma zip_gen_rounds_nth {A} (n : nat) :
  forall (gs : list (gen A)) (j : nat) (col : list A),
    nth_error (yielded (zip_gen_rounds n gs)) j = Some col ->
    Forall2 (fun g x => nth_error (yielded g) j = Some x) gs col.
Proof.
  induction n as [|n IH]; intros gs j col; cbn [zip_gen_rounds].
  - destruct j; discriminate.
  - destruct (next_all gs) as [[hs ts]|e] eqn:E; [|destruct j; discriminate].
    destruct j as [|j]; cbn.
    + intros E'. inversion E'. subst. eapply next_all_heads, E.
    + intros E'. apply IH in E'. eapply next_all_tails; eassumption.
Qed.

(** Round [j] of [zip] holds value [j] of every generator. *)
Lemma zip_gens_nth {A} (vs : list (gen A)) (j : nat) (col : list A) :
  nth_error (yielded (zip_gens vs)) j = Some col ->
  Forall2 (fun g x => nth_error (yielded g) j = Some x) vs col.
Proof.
  destruct vs as [|g gs]; [destruct j; discriminate|].
  apply zip_gen_rounds_nth.
Qed.

Lemma gen_map_nth {A B} (f : A -> B) (g : gen A) (j : nat) (y : B) :
  nth_error (yielded (gen_map f g)) j = Some y ->
  exists x, nth_error (yielded g) j = Some x /\ y = f x.
Proof.
  unfold gen_map. cbn [yielded]. rewrite nth_error_map.
  destruct (nth_error (yielded g) j) as [x|]; [|discriminate].
  intros E. inversion E. eauto.
Qed.

Section LeafAt.
Context {L : Type}.

Lemma leaf_at_dict (k : key) (p : list step) (d : list (key * tree L)) :
  leaf_at (AtKey k :: p) (Dict d)
  = match dict_get k d with Some v => leaf_at p v | None => None end.
Proof. unfold leaf_at. cbn [subtree]. destruct (dict_get k d); reflexivity. Qed.

Lemma leaf_at_list (i : nat) (p : list step) (l : list (tree L)) :
  leaf_at (AtPos i :: p) (PyList l)
  = match nth_error l i with Some v => leaf_at p v | None => None end.
Proof. unfold leaf_at. cbn [subtree]. destruct (nth_error l i); reflexivity. Qed.

Lemma leaf_at_tuple (i : nat) (p : list step) (l : list (tree L)) :
  leaf_at (AtPos i :: p) (PyTuple l)
  = match nth_error l i with Some v => leaf_at p v | None => None end.
Proof. unfold leaf_at. cbn [subtree]. destruct (nth_error l i); reflexivity. Qed.

Lemma dict_get_combine {A B} (Q : A -> B -> Prop) (k : key) (d : list (key * A))
    (col : list B) (v : A) :
  Forall2 (fun kv x => Q (snd kv) x) d col ->
  dict_get k d = Some v ->
  exists x, dict_get k (combine (keys d) col) = Some x /\ Q v x.
Proof.
  induction 1 as [|[k' w] x d col Hx _ IH]; cbn; [discriminate|].
  destruct (key_eqb k k').
  - intros E. inversion E. subst. eauto.
  - exact IH.
Qed.

Lemma nth_error_Forall2 {A B} (Q : A -> B -> Prop) (i : nat) (l : list A)
    (col : list B) (v : A) :
  Forall2 Q l col -> nth_error l i = Some v ->
  exists x, nth_error col i = Some x /\ Q v x.
Proof.
  intros H2. revert i. induction H2 as [|w x l col Hx _ IH]; intros [|i]; cbn;
    try discriminate.
  - intros E. inversion E. subst. eauto.
  - apply IH.
Qed.

Lemma skeleton_combine (d : list (key * tree L)) (col : list (tree L)) :
  Forall2 (fun kv x => skeleton x = skeleton (snd kv)) d col ->
  skeleton (Dict (combine (keys d) col)) = skeleton (Dict d).
Proof.
  intros H2. cbn [skeleton]. f_equal. unfold keys.
  induction H2 as [|[k w] x d col Hx _ IH]; cbn [map combine fst snd]; [reflexivity|].
  cbn [snd] in Hx. rewrite Hx, IH. reflexivity.
Qed.

Lemma skeleton_list (l col : list (tree L)) :
  Forall2 (fun v x => skeleton x = skeleton v) l col ->
  map skeleton col = map skeleton l.
Proof.
  induction 1 as [|w x l col Hx _ IH]; cbn; [reflexivity|].
  rewrite Hx, IH. reflexivity.
Qed.

End LeafAt.

Section GeneratorTrees.
Context {L : Type} {Args KW : Type}.
Variable no_kwargs : KW.
Variable fun_ : L -> Args -> KW -> gen (tree L).
Variable args : Args.
Hypothesis yields_leaves :
  forall a kw x, In x (yielded (fun_ a args kw)) -> is_leaf x = true.

Lemma data_generator_nth (t : tree L) :
  forall kwargs j tr,
    nth_error (yielded (data_generator no_kwargs t fun_ args kwargs)) j = Some tr ->
    cut_of fun_ args (or_default no_kwargs kwargs) j t tr.
Proof.
  induction t as [a|d IH|l IH|l IH] using tree_ind'; intros kwargs j tr Hj;
    cbn [data_generator] in Hj.
  - assert (Hleaf := yields_leaves a _ tr (nth_error_In _ _ Hj)).
    destruct tr as [x| | |]; try discriminate. split; [reflexivity|].
    intros p a' Hp. destruct p as [|[k|i] p]; cbn in Hp; try discriminate.
    inversion Hp; subst a'. exists x. split; [exact Hj | reflexivity].
  - apply gen_map_nth in Hj as [col [Hcol ->]]. apply zip_gens_nth in Hcol.
    apply Forall2_map_left in Hcol.
    assert (Hcut : Forall2 (fun kv x => cut_of fun_ args (or_default no_kwargs kwargs) j (snd kv) x)
                     d col).
    { clear - IH Hcol. induction Hcol as [|kv x d col Hx _ IHc]; [constructor|].
      inversion IH; subst. constructor; [|apply IHc; assumption].
      apply (H1 (Some _) j x Hx). }
    split.
    + apply skeleton_combine. eapply Forall2_impl; [|exact Hcut].
      intros kv x [Hs _]. exact Hs.
    + intros p a Hp. destruct p as [|[k|i] p]; try discriminate.
      rewrite leaf_at_dict in Hp |- *.
      destruct (dict_get k d) as [v|] eqn:Ev; [|discriminate].
      destruct (dict_get_combine (cut_of fun_ args (or_default no_kwargs kwargs) j) k d col v Hcut Ev)
        as [x [Hx [_ Hleafs]]].
      rewrite Hx. apply Hleafs, Hp.
  - apply gen_map_nth in Hj as [col [Hcol ->]]. apply zip_gens_nth in Hcol.
    apply Forall2_map_left in Hcol.
    assert (Hcut : Forall2 (cut_of fun_ args (or_default no_kwargs kwargs) j) l col).
    { clear - IH Hcol. induction Hcol as [|v x l col Hx _ IHc]; [constructor|].
      inversion IH; subst. constructor; [|apply IHc; assumption].
      apply (H1 (Some _) j x Hx). }
    split.
    + cbn [skeleton]. f_equal. apply skeleton_list.
      eapply Forall2_impl; [|exact Hcut]. intros v x [Hs _]. exact Hs.
    + intros p a Hp. destruct p as [|[k|i] p]; try discriminate.
      rewrite leaf_at_list in Hp |- *.
      destruct (nth_error l i) as [v|] eqn:Ev; [|discriminate].
      destruct (nth_error_Forall2 _ i l col v Hcut Ev) as [x [Hx [_ Hleafs]]].
      rewrite Hx. apply Hleafs, Hp.
  - apply gen_map_nth in Hj as [col [Hcol ->]]. apply zip_gens_nth in Hcol.
    apply Forall2_map_left in Hcol.
    assert (Hcut : Forall2 (cut_of fun_ args (or_default no_kwargs kwargs) j) l col).
    { clear - IH Hcol. induction Hcol as [|v x l col Hx _ IHc]; [constructor|].
      inversion IH; subst. constructor; [|apply IHc; assumption].
      apply (H1 (Some _) j x Hx). }
    split.
    + cbn [skeleton]. f_equal. apply skeleton_list.
      eapply Forall2_impl; [|exact Hcut]. intros v x [Hs _]. exact Hs.
    + intros p a Hp. destruct p as [|[k|i] p]; try discriminate.
      rewrite leaf_at_tuple in Hp |- *.
      destruct (nth_error l i) as [v|] eqn:Ev; [|discriminate].
      destruct (nth_error_Forall2 _ i l col v Hcut Ev) as [x [Hx [_ Hleafs]]].
      rewrite Hx. apply Hleafs, Hp.
Qed.

End GeneratorTrees.

Section SplitTrees.
Context {L : Type} {AL : ArrayLib L}.

Lemma _data_split_yields_leaves (a : L) (batch_size axis : Z) (x : tree L) :
  In x (yielded (_data_split a batch_size axis)) -> is_leaf x = true.
Proof.
  unfold _data_split.
  destruct (shape_at a axis) as [n|e]; [|intros []].
  destruct (axis =? 0)%Z.
  - destruct (range_from_0 n batch_size) as [starts|e]; [|intros []].
    cbn [yielded]. intros Hin. apply in_map_iff in Hin as [i [<- _]]. reflexivity.
  - destruct (axis =? -1)%Z; [|intros []].
    destruct (range_from_0 n batch_size) as [starts|e]; [|intros []].
    cbn [yielded]. intros Hin. apply in_map_iff in Hin as [i [<- _]]. reflexivity.
Qed.

Lemma data_split_nth (t : tree L) (batch_size axis : Z) (j : nat) (tr : tree L) :
  nth_error (yielded (data_split t batch_size axis)) j = Some tr ->
  cut_of (fun dat b ax => _data_split dat b ax) batch_size axis j t tr.
Proof.
  intros Hj. unfold data_split in Hj.
  apply (data_generator_nth 0%Z (fun dat b ax => _data_split dat b ax) batch_size) in Hj.
  - exact Hj.
  - intros a kw x. apply _data_split_yields_leaves.
Qed.

Lemma nth_batch_start (n b j i : nat) :
  nth_error (batch_starts n b) j = Some i -> i = j * b.
Proof.
  unfold batch_starts. rewrite nth_error_map, nth_error_seq.
  destruct (Nat.ltb j ((n + b - 1) / b)); cbn; intros E; inversion E. reflexivity.
Qed.

End SplitTrees.

(** X8.  Every tree that [data_split] yields has the containers of the
    input: the same kinds, the same keys in the same order, the same
    lengths. *)
Theorem data_split_batches_keep_structure {L : Type} {AL : ArrayLib L}
    (t : tree L) (batch_size axis : Z) (j : nat) (tr : tree L) :
  nth_error (yielded (data_split t batch_size axis)) j = Some tr ->
  skeleton tr = skeleton t.
Proof.
  intros Hj. destruct (data_split_nth t batch_size axis j tr Hj) as [Hs _].
  exact Hs.
Qed.

Lemma data_split_batches_keep_structure_witness :
  let t := Dict [(KStr "a", Leaf (vector [1; 2; 3; 4; 5]%Z));
                 (KStr "b", PyTuple [Leaf (vector [1; 2; 3]%Z)])] in
  let tr := Dict [(KStr "a", Leaf (vector [3; 4]%Z));
                  (KStr "b", PyTuple [Leaf (vector [3]%Z)])] in
  skeleton tr = skeleton t.
Proof.
  intros t tr.
  apply (data_split_batches_keep_structure t 2%Z 0%Z 1 tr). reflexivity.
Defined.

(** X9.  The batches advance in lockstep: in the [j]-th tree that
    [data_split] yields, the leaf at every path is the [j]-th slice of the
    input leaf at that path; on the first axis with [batch_size >= 1] it is
    [dat[j*batch_size : min((j+1)*batch_size, n)]]. *)
Theorem data_split_batches_in_lockstep {L : Type} {AL : ArrayLib L}
    (t : tree L) (batch_size axis : Z) (j : nat) (tr : tree L)
    (p : list step) (a : L) :
  nth_error (yielded (data_split t batch_size axis)) j = Some tr ->
  leaf_at p t = Some a ->
  exists x,
    nth_error (yielded (_data_split a batch_size axis)) j = Some (Leaf x)
    /\ leaf_at p tr = Some x
    /\ forall n, axis = 0%Z -> shape_at a 0 = Ok n -> (1 <= batch_size)%Z ->
                 x = slice_first a (j * Z.to_nat batch_size)
                       (Nat.min (j * Z.to_nat batch_size + Z.to_nat batch_size) n).
Proof.
  intros Hj Hp. destruct (data_split_nth t batch_size axis j tr Hj) as [_ Hleaf].
  destruct (Hleaf p a Hp) as [x [Hx Hat]].
  exists x. split; [exact Hx|]. split; [exact Hat|].
  intros n -> Hn Hb. rewrite (_data_split_batches a batch_size n Hn Hb) in Hx.
  cbn [yielded] in Hx. rewrite nth_error_map in Hx.
  destruct (nth_error (batch_starts n (Z.to_nat batch_size)) j) as [i|] eqn:Ei;
    [|discriminate].
  apply nth_batch_start in Ei. subst i. cbn in Hx. inversion Hx. reflexivity.
Qed.

Lemma data_split_batches_in_lockstep_witness :
  let t := Dict [(KStr "a", Leaf (vector [1; 2; 3; 4; 5]%Z));
                 (KStr "b", PyTuple [Leaf (vector [1; 2; 3]%Z)])] in
  let tr := Dict [(KStr "a", Leaf (vector [3; 4]%Z));
                  (KStr "b", PyTuple [Leaf (vector [3]%Z)])] in
  exists x,
    nth_error (yielded (_data_split (vector [1; 2; 3]%Z) 2 0)) 1 = Some (Leaf x)
    /\ leaf_at [AtKey (KStr "b"); AtPos 0] tr = Some x
    /\ forall n, 0%Z = 0%Z -> shape_at (vector [1; 2; 3]%Z) 0 = Ok n -> (1 <= 2)%Z ->
                 x = slice_first (vector [1; 2; 3]%Z) (1 * Z.to_nat 2)
                       (Nat.min (1 * Z.to_nat 2 + Z.to_nat 2) n).
Proof.
  intros t tr.
  apply (data_split_batches_in_lockstep t 2%Z 0%Z 1 tr
           [AtKey (KStr "b"); AtPos 0] (vector [1; 2; 3]%Z)); reflexivity.
Defined.

Section SilentGenerators.
Context {L : Type} {Args KW : Type}.
Variable no_kwargs : KW.
Variable fun_ : L -> Args -> KW -> gen (tree L).
Variable args : Args.

Lemma zip_gens_first_empty {A} (g : gen A) (gs : list (gen A)) :
  yielded g = [] -> zip_gens (g :: gs) = Gen [] (ending g).
Proof.
  intros Hg. unfold zip_gens. rewrite Hg. cbn [length zip_gen_rounds next_all].
  rewrite Hg. reflexivity.
Qed.

(** When no leaf yields anything, the generator yields nothing, and it ends
    the way the generator of the first leaf ends. *)
Lemma data_generator_silent (t : tree L) :
  forall kw a0 rest,
    no_empty t = true ->
    leaves t = a0 :: rest ->
    (forall a, In a (leaves t) -> yielded (fun_ a args kw) = []) ->
    data_generator no_kwargs t fun_ args (Some kw) = Gen [] (ending (fun_ a0 args kw)).
Proof.
  induction t as [a|d IH|l IH|l IH] using tree_ind'; intros kw a0 rest Hne Hleaves Hsilent;
    cbn [data_generator or_default].
  - cbn [leaves] in Hleaves. inversion Hleaves; subst a0.
    specialize (Hsilent a (or_introl eq_refl)).
    destruct (fun_ a args kw) as [ys e]. cbn in *. subst. reflexivity.
  - cbn [no_empty] in Hne. apply andb_true_iff in Hne as [_ Hne].
    destruct d as [|kv d]; [discriminate|].
    cbn [forallb] in Hne. apply andb_true_iff in Hne as [Hkv _].
    inversion IH as [|? ? IHkv _]; subst. cbn [leaves flat_map] in Hleaves, Hsilent.
    destruct (leaves (snd kv)) as [|a1 rest1] eqn:E1.
    { exfalso. apply (no_empty_has_leaf _ Hkv E1). }
    cbn [app] in Hleaves. inversion Hleaves; subst a0.
    specialize (IHkv kw a1 rest1 Hkv eq_refl).
    cbn [map]. rewrite IHkv by (intros a Ha; apply Hsilent, in_or_app; left; exact Ha).
    rewrite zip_gens_first_empty by reflexivity. reflexivity.
  - cbn [no_empty] in Hne. apply andb_true_iff in Hne as [_ Hne].
    destruct l as [|v l]; [discriminate|].
    cbn [forallb] in Hne. apply andb_true_iff in Hne as [Hv _].
    inversion IH as [|? ? IHv _]; subst. cbn [leaves flat_map] in Hleaves, Hsilent.
    destruct (leaves v) as [|a1 rest1] eqn:E1.
    { exfalso. apply (no_empty_has_leaf _ Hv E1). }
    cbn [app] in Hleaves. inversion Hleaves; subst a0.
    specialize (IHv kw a1 rest1 Hv eq_refl).
    cbn [map]. rewrite IHv by (intros a Ha; apply Hsilent, in_or_app; left; exact Ha).
    rewrite zip_gens_first_empty by reflexivity. reflexivity.
  - cbn [no_empty] in Hne. apply andb_true_iff in Hne as [_ Hne].
    destruct l as [|v l]; [discriminate|].
    cbn [forallb] in Hne. apply andb_true_iff in Hne as [Hv _].
    inversion IH as [|? ? IHv _]; subst. cbn [leaves flat_map] in Hleaves, Hsilent.
    destruct (leaves v) as [|a1 rest1] eqn:E1.
    { exfalso. apply (no_empty_has_leaf _ Hv E1). }
    cbn [app] in Hleaves. inversion Hleaves; subst a0.
    specialize (IHv kw a1 rest1 Hv eq_refl).
    cbn [map]. rewrite IHv by (intros a Ha; apply Hsilent, in_or_app; left; exact Ha).
    rewrite zip_gens_first_empty by reflexivity. reflexivity.
Qed.

End SilentGenerators.

(** X10.  Misuse of [data_split] on a tree without empty containers whose
    leaves have an extent on the axis: a batch size of 0 raises the
    [ValueError] of [range] when the batches are asked for; a negative
    batch size gives no batch and no error; an axis other than 0 and -1
    raises the "unsupported axis" exception.  No batch is yielded before
    the exception. *)
Theorem data_split_misuse {L : Type} {AL : ArrayLib L}
    (t : tree L) (batch_size axis : Z) :
  no_empty t = true ->
  (forall a, In a (leaves t) -> exists n, shape_at a axis = Ok n) ->
  (axis = 0%Z \/ axis = (-1)%Z -> batch_size = 0%Z ->
   data_split t batch_size axis
   = Gen [] (Some (ValueError "range() arg 3 must not be zero")))
  /\ (axis = 0%Z \/ axis = (-1)%Z -> (batch_size < 0)%Z ->
      data_split t batch_size axis = Gen [] None)
  /\ (axis <> 0%Z -> axis <> (-1)%Z ->
      data_split t batch_size axis
      = Gen [] (Some (Exception_ ("unsupported axis: " ++ str (KInt axis))))).
Proof.
  intros Hne Hshape.
  destruct (leaves t) as [|a0 rest] eqn:El.
  { exfalso. apply (no_empty_has_leaf t Hne El). }
  assert (Hrun : forall g,
             (forall a, In a (a0 :: rest) -> _data_split a batch_size axis = g) ->
             yielded g = [] ->
             data_split t batch_size axis = Gen [] (ending g)).
  { intros g Hg Hnil. unfold data_split.
    rewrite (data_generator_silent 0%Z _ batch_size t axis a0 rest Hne El).
    - rewrite (Hg a0 (or_introl eq_refl)). reflexivity.
    - intros a Ha. rewrite El in Ha. rewrite (Hg a Ha). exact Hnil. }
  split; [|split].
  - intros Haxis ->.
    apply (Hrun (Gen [] (Some (ValueError "range() arg 3 must not be zero"))));
      [|reflexivity].
    intros a Ha. destruct (Hshape a Ha) as [n Hn]. unfold _data_split. rewrite Hn.
    destruct Haxis as [-> | ->]; reflexivity.
  - intros Haxis Hneg. apply (Hrun (Gen [] None)); [|reflexivity].
    intros a Ha. destruct (Hshape a Ha) as [n Hn]. unfold _data_split. rewrite Hn.
    unfold range_from_0.
    replace (batch_size =? 0)%Z with false by (symmetry; apply Z.eqb_neq; lia).
    replace (batch_size <? 0)%Z with true by (symmetry; apply Z.ltb_lt; lia).
    destruct Haxis as [-> | ->]; reflexivity.
  - intros H0 H1.
    apply (Hrun (Gen [] (Some (Exception_ ("unsupported axis: " ++ str (KInt axis))))));
      [|reflexivity].
    intros a Ha. destruct (Hshape a Ha) as [n Hn]. unfold _data_split. rewrite Hn.
    replace (axis =? 0)%Z with false by (symmetry; apply Z.eqb_neq; exact H0).
    replace (axis =? -1)%Z with false by (symmetry; apply Z.eqb_neq; exact H1).
    reflexivity.
Qed.

Lemma data_split_misuse_witness :
  let t := Dict [(KStr "a", Leaf (matrix [[1; 2]; [3; 4]]%Z));
                 (KStr "b", PyList [Leaf (matrix [[5; 6]; [7; 8]]%Z)])] in
  data_split t 0 0 = Gen [] (Some (ValueError "range() arg 3 must not be zero"))
  /\ data_split t (-2) (-1) = Gen [] None
  /\ data_split t 2 1 = Gen [] (Some (Exception_ ("unsupported axis: " ++ str (KInt 1)))).
Proof.
  intros t. split; [|split].
  - refine (proj1 (data_split_misuse t 0%Z 0%Z eq_refl _) _ _);
      [|left; reflexivity|reflexivity].
    intros a [<-|[<-|[]]]; exists 2; reflexivity.
  - refine (proj1 (proj2 (data_split_misuse t (-2)%Z (-1)%Z eq_refl _)) _ _);
      [|right; reflexivity|lia].
    intros a [<-|[<-|[]]]; exists 2; reflexivity.
  - refine (proj2 (proj2 (data_split_misuse t 2%Z 1%Z eq_refl _)) _ _);
      [|discriminate|discriminate].
    intros a [<-|[<-|[]]]; exists 2; reflexivity.
Defined.

(** ** flatten_dict_data, again *)

Lemma NoDup_snoc {A} (l : list A) (x : A) :
  NoDup l -> ~ In x l -> NoDup (l ++ [x]).
Proof.
  induction 1 as [|y l Hy Hl IH]; cbn; intros Hx.
  - constructor; [intros [] | constructor].
  - constructor.
    + intros Hin. apply in_app_or in Hin as [Hin|[<-|[]]]; [contradiction|].
      apply Hx. left. reflexivity.
    + apply IH. intros Hin. apply Hx. right. exact Hin.
Qed.

Section DictSet.
Context {V : Type}.

Lemma dict_set_fresh (k : key) (v : V) (d : list (key * V)) :
  ~ In k (keys d) -> dict_set k v d = d ++ [(k, v)].
Proof.
  induction d as [|[k' w] d IH]; cbn; intros Hk; [reflexivity|].
  destruct (key_eqb k k') eqn:E.
  - apply key_eqb_eq in E. subst. exfalso. apply Hk. left. reflexivity.
  - rewrite IH; [reflexivity|]. intros Hin. apply Hk. right. exact Hin.
Qed.

Lemma dict_set_present (k : key) (v : V) (d : list (key * V)) :
  In k (keys d) -> keys (dict_set k v d) = keys d.
Proof.
  induction d as [|[k' w] d IH]; cbn; intros Hk; [contradiction|].
  destruct (key_eqb k k') eqn:E; [reflexivity|]. cbn. f_equal. apply IH.
  destruct Hk as [->|Hk]; [|exact Hk]. rewrite key_eqb_refl in E. discriminate.
Qed.

Lemma key_In_dec (k : key) (ks : list key) : In k ks \/ ~ In k ks.
Proof.
  destruct (key_in k ks) eqn:E.
  - left. apply key_in_In, E.
  - right. intros Hin. apply key_in_In in Hin. congruence.
Qed.

Lemma dict_set_NoDup (k : key) (v : V) (d : list (key * V)) :
  NoDup (keys d) -> NoDup (keys (dict_set k v d)).
Proof.
  intros Hd. destruct (key_In_dec k (keys d)) as [Hin|Hout].
  - rewrite dict_set_present by exact Hin. exact Hd.
  - rewrite dict_set_fresh by exact Hout. unfold keys. rewrite map_app. cbn.
    apply NoDup_snoc; assumption.
Qed.

Lemma dict_set_In (k : key) (v : V) (d : list (key * V)) (kv : key * V) :
  In kv (dict_set k v d) -> In kv d \/ snd kv = v.
Proof.
  induction d as [|[k' w] d IH]; cbn.
  - intros [<-|[]]. right. reflexivity.
  - destruct (key_eqb k k'); cbn.
    + intros [<-|Hin]; [right; reflexivity | left; right; exact Hin].
    + intros [<-|Hin]; [left; left; reflexivity|].
      destruct (IH Hin); [left; right; assumption | right; assumption].
Qed.

Lemma dict_set_length (k : key) (v : V) (d : list (key * V)) :
  length (dict_set k v d) <= S (length d).
Proof.
  induction d as [|[k' w] d IH]; cbn; [lia|].
  destruct (key_eqb k k'); cbn; lia.
Qed.

(** Storing the items of a mapping one by one into an empty mapping gives
    the mapping back. *)
Lemma fold_dict_set_rebuild (d acc : list (key * V)) :
  NoDup (keys (acc ++ d)) ->
  fold_left (fun ret it => dict_set (fst it) (snd it) ret) d acc = acc ++ d.
Proof.
  revert acc. induction d as [|[k v] d IH]; intros acc Hnd; cbn [fold_left].
  - symmetry. apply app_nil_r.
  - cbn [fst snd]. rewrite dict_set_fresh.
    + rewrite IH; rewrite <- app_assoc; [reflexivity | exact Hnd].
    + unfold keys in Hnd. rewrite map_app in Hnd. cbn in Hnd.
      apply NoDup_remove_2 in Hnd. intros Hin. apply Hnd, in_or_app. left. exact Hin.
Qed.

End DictSet.

Lemma fold_left_ext_on {A B} (f g : A -> B -> A) (l : list B) (acc : A) :
  (forall a b, In b l -> f a b = g a b) -> fold_left f l acc = fold_left g l acc.
Proof.
  revert acc. induction l as [|b l IH]; intros acc Hfg; cbn [fold_left]; [reflexivity|].
  rewrite Hfg by (left; reflexivity). apply IH. intros a b' Hb'. apply Hfg. right. exact Hb'.
Qed.

Section FlattenAgain.
Context {L : Type}.

Lemma fold_dict_set_NoDup (kf : key -> key) (its ret : list (key * tree L)) :
  NoDup (keys ret) ->
  NoDup (keys (fold_left (fun ret jt => dict_set (kf (fst jt)) (snd jt) ret) its ret)).
Proof.
  revert ret. induction its as [|jt its IH]; intros ret Hret; cbn [fold_left].
  - exact Hret.
  - apply IH, dict_set_NoDup, Hret.
Qed.

Lemma flatten_step_NoDup (fun_ : key -> key -> key) (ret : list (key * tree L))
    (i : key) (tmp : tree L) :
  NoDup (keys ret) -> NoDup (keys (flatten_step fun_ ret i tmp)).
Proof.
  intros Hret. unfold flatten_step. destruct (items_of tmp) as [its|].
  - apply (fold_dict_set_NoDup (fun_ i)), Hret.
  - apply dict_set_NoDup, Hret.
Qed.

(** The mapping built by the loop has pairwise distinct keys. *)
Lemma flatten_loop_NoDup (fun_ : key -> key -> key) (its : list (key * tree L)) :
  NoDup (keys (flatten_loop fun_ its)).
Proof.
  unfold flatten_loop.
  assert (H : forall ret, NoDup (keys ret) ->
            NoDup (keys (fold_left (fun ret it => flatten_step fun_ ret (fst it) (snd it))
                                   its ret))).
  { induction its as [|it its IH]; intros ret Hret; cbn [fold_left]; [exact Hret|].
    apply IH, flatten_step_NoDup, Hret. }
  apply H. constructor.
Qed.

(** A mapping of leaves is its own flattening. *)
Lemma flatten_of_flat (d : list (key * tree L)) (fun_ : key -> key -> key) :
  NoDup (keys d) -> leaf_values d = true ->
  flatten_dict_data (Dict d) fun_ = Dict d.
Proof.
  intros Hnd Hleaf. cbn [flatten_dict_data]. f_equal.
  unfold leaf_values in Hleaf. rewrite forallb_forall in Hleaf.
  rewrite (map_ext_in _ (fun kv => kv)).
  - rewrite map_id. unfold flatten_loop.
    rewrite (fold_left_ext_on _ (fun ret it => dict_set (fst it) (snd it) ret)).
    + apply (fold_dict_set_rebuild d []). exact Hnd.
    + intros ret it Hit. specialize (Hleaf it Hit).
      destruct it as [k [a| | |]]; try discriminate. reflexivity.
  - intros [k v] Hkv. specialize (Hleaf _ Hkv). cbn in *.
    destruct v; try discriminate. reflexivity.
Qed.

End FlattenAgain.

(** X11.  Flattening is idempotent: flattening the mapping that
    [flatten_dict_data] returns, with any formatter, gives that mapping
    again (and a leaf is left as it is). *)
Theorem flatten_dict_data_idempotent {L : Type} (t : tree L)
    (fun_ fun_' : key -> key -> key) :
  flatten_dict_data (flatten_dict_data t fun_) fun_' = flatten_dict_data t fun_.
Proof.
  destruct (is_leaf t) eqn:Et.
  - destruct t; try discriminate. reflexivity.
  - assert (Hflat := flatten_single_level t fun_ Et).
    assert (Hnd : exists r, flatten_dict_data t fun_ = Dict r /\ NoDup (keys r)).
    { destruct t as [a|d|l|l]; try discriminate; cbn [flatten_dict_data];
        eexists; (split; [reflexivity | apply flatten_loop_NoDup]). }
    destruct Hnd as [r [Hr Hnd]]. rewrite Hr in Hflat |- *.
    apply flatten_of_flat; [exact Hnd | exact Hflat].
Qed.

Section FlattenEntries.
Context {L : Type}.

(** Every value of [ret] is a leaf taken from [ls], and [ret] has at most as
    many entries as [ls] has elements. *)
Let drawn_from (ls : list L) (ret : list (key * tree L)) : Prop :=
  Forall (fun kv => exists a, snd kv = Leaf a /\ In a ls) ret
  /\ length ret <= length ls.

(** What flattening [t] may return. *)
Let flat_of (t : tree L) (r : tree L) : Prop :=
  match r with
  | Leaf a => leaves t = [a]
  | Dict d => drawn_from (leaves t) d
  | _ => False
  end.

Lemma drawn_from_dict_set (ls : list L) (ret : list (key * tree L)) (k : key) (a : L) :
  drawn_from ls ret -> drawn_from (ls ++ [a]) (dict_set k (Leaf a) ret).
Proof.
  intros [Hall Hlen]. split.
  - apply Forall_forall. intros kv Hkv. apply dict_set_In in Hkv as [Hin|Hv].
    + rewrite Forall_forall in Hall. destruct (Hall kv Hin) as [b [Hb Hinb]].
      exists b. split; [exact Hb | apply in_or_app; left; exact Hinb].
    + exists a. split; [exact Hv | apply in_or_app; right; left; reflexivity].
  - rewrite length_app. cbn. pose proof (dict_set_length k (Leaf a) ret). lia.
Qed.

Lemma drawn_from_fold (kf : key -> key) (its : list (key * tree L)) :
  forall (ls ms : list L) (ret : list (key * tree L)),
    drawn_from ls ret -> drawn_from ms its ->
    drawn_from (ls ++ ms)
      (fold_left (fun ret jt => dict_set (kf (fst jt)) (snd jt) ret) its ret).
Proof.
  induction its as [|[j v] its IH]; intros ls ms ret [Hall Hlen] [Hits Hlits];
    cbn [fold_left].
  - split.
    + eapply Forall_impl; [|exact Hall]. intros kv [b [Hb Hinb]].
      exists b. split; [exact Hb | apply in_or_app; left; exact Hinb].
    + rewrite length_app. lia.
  - inversion Hits as [|? ? [a [Ha Hina]] Hrest]; subst. cbn [fst snd] in *. subst v.
    split.
    + assert (Hstep : Forall (fun kv => exists b, snd kv = Leaf b /\ In b (ls ++ ms))
                             (dict_set (kf j) (Leaf a) ret)).
      { apply Forall_forall. intros kv Hkv. apply dict_set_In in Hkv as [Hin|Hv].
        - rewrite Forall_forall in Hall. destruct (Hall kv Hin) as [b [Hb Hinb]].
          exists b. split; [exact Hb | apply in_or_app; left; exact Hinb].
        - exists a. split; [exact Hv | apply in_or_app; right; exact Hina]. }
      clear - Hstep Hrest. revert Hstep. generalize (dict_set (kf j) (Leaf a) ret).
      induction its as [|[j' v'] its IHi]; intros acc Hacc; cbn [fold_left]; [exact Hacc|].
      inversion Hrest as [|? ? [b [Hb Hinb]] Hrest']; subst. cbn [fst snd] in *. subst v'.
      apply (IHi Hrest'). apply Forall_forall. intros kv Hkv.
      apply dict_set_In in Hkv as [Hin|Hv].
      * rewrite Forall_forall in Hacc. apply Hacc, Hin.
      * exists b. split; [exact Hv | apply in_or_app; right; exact Hinb].
    + assert (Hgrow : forall (its' : list (key * tree L)) acc,
                 length (fold_left (fun ret jt => dict_set (kf (fst jt)) (snd jt) ret)
                                   its' acc)
                 <= length acc + length its').
      { clear. induction its' as [|jt its' IHg]; intros acc; cbn [fold_left length]; [lia|].
        specialize (IHg (dict_set (kf (fst jt)) (snd jt) acc)).
        pose proof (dict_set_length (kf (fst jt)) (snd jt) acc). lia. }
      specialize (Hgrow its (dict_set (kf j) (Leaf a) ret)).
      pose proof (dict_set_length (kf j) (Leaf a) ret).
      rewrite length_app. cbn [length] in Hlits. lia.
Qed.

Lemma flatten_step_drawn (fun_ : key -> key -> key) (ls : list L)
    (ret : list (key * tree L)) (i : key) (c tmp : tree L) :
  drawn_from ls ret -> flat_of c tmp ->
  drawn_from (ls ++ leaves c) (flatten_step fun_ ret i tmp).
Proof.
  intros Hret Htmp. destruct tmp as [a|d|l|l]; cbn in Htmp; try contradiction.
  - rewrite Htmp. apply drawn_from_dict_set, Hret.
  - unfold flatten_step. cbn [items_of]. apply (drawn_from_fold (fun_ i)); assumption.
Qed.

Lemma flatten_loop_drawn (fun_ : key -> key -> key) (cs : list (tree L)) :
  Forall (fun c => flat_of c (flatten_dict_data c format_slash)) cs ->
  forall ks,
    drawn_from (flat_map leaves cs)
      (flatten_loop fun_
         (combine ks (map (fun c => flatten_dict_data c format_slash) cs))).
Proof.
  intros Hcs ks. unfold flatten_loop.
  assert (H : forall ls ret ks,
             drawn_from ls ret ->
             drawn_from (ls ++ flat_map leaves cs)
               (fold_left (fun ret it => flatten_step fun_ ret (fst it) (snd it))
                  (combine ks (map (fun c => flatten_dict_data c format_slash) cs)) ret)).
  { clear ks. induction Hcs as [|c cs Hc _ IH]; intros ls ret ks Hret.
    - destruct ks; cbn; rewrite app_nil_r; exact Hret.
    - destruct ks as [|k ks]; cbn [map combine fold_left flat_map fst snd].
      + destruct Hret as [Hall Hlen]. split.
        * eapply Forall_impl; [|exact Hall]. intros kv [b [Hb Hinb]].
          exists b. split; [exact Hb | apply in_or_app; left; exact Hinb].
        * rewrite length_app. lia.
      + rewrite app_assoc. apply IH. apply flatten_step_drawn; assumption. }
  apply (H [] [] ks). split; [constructor | cbn; lia].
Qed.

Lemma flatten_flat_of (t : tree L) :
  forall fun_, flat_of t (flatten_dict_data t fun_).
Proof.
  induction t as [a|d IH|l IH|l IH] using tree_ind'; intros fun_;
    cbn [flatten_dict_data flat_of leaves].
  - reflexivity.
  - replace (map (fun kv => (fst kv, flatten_dict_data (snd kv) format_slash)) d)
      with (combine (keys d)
              (map (fun c => flatten_dict_data c format_slash) (values d))).
    + replace (flat_map (fun kv => leaves (snd kv)) d) with (flat_map leaves (values d)).
      * apply flatten_loop_drawn. unfold values. rewrite Forall_map.
        eapply Forall_impl; [|exact IH]. intros kv Hkv. apply Hkv.
      * unfold values. rewrite !flat_map_concat_map, map_map. reflexivity.
    + unfold keys, values. clear. induction d as [|kv d IHd]; cbn; [reflexivity|].
      rewrite IHd. reflexivity.
  - unfold enumerate. apply flatten_loop_drawn.
    eapply Forall_impl; [|exact IH]. intros c Hc. apply Hc.
  - unfold enumerate. apply flatten_loop_drawn.
    eapply Forall_impl; [|exact IH]. intros c Hc. apply Hc.
Qed.

(** The entries of a flattened tree. *)
Lemma flatten_entries (t : tree L) (fun_ : key -> key -> key) (r : list (key * tree L)) :
  flatten_dict_data t fun_ = Dict r ->
  Forall (fun kv => exists a, snd kv = Leaf a /\ In a (leaves t)) r
  /\ length r <= length (leaves t).
Proof.
  intros Hr. pose proof (flatten_flat_of t fun_) as H. rewrite Hr in H. exact H.
Qed.

End FlattenEntries.

(** X12.  Flattening invents nothing: every value of the flattened mapping
    is a leaf of the tree, and the mapping has at most as many entries as
    the tree has leaves (fewer when composite keys collide or a container is
    empty). *)
Theorem flatten_dict_data_entries {L : Type} (t : tree L)
    (fun_ : key -> key -> key) (r : list (key * tree L)) :
  flatten_dict_data t fun_ = Dict r ->
  (forall k v, In (k, v) r -> exists a, v = Leaf a /\ In a (leaves t))
  /\ length r <= length (leaves t).
Proof.
  intros Hr. destruct (flatten_entries t fun_ r Hr) as [Hall Hlen].
  split; [|exact Hlen].
  intros k v Hin. rewrite Forall_forall in Hall. apply (Hall (k, v) Hin).
Qed.

Lemma flatten_dict_data_entries_witness :
  let t := Dict [(KStr "A/p", Leaf 1%Z);
                 (KStr "A", Dict [(KStr "p", Leaf 2%Z); (KStr "e", PyList [])])] in
  let r := [(KStr "A/p", Leaf 2%Z)] in
  (forall k v, In (k, v) r -> exists a, v = Leaf a /\ In a (leaves t))
  /\ length r <= length (leaves t).
Proof.
  intros t r. apply (flatten_dict_data_entries t format_slash r). reflexivity.
Defined.

(** ** data_index, again *)

(** X13.  A path is followed key by key: indexing with the path
    [k1, ..., km, k1', ..., kn'] is indexing with [k1, ..., km] and then
    indexing what was found with [k1', ..., kn'], with the errors of the
    first part raised first; an empty path raises [IndexError]. *)
Theorem data_index_path_composes {L : Type} {AL : ArrayLib L}
    (r1 : list key) :
  forall (t : tree L) (k1 k2 : key) (r2 : list key),
    data_index t (Path (k1 :: r1 ++ k2 :: r2))
    = (d <- data_index t (Path (k1 :: r1)) ;; data_index d (Path (k2 :: r2)))
    /\ data_index t (Path [k1]) = data_index t (One k1)
    /\ data_index t (Path []) = Raise IndexError.
Proof.
  induction r1 as [|k r1 IH]; intros t k1 k2 r2.
  - repeat split.
  - split; [|split; reflexivity].
    cbn [data_index app]. cbn [data_index_keys].
    destruct (idx t k1) as [d|e]; [|reflexivity]. cbn [bind].
    destruct (IH d k k2 r2) as [Hd _]. cbn [data_index] in Hd. exact Hd.
Qed.

(** ** data_merge, again *)

Lemma all_some_none {A B} (f : A -> option B) (l : list A) (x : A) :
  In x l -> f x = None -> all_some (map f l) = None.
Proof.
  induction l as [|y l IH]; cbn; [intros []|].
  intros [->|Hin] Hx.
  - rewrite Hx. reflexivity.
  - destruct (f y); [|reflexivity]. rewrite (IH Hin Hx). reflexivity.
Qed.

(** X14.  When the first tree is a container and another tree is not of
    the same kind, [data_merge] fails with the assertion "not all type
    same", before anything is merged. *)
Theorem data_merge_kind_mismatch {L : Type} {AL : ArrayLib L}
    (set_iter : list key -> list key)
    (first : tree L) (rest : list (tree L)) (other : tree L) (axis : Z) :
  kind_of first <> Terminal ->
  In other rest ->
  kind_of other <> kind_of first ->
  data_merge set_iter (first :: rest) axis = Raise (AssertionError "not all type same").
Proof.
  intros Hfirst Hin Hkind. cbn [data_merge].
  destruct first as [a|d|l|l]; cbn [merge_first kind_of] in *.
  - congruence.
  - rewrite (all_some_none as_dict rest other Hin); [reflexivity|].
    destruct other; cbn in *; congruence.
  - rewrite (all_some_none as_list rest other Hin); [reflexivity|].
    destruct other; cbn in *; congruence.
  - rewrite (all_some_none as_tuple rest other Hin); [reflexivity|].
    destruct other; cbn in *; congruence.
Qed.

Lemma data_merge_kind_mismatch_witness :
  data_merge (fun ks => ks)
    [Dict [(KStr "k", PyList [Leaf (vector [1]%Z)])];
     Dict [(KStr "k", PyList [Leaf (vector [2]%Z)])];
     PyList [Leaf (vector [3]%Z)]] 0
  = Raise (AssertionError "not all type same").
Proof.
  apply (data_merge_kind_mismatch (fun ks => ks) _ _ (PyList [Leaf (vector [3]%Z)]) 0%Z).
  - discriminate.
  - right. left. reflexivity.
  - discriminate.
Defined.

(** ** load_dat_file *)

Lemma length_concat_uniform {A} (w : nat) (rs : list (list A)) :
  Forall (fun r => length r = w) rs -> length (concat rs) = length rs * w.
Proof.
  induction 1 as [|r rs Hr _ IH]; cbn [concat length]; [reflexivity|].
  rewrite length_app, Hr, IH. lia.
Qed.

Lemma slices_of_concat {A} (w : nat) (rs : list (list A)) :
  Forall (fun r => length r = w) rs ->
  map (fun k => list_slice (concat rs) (k * w) (k * w + w)) (seq 0 (length rs)) = rs.
Proof.
  induction 1 as [|r rs Hr _ IH]; [reflexivity|].
  cbn [length seq map concat]. f_equal.
  - unfold list_slice. cbn [Nat.mul Nat.add skipn]. rewrite Nat.sub_0_r.
    rewrite firstn_app, Hr, Nat.sub_diag, <- Hr, firstn_all. cbn. apply app_nil_r.
  - rewrite <- seq_shift, map_map. rewrite <- IH at 2.
    apply map_ext. intros k. unfold list_slice.
    replace (S k * w + w - S k * w) with (k * w + w - k * w) by lia.
    f_equal. replace (S k * w) with (length r + k * w) by lia.
    rewrite skipn_app, Nat.add_comm, Nat.add_sub.
    rewrite (skipn_all2 r) by lia. reflexivity.
Qed.

(** Regrouping the rows of a list of groups of [w] gives the groups back. *)
Lemma reshape_groups_concat {A} (w : nat) (rs : list (list A)) :
  1 <= w -> Forall (fun r => length r = w) rs ->
  reshape_groups w (concat rs) = Ok rs.
Proof.
  intros Hw Hrs. unfold reshape_groups.
  replace (Nat.eqb w 0) with false by (symmetry; apply Nat.eqb_neq; lia).
  rewrite (length_concat_uniform w rs Hrs).
  rewrite Nat.Div0.mod_mul, Nat.div_mul by lia. cbn [Nat.eqb].
  rewrite (slices_of_concat w rs Hrs). reflexivity.
Qed.

Lemma map_seq_nth_error {A B} (f : nat -> B) (g : A -> B) (l : list A) :
  (forall j x, nth_error l j = Some x -> f j = g x) ->
  map f (seq 0 (length l)) = map g l.
Proof.
  revert f. induction l as [|x l IH]; intros f Hfg; [reflexivity|].
  cbn [length seq map]. f_equal.
  - apply (Hfg 0 x). reflexivity.
  - rewrite <- seq_shift, map_map. apply IH.
    intros j y Hj. apply (Hfg (S j) y). exact Hj.
Qed.

Lemma row_of_four {num} (row : list num) :
  length row = 4 ->
  flat_map (fun k => match nth_error row k with Some v => [v] | None => [] end) (seq 0 4)
  = row.
Proof.
  destruct row as [|a [|b [|c [|d [|e row]]]]]; cbn; intros E; try discriminate.
  reflexivity.
Qed.

(** With the default order, the transposed array lists, for every
    particle, its row in every event. *)
Lemma transpose3_default {num} (m : nat) (tab : list (list (list num))) :
  Forall (fun ev => length ev = m /\ Forall (fun row => length row = 4) ev) tab ->
  transpose3 (length tab, m, 4) (1, 0, 2) tab = columns m tab.
Proof.
  intros Htab. unfold transpose3, columns. cbn [Nat.eqb].
  apply map_ext_in. intros p Hp. apply in_seq in Hp.
  apply map_seq_nth_error. intros j ev Hj.
  unfold get3. rewrite Hj.
  rewrite Forall_forall in Htab.
  destruct (Htab ev (nth_error_In _ _ Hj)) as [Hlen Hrows].
  destruct (nth_error ev p) as [row|] eqn:Ep.
  - rewrite (nth_error_nth _ _ _ Ep). apply row_of_four.
    rewrite Forall_forall in Hrows. apply Hrows. eapply nth_error_In, Ep.
  - apply nth_error_None in Ep. lia.
Qed.

Lemma list_getitem_nat {A} (l : list A) (i : nat) (x : A) :
  nth_error l i = Some x -> list_getitem l (Z.of_nat i) = Ok x.
Proof.
  intros Hx. unfold list_getitem.
  assert (Hi : i < length l) by (apply nth_error_Some; congruence).
  replace (Z.of_nat i <? 0)%Z with false by (symmetry; apply Z.ltb_ge; lia).
  replace ((0 <=? Z.of_nat i)%Z && (Z.of_nat i <? Z.of_nat (length l))%Z) with true.
  - rewrite Nat2Z.id, Hx. reflexivity.
  - symmetry. apply andb_true_iff. split; [apply Z.leb_le | apply Z.ltb_lt]; lia.
Qed.

Section LoadDatFacts.
Context {num : Type}.
Variable loadtxt : string -> result (list num).

Lemma assign_all (particles : list key) (cols : list (list (list num))) :
  forall ret idx,
    idx + length cols <= length particles ->
    assign particles cols ret idx
    = Ok (fold_left (fun r pc => dict_set (fst pc) (snd pc) r)
                    (combine (skipn idx particles) cols) ret,
          idx + length cols).
Proof.
  induction cols as [|c cols IH]; intros ret idx Hlen; cbn [assign length].
  - rewrite combine_nil, Nat.add_0_r. reflexivity.
  - cbn [length] in Hlen.
    destruct (nth_error particles idx) as [p|] eqn:Ep.
    2: { apply nth_error_None in Ep. lia. }
    rewrite (list_getitem_nat particles idx p Ep). cbn [bind].
    rewrite IH by lia.
    assert (Hskip : skipn idx particles = p :: skipn (S idx) particles).
    { clear - Ep. revert particles Ep. induction idx as [|idx IHi]; intros [|q ps] Ep;
        cbn in *; try discriminate.
      - inversion Ep. reflexivity.
      - apply IHi, Ep. }
    rewrite Hskip. cbn [combine fold_left fst snd]. f_equal. f_equal. lia.
Qed.

Lemma load_files_laid (names : list string) (tabs : list (list (list (list num)))) :
  Forall2 (fun name tab => loadtxt name = Ok (concat (concat tab))
                           /\ Forall (Forall (fun row => length row = 4)) tab)
          names tabs ->
  load_files loadtxt names = Ok (map (@concat (list num)) tabs).
Proof.
  induction 1 as [|name tab names tabs [Hload Hrows] _ IH]; [reflexivity|].
  cbn [load_files map]. rewrite Hload. cbn [bind].
  rewrite reshape_groups_concat; [|lia|].
  - cbn [bind]. rewrite IH. reflexivity.
  - apply Forall_concat. exact Hrows.
Qed.

End LoadDatFacts.

Lemma combine_app_right {A B} (l : list A) (c1 c2 : list B) :
  length c1 <= length l ->
  combine l (c1 ++ c2) = combine l c1 ++ combine (skipn (length c1) l) c2.
Proof.
  revert l. induction c1 as [|c c1 IH]; intros l Hlen; cbn [app length skipn].
  - rewrite combine_nil. reflexivity.
  - destruct l as [|x l]; [cbn in Hlen; lia|]. cbn [combine app skipn]. f_equal.
    apply IH. cbn in Hlen. lia.
Qed.

Lemma keys_combine {V} (ks : list key) (vs : list V) :
  length ks = length vs -> keys (combine ks vs) = ks.
Proof.
  revert vs. induction ks as [|k ks IH]; intros [|v vs] Hlen; cbn in *;
    try discriminate; [reflexivity|].
  f_equal. apply IH. lia.
Qed.

Lemma length_columns {num} (m : nat) (tab : list (list (list num))) :
  length (columns m tab) = m.
Proof. unfold columns. rewrite length_map, length_seq. reflexivity. Qed.

Section LoadDatLayout.
Context {num : Type}.
Variable n_events : nat.

Lemma regroup_laid (f : dat_file num) :
  laid n_events f ->
  regroup (Z.of_nat (per_event f)) [1; 0; 2]%Z (concat (events f))
  = Ok (columns (per_event f) (events f)).
Proof.
  intros [Hm [Hlen Hev]]. unfold regroup.
  replace (Z.of_nat (per_event f) <=? 0)%Z with false by (symmetry; apply Z.leb_gt; lia).
  rewrite Nat2Z.id, reshape_groups_concat; [|exact Hm|].
  - cbn [bind]. change (axes3 [1; 0; 2]%Z) with (Ok (A:=nat * nat * nat) (1, 0, 2)).
    cbn [bind]. rewrite transpose3_default by exact Hev. reflexivity.
  - eapply Forall_impl; [|exact Hev]. intros ev [H _]. exact H.
Qed.

Lemma distribute_laid (particles : list key) (files : list (dat_file num)) :
  Forall (laid n_events) files ->
  forall ret idx,
    idx + fold_right Nat.add 0 (map per_event files) <= length particles ->
    distribute particles [1; 0; 2]%Z
      (map (fun f => Z.of_nat (per_event f)) files)
      (map (fun f => concat (events f)) files) ret idx
    = Ok (fold_left (fun r pc => dict_set (fst pc) (snd pc) r)
            (combine (skipn idx particles)
                     (flat_map (fun f => columns (per_event f) (events f)) files))
            ret).
Proof.
  induction 1 as [|f files Hf _ IH]; intros ret idx Hlen;
    cbn [map distribute flat_map fold_right] in *.
  - rewrite combine_nil. reflexivity.
  - rewrite (regroup_laid f Hf). cbn [bind].
    rewrite assign_all by (rewrite length_columns; lia). cbn [bind fst snd].
    rewrite IH by (rewrite length_columns; lia).
    rewrite combine_app_right by (rewrite length_columns, length_skipn; lia).
    rewrite fold_left_app, skipn_skipn, length_columns.
    replace (per_event f + idx) with (idx + per_event f) by lia. reflexivity.
Qed.

Lemma sizes_laid (files : list (dat_file num)) :
  Forall (laid n_events) files ->
  map (@length (list num)) (map (fun f => concat (events f)) files)
  = map (fun f => n_events * per_event f) files.
Proof.
  intros Hfiles. rewrite map_map. apply map_ext_Forall.
  eapply Forall_impl; [|exact Hfiles]. intros f [_ [Hlen Hev]].
  rewrite (length_concat_uniform (per_event f)), Hlen; [reflexivity|].
  eapply Forall_impl; [|exact Hev]. intros ev [H _]. exact H.
Qed.

Lemma sum_scaled (files : list (dat_file num)) :
  fold_right Nat.add 0 (map (fun f => n_events * per_event f) files)
  = n_events * fold_right Nat.add 0 (map per_event files).
Proof.
  induction files as [|f files IH]; cbn [map fold_right]; [lia|]. rewrite IH. lia.
Qed.

Lemma default_split_laid (files : list (dat_file num)) :
  1 <= n_events -> files <> [] -> Forall (laid n_events) files ->
  default_split (map (fun f => n_events * per_event f) files)
                (fold_right Nat.add 0 (map per_event files))
  = Loaded (map (fun f => Z.of_nat (per_event f)) files).
Proof.
  intros some_events Hne Hfiles. unfold default_split. rewrite sum_scaled.
  set (n := fold_right Nat.add 0 (map per_event files)).
  assert (Hn : 1 <= n).
  { subst n. destruct files as [|f files]; [congruence|].
    inversion Hfiles as [|? ? [Hm _] _]; subst. cbn. lia. }
  replace (Nat.eqb n 0) with false by (symmetry; apply Nat.eqb_neq; lia).
  rewrite Nat.Div0.mod_mul. cbn [Nat.eqb negb].
  rewrite Nat.div_mul by lia.
  destruct files as [|f files]; [congruence|]. cbn [map].
  replace (Nat.eqb n_events 0) with false by (symmetry; apply Nat.eqb_neq; lia).
  f_equal. change (map (fun f0 => Z.of_nat (f0 / n_events))
                     (map (fun f0 => n_events * per_event f0) (f :: files))
                   = map (fun f0 => Z.of_nat (per_event f0)) (f :: files)).
  rewrite map_map. apply map_ext. intros g.
  rewrite Nat.mul_comm, Nat.div_mul by lia. reflexivity.
Qed.

End LoadDatLayout.

(** X15.  Files that hold, for each of the same [n_events >= 1] events, the
    rows of their particles one after the other are de-interleaved: with the
    default [split] and [order], [load_dat_file] maps the particles, taken
    in order across the files, each to the list of its rows in the events. *)
Theorem load_dat_file_deinterleaves {num : Type}
    (loadtxt : string -> result (list num)) (n_events : nat)
    (files : list (dat_file num)) (particles : list key) :
  1 <= n_events ->
  files <> [] ->
  Forall (fun f => loadtxt (file_name f) = Ok (concat (concat (events f)))
                   /\ 1 <= per_event f
                   /\ well_laid n_events (per_event f) (events f)) files ->
  fold_right Nat.add 0 (map per_event files) = length particles ->
  NoDup particles ->
  load_dat_file loadtxt (FileNames (map file_name files)) particles None None
  = Loaded (combine particles
              (flat_map (fun f => columns (per_event f) (events f)) files)).
Proof.
  intros HN Hne Hfiles Hsum Hnd.
  assert (Hlaid : Forall (laid n_events) files).
  { eapply Forall_impl; [|exact Hfiles]. intros f [_ H]. exact H. }
  unfold load_dat_file. cbn [lbind].
  rewrite (load_files_laid loadtxt (map file_name files) (map events files)).
  2: { clear - Hfiles. induction Hfiles as [|f files [Hload [_ [_ Hev]]] _ IH];
         cbn [map]; constructor; [|exact IH].
       split; [exact Hload|]. eapply Forall_impl; [|exact Hev]. intros ev [_ H]. exact H. }
  cbn [of_result lbind]. cbv zeta.
  rewrite (map_map events (@concat (list num)) files).
  rewrite (sizes_laid n_events files Hlaid), <- Hsum.
  rewrite (default_split_laid n_events files HN Hne Hlaid). cbn [lbind].
  rewrite (distribute_laid n_events particles files Hlaid) by lia.
  cbn [of_result skipn]. f_equal.
  apply (fold_dict_set_rebuild _ []). cbn [app].
  rewrite keys_combine; [exact Hnd|].
  rewrite <- Hsum. clear. induction files as [|f files IH]; cbn [map fold_right flat_map];
    [reflexivity|]. rewrite length_app, length_columns, IH. reflexivity.
Qed.

Lemma load_dat_file_deinterleaves_witness :
  let fa := DatFile "a.dat" 1 [[[1; 2; 3; 4]]; [[5; 6; 7; 8]]]%Z in
  let fb := DatFile "b.dat" 2 [[[11; 12; 13; 14]; [21; 22; 23; 24]];
                               [[15; 16; 17; 18]; [25; 26; 27; 28]]]%Z in
  let loadtxt := fun name =>
    if String.eqb name "a.dat" then Ok (concat (concat (events fa)))
    else if String.eqb name "b.dat" then Ok (concat (concat (events fb)))
    else Raise (ValueError "no such file") in
  load_dat_file loadtxt (FileNames ["a.dat"; "b.dat"])
                [KStr "A"; KStr "B"; KStr "C"] None None
  = Loaded [(KStr "A", [[1; 2; 3; 4]; [5; 6; 7; 8]]);
            (KStr "B", [[11; 12; 13; 14]; [15; 16; 17; 18]]);
            (KStr "C", [[21; 22; 23; 24]; [25; 26; 27; 28]])]%Z.
Proof.
  intros fa fb loadtxt.
  apply (load_dat_file_deinterleaves loadtxt 2 [fa; fb]
           [KStr "A"; KStr "B"; KStr "C"]).
  - lia.
  - discriminate.
  - repeat constructor.
  - reflexivity.
  - repeat constructor; cbn; intuition discriminate.
Defined.

Lemma list_getitem_nat_inv {A} (l : list A) (i : nat) (x : A) :
  list_getitem l (Z.of_nat i) = Ok x -> nth_error l i = Some x.
Proof.
  unfold list_getitem.
  replace (Z.of_nat i <? 0)%Z with false by (symmetry; apply Z.ltb_ge; lia).
  destruct ((0 <=? Z.of_nat i)%Z && (Z.of_nat i <? Z.of_nat (length l))%Z);
    [|discriminate].
  rewrite Nat2Z.id. destruct (nth_error l i); [congruence|discriminate].
Qed.

Lemma assign_returns {num} (particles : list key) (cols : list (list (list num))) :
  forall ret idx st,
    assign particles cols ret idx = Ok st ->
    idx <= length particles ->
    idx + length cols <= length particles.
Proof.
  induction cols as [|c cols IH]; intros ret idx st Hst Hidx; cbn [assign length] in *.
  - lia.
  - destruct (list_getitem particles (Z.of_nat idx)) as [p|e] eqn:Ep; [|discriminate].
    apply list_getitem_nat_inv in Ep.
    assert (idx < length particles) by (apply nth_error_Some; congruence).
    cbn [bind] in Hst. apply IH in Hst; lia.
Qed.

Lemma distribute_returns {num} (particles : list key) (order : list Z) :
  forall split datas (ret ret' : list (key * list (list num))) idx,
    distribute particles order split datas ret idx = Ok ret' ->
    idx <= length particles ->
    exists cols,
      idx + length cols <= length particles
      /\ ret' = fold_left (fun r pc => dict_set (fst pc) (snd pc) r)
                          (combine (skipn idx particles) cols) ret.
Proof.
  induction split as [|size split IH]; intros datas ret ret' idx Hret Hidx.
  - cbn [distribute] in Hret. inversion Hret; subst. exists []. split; [cbn; lia|].
    rewrite combine_nil. reflexivity.
  - destruct datas as [|data datas].
    { cbn [distribute] in Hret. inversion Hret; subst. exists []. split; [cbn; lia|].
      rewrite combine_nil. reflexivity. }
    cbn [distribute] in Hret.
    destruct (regroup size order data) as [data_2|e]; [|discriminate]. cbn [bind] in Hret.
    destruct (assign particles data_2 ret idx) as [st|e] eqn:Est; [|discriminate].
    cbn [bind] in Hret.
    pose proof (assign_returns particles data_2 ret idx st Est Hidx) as Hlen.
    rewrite (assign_all particles data_2 ret idx Hlen) in Est. inversion Est; subst st.
    cbn [fst snd] in Hret.
    apply IH in Hret; [|lia]. destruct Hret as [cols [Hcols ->]].
    exists (data_2 ++ cols). split; [rewrite length_app; lia|].
    rewrite combine_app_right by (rewrite length_skipn; lia).
    rewrite fold_left_app, skipn_skipn.
    replace (length data_2 + idx) with (idx + length data_2) by lia. reflexivity.
Qed.

Lemma keys_combine_firstn {V} (ks : list key) (vs : list V) :
  keys (combine ks vs) = firstn (length vs) ks.
Proof.
  revert vs. induction ks as [|k ks IH]; intros [|v vs]; cbn [combine length firstn];
    try reflexivity.
  unfold keys in *. cbn [map fst]. f_equal. apply IH.
Qed.

(** X16.  Whatever the files, [split] and [order]: when [load_dat_file]
    returns, its mapping has the first particles of [particles] as keys, in
    order and without a gap, each assigned once (the particles being
    distinct); it never holds a key that is not a particle. *)
Theorem load_dat_file_keys_prefix {num : Type}
    (loadtxt : string -> result (list num)) (fnames : fnames_arg)
    (particles : list key) (split order : option (list Z))
    (ret : list (key * list (list num))) :
  NoDup particles ->
  load_dat_file loadtxt fnames particles split order = Loaded ret ->
  length ret <= length particles
  /\ keys ret = firstn (length ret) particles.
Proof.
  intros Hnd Hret. unfold load_dat_file in Hret.
  destruct (match fnames with
            | FileName s => Loaded [s]
            | FileNames l => Loaded l
            | NotFileNames => Failed (Builtin TypeError)
            end) as [names|e]; [|discriminate].
  cbn [lbind] in Hret.
  destruct (load_files loadtxt names) as [datas|e]; [|discriminate].
  cbn [of_result lbind] in Hret. cbv zeta in Hret.
  destruct (match split with
            | Some split0 => Loaded split0
            | None => default_split (map (@length (list num)) datas) (length particles)
            end) as [split'|e]; [|discriminate].
  cbn [lbind] in Hret.
  destruct (distribute particles
              match order with Some o => o | None => [1; 0; 2]%Z end
              split' datas [] 0) as [ret'|e] eqn:Ed; [|discriminate].
  cbn [of_result] in Hret. inversion Hret; subst ret'.
  apply distribute_returns in Ed; [|lia].
  destruct Ed as [cols [Hlen ->]]. cbn [skipn Nat.add] in *.
  assert (Hnd' : NoDup (keys (combine particles cols))).
  { rewrite keys_combine_firstn.
    rewrite <- (firstn_skipn (length cols) particles) in Hnd.
    apply NoDup_app_remove_r in Hnd. exact Hnd. }
  rewrite (fold_dict_set_rebuild (combine particles cols) []) by exact Hnd'.
  cbn [app]. rewrite length_combine, keys_combine_firstn.
  replace (Nat.min (length particles) (length cols)) with (length cols) by lia.
  split; [exact Hlen|reflexivity].
Qed.

Lemma load_dat_file_keys_prefix_witness :
  let loadtxt := fun name : string =>
    Ok [1; 2; 3; 4; 5; 6; 7; 8; 9; 10; 11; 12; 13; 14; 15; 16]%Z in
  let ret := [(KStr "A", [[1; 2; 3; 4]; [9; 10; 11; 12]]);
              (KStr "B", [[5; 6; 7; 8]; [13; 14; 15; 16]])]%Z in
  length ret <= 3
  /\ keys ret = firstn (length ret) [KStr "A"; KStr "B"; KStr "C"].
Proof.
  intros loadtxt ret.
  apply (load_dat_file_keys_prefix loadtxt (FileName "a.dat")
           [KStr "A"; KStr "B"; KStr "C"] (Some [2%Z]) None ret).
  - repeat constructor; cbn; intuition discriminate.
  - reflexivity.
Defined.

(** ** root_io *)

Lemma keys_dict_set_In {V} (k k' : key) (v : V) (d : list (key * V)) :
  In k' (keys (dict_set k v d)) <-> k' = k \/ In k' (keys d).
Proof.
  destruct (key_In_dec k (keys d)) as [Hin|Hout].
  - rewrite dict_set_present by exact Hin. split; [auto|].
    intros [->|H]; assumption.
  - rewrite dict_set_fresh by exact Hout. unfold keys. rewrite map_app, in_app_iff.
    cbn. split; [intros [H|[H|[]]]; auto | intros [H|H]; auto].
Qed.

Lemma dict_get_set_same {V} (k : key) (v : V) (d : list (key * V)) :
  dict_get k (dict_set k v d) = Some v.
Proof.
  induction d as [|[k' w] d IH]; cbn.
  - rewrite key_eqb_refl. reflexivity.
  - destruct (key_eqb k k') eqn:E; cbn; rewrite E; [reflexivity | exact IH].
Qed.

Lemma dict_get_set_other {V} (k k0 : key) (v : V) (d : list (key * V)) :
  k0 <> k -> dict_get k0 (dict_set k v d) = dict_get k0 d.
Proof.
  intros Hne. induction d as [|[k' w] d IH]; cbn.
  - apply key_eqb_neq in Hne. rewrite Hne. reflexivity.
  - destruct (key_eqb k k') eqn:E; cbn.
    + apply key_eqb_eq in E. subst k'. apply key_eqb_neq in Hne. rewrite Hne. reflexivity.
    + destruct (key_eqb k0 k'); [reflexivity | exact IH].
Qed.

Lemma Forall2_Forall_iff {A B} (R : A -> B -> Prop) (P : A -> Prop) (Q : B -> Prop)
    (l : list A) (l' : list B) :
  Forall2 R l l' -> (forall x y, R x y -> (P x <-> Q y)) ->
  (Forall P l <-> Forall Q l').
Proof.
  intros H HR. induction H as [|x y l l' Hxy _ IH].
  - split; constructor.
  - split; intros HF; inversion HF; subst; constructor;
      try (apply (HR x y Hxy); assumption); apply IH; assumption.
Qed.

Lemma merged_dict_keys {L : Type} {AL : ArrayLib L} (set_iter : list key -> list key)
    (ds : list (list (key * tree L))) (axis : Z) (r : tree L) :
  (forall ks, Permutation (set_iter ks) ks) ->
  data_merge set_iter (map Dict ds) axis = Ok r ->
  exists rd, r = Dict rd
    /\ forall k, In k (keys rd) <-> Forall (fun d => In k (keys d)) ds.
Proof.
  intros Hperm Hr. destruct ds as [|d0 others]; [discriminate|].
  cbn [map] in Hr. rewrite data_merge_dict in Hr.
  apply bind_ok_inv in Hr as [rd [Hseq E]]. inversion E; subst r. clear E.
  exists rd. split; [reflexivity|].
  apply sequence_ok_iff in Hseq. apply Forall2_map_left in Hseq.
  destruct (comprehension_keys
              (fun i => cs <- column i (d0 :: others) ;; data_merge set_iter cs 0)
              (set_iter (intersection (map keys (d0 :: others)))) rd)
    as [Hkeys _].
  { eapply Forall2_impl; [|exact Hseq]. intros i kv Hi. cbv beta in Hi.
    destruct (column i (d0 :: others)); exact Hi. }
  intros k. rewrite Hkeys. split.
  - intros Hin. apply (Permutation_in _ (Hperm _)) in Hin.
    cbn [map] in Hin. apply intersection_In in Hin.
    change (Forall (In k) (map keys (d0 :: others))) in Hin.
    rewrite Forall_map in Hin. exact Hin.
  - intros Hs. apply (Permutation_in _ (Permutation_sym (Hperm _))).
    cbn [map]. apply intersection_In.
    change (Forall (In k) (map keys (d0 :: others))).
    rewrite Forall_map. exact Hs.
Qed.

Section RootIOFacts.
Context {L : Type} {AL : ArrayLib L}.
Variable set_iter : list key -> list key.
Variable set_iter_str : list string -> list string.
Variables root_directory ttree : Type.
Variable uproot_open : string -> result root_directory.
Variable allkeys : root_directory -> result (list string).
Variable get : root_directory -> string -> result ttree.
Variable tree_keys : ttree -> result (list string).
Variable branch_array : ttree -> string -> result (option L).

Lemma load_branches_keys (t : ttree) (ks : list string) :
  forall ret ret',
    load_branches branch_array t ks ret = Ok ret' ->
    forall b, In b (keys ret')
              <-> In b (keys ret)
                  \/ exists i a, In i ks /\ b = KStr i /\ branch_array t i = Ok (Some a).
Proof.
  induction ks as [|i ks IH]; intros ret ret' Hret b; cbn [load_branches] in Hret.
  - inversion Hret; subst. split; [auto|]. intros [H|[i [a [[] _]]]]. exact H.
  - destruct (branch_array t i) as [arr|e] eqn:Earr; [|discriminate]. cbn [bind] in Hret.
    rewrite (IH _ _ Hret b). destruct arr as [a|].
    + rewrite keys_dict_set_In. split.
      * intros [[->|H]|[i' [a' [Hin [-> Ha]]]]]; [right|left; exact H|right].
        -- exists i, a. split; [left; reflexivity|]. split; [reflexivity|exact Earr].
        -- exists i', a'. split; [right; exact Hin|]. split; [reflexivity|exact Ha].
      * intros [H|[i' [a' [[<-|Hin] [-> Ha]]]]]; [left; right; exact H|left; left; reflexivity|].
        right. exists i', a'. split; [exact Hin|]. split; [reflexivity|exact Ha].
    + split.
      * intros [H|[i' [a' [Hin [-> Ha]]]]]; [left; exact H|right].
        exists i', a'. split; [right; exact Hin|]. split; [reflexivity|exact Ha].
      * intros [H|[i' [a' [[<-|Hin] [-> Ha]]]]]; [left; exact H|congruence|].
        right. exists i', a'. split; [exact Hin|]. split; [reflexivity|exact Ha].
Qed.

Lemma load_Ttree_keys (t : ttree) (r : tree L) :
  load_Ttree tree_keys branch_array t = Ok r ->
  exists d, r = Dict d
    /\ forall b, In b (keys d) <-> array_branch tree_keys branch_array t b.
Proof.
  unfold load_Ttree. intros Hr.
  apply bind_ok_inv in Hr as [ks [Hks Hr]].
  apply bind_ok_inv in Hr as [ret [Hret E]]. inversion E; subst r. clear E.
  exists ret. split; [reflexivity|]. intros b.
  rewrite (load_branches_keys t ks [] ret Hret b). unfold array_branch. split.
  - intros [[]|[i [a [Hin [Hb Ha]]]]]. exists ks, i, a. auto.
  - intros [ks' [i [a [Hks' [Hin [Hb Ha]]]]]]. right.
    rewrite Hks in Hks'. inversion Hks'; subst ks'. exists i, a. auto.
Qed.

Lemma merge_names_entries (root_file : list root_directory) (names : list string) :
  forall ret ret',
    merge_names set_iter get tree_keys branch_array root_file names ret = Ok ret' ->
    (forall k, In k (keys ret')
               <-> In k (keys ret) \/ exists i, In i names /\ k = KStr i)
    /\ (forall k, (forall i, In i names -> k <> KStr i) ->
                  dict_get k ret' = dict_get k ret)
    /\ (forall i, In i names ->
          exists data v,
            sequence (map (fun j => t <- get j i ;; load_Ttree tree_keys branch_array t)
                          root_file) = Ok data
            /\ data_merge set_iter data 0 = Ok v
            /\ dict_get (KStr i) ret' = Some v).
Proof.
  induction names as [|i0 names IH]; intros ret ret' Hret; cbn [merge_names] in Hret.
  - inversion Hret; subst. split; [|split].
    + intros k. split; [auto|]. intros [H|[i [[] _]]]. exact H.
    + reflexivity.
    + intros i [].
  - apply bind_ok_inv in Hret as [data [Hdata Hret]].
    apply bind_ok_inv in Hret as [m [Hm Hret]].
    destruct (IH _ _ Hret) as [Hkeys [Hother Hin]]. split; [|split].
    + intros k. rewrite Hkeys, keys_dict_set_In. split.
      * intros [[->|H]|[i [Hi ->]]]; [right; exists i0|left; exact H|right; exists i];
          cbn; auto.
      * intros [H|[i [[<-|Hi] ->]]]; [left; right; exact H|left; left; reflexivity|].
        right. exists i. auto.
    + intros k Hk. rewrite Hother by (intros i Hi; apply Hk; right; exact Hi).
      apply dict_get_set_other. apply Hk. left. reflexivity.
    + intros i [<-|Hi].
      * destruct (in_dec string_dec i0 names) as [Hi|Hi]; [apply Hin, Hi|].
        exists data, m. split; [exact Hdata|]. split; [exact Hm|].
        rewrite Hother.
        -- apply dict_get_set_same.
        -- intros i Hi' E. inversion E; subst. contradiction.
      * apply Hin, Hi.
Qed.

Lemma gathered_names_In (keys_ : list (list string)) (s : string) :
  In s (gathered_names keys_)
  <-> exists ks j, In ks keys_ /\ In j ks /\ s = before_semicolon j.
Proof.
  unfold gathered_names. rewrite nodup_In, in_map_iff. split.
  - intros [j [<- Hj]]. apply in_concat in Hj as [ks [Hks Hj]]. exists ks, j. auto.
  - intros [ks [j [Hks [Hj ->]]]]. exists j. split; [reflexivity|].
    apply in_concat. exists ks. auto.
Qed.

Lemma load_root_data_opened (names : list string) (files : list root_directory)
    (keys_ : list (list string)) :
  Forall2 (fun n f => uproot_open n = Ok f) names files ->
  Forall2 (fun f ks => allkeys f = Ok ks) files keys_ ->
  load_root_data set_iter set_iter_str uproot_open allkeys get tree_keys branch_array
    (FileNames names)
  = (ret <- merge_names set_iter get tree_keys branch_array files
              (set_iter_str (gathered_names keys_)) [] ;;
     Ok (Dict ret)).
Proof.
  intros Hopen Hkeys. unfold load_root_data. cbn [bind].
  replace (sequence (map uproot_open names)) with (Ok files)
    by (symmetry; apply sequence_ok_iff, Forall2_map_left, Hopen).
  cbn [bind].
  replace (sequence (map allkeys files)) with (Ok keys_)
    by (symmetry; apply sequence_ok_iff, Forall2_map_left, Hkeys).
  reflexivity.
Qed.

End RootIOFacts.

Lemma Forall2_In_left {A B} (R : A -> B -> Prop) (l : list A) (l' : list B) (x : A) :
  Forall2 R l l' -> In x l -> exists y, In y l' /\ R x y.
Proof.
  induction 1 as [|a b l l' Hab _ IH]; intros Hin; [contradiction|].
  destruct Hin as [<-|Hin].
  - exists b. split; [left; reflexivity | exact Hab].
  - destruct (IH Hin) as [y [Hy HR]]. exists y. split; [right; exact Hy | exact HR].
Qed.

(** X17.  [load_root_data] gathers the names of all the files, not the
    names they have in common: when it returns, every name found in any
    file is a key of the result, and every file had to give a tree for
    every such name. *)
Theorem load_root_data_every_name {L : Type} {AL : ArrayLib L}
    (set_iter : list key -> list key) (set_iter_str : list string -> list string)
    {root_directory ttree : Type}
    (uproot_open : string -> result root_directory)
    (allkeys : root_directory -> result (list string))
    (get : root_directory -> string -> result ttree)
    (tree_keys : ttree -> result (list string))
    (branch_array : ttree -> string -> result (option L))
    (names : list string) (files : list root_directory) (keys_ : list (list string))
    (r : tree L) :
  (forall ns, Permutation (set_iter_str ns) ns) ->
  Forall2 (fun n f => uproot_open n = Ok f) names files ->
  Forall2 (fun f ks => allkeys f = Ok ks) files keys_ ->
  load_root_data set_iter set_iter_str uproot_open allkeys get tree_keys branch_array
    (FileNames names) = Ok r ->
  exists ret, r = Dict ret
    /\ (forall k, In k (keys ret)
                  <-> exists ks j, In ks keys_ /\ In j ks /\ k = KStr (before_semicolon j))
    /\ (forall ks j f, In ks keys_ -> In j ks -> In f files ->
          exists t d, get f (before_semicolon j) = Ok t
                      /\ load_Ttree tree_keys branch_array t = Ok (Dict d)).
Proof.
  intros Hperm Hopen Hkeys Hr.
  rewrite (load_root_data_opened set_iter set_iter_str _ _ uproot_open allkeys get
             tree_keys branch_array names files keys_ Hopen Hkeys) in Hr.
  apply bind_ok_inv in Hr as [ret [Hret E]]. inversion E; subst r. clear E.
  exists ret. split; [reflexivity|].
  destruct (merge_names_entries set_iter _ _ get tree_keys branch_array files _ _ _ Hret)
    as [Hk [_ Hin]].
  assert (Hnames : forall s, In s (set_iter_str (gathered_names keys_))
                             <-> exists ks j, In ks keys_ /\ In j ks
                                              /\ s = before_semicolon j).
  { intros s. rewrite <- gathered_names_In. split.
    - apply Permutation_in, Hperm.
    - apply Permutation_in, Permutation_sym, Hperm. }
  split.
  - intros k. rewrite Hk. split.
    + intros [[]|[i [Hi ->]]]. apply Hnames in Hi as [ks [j [H1 [H2 ->]]]].
      exists ks, j. auto.
    + intros [ks [j [H1 [H2 ->]]]]. right. exists (before_semicolon j).
      split; [|reflexivity]. apply Hnames. exists ks, j. auto.
  - intros ks j f H1 H2 Hf.
    destruct (Hin (before_semicolon j)) as [data [v [Hdata _]]].
    { apply Hnames. exists ks, j. auto. }
    apply sequence_ok_iff, Forall2_map_left in Hdata.
    destruct (Forall2_In_left _ _ _ f Hdata Hf) as [x [_ Hx]]. cbv beta in Hx.
    apply bind_ok_inv in Hx as [t [Ht Hx]].
    destruct (load_Ttree_keys _ tree_keys branch_array t x Hx) as [d [-> _]].
    exists t, d. split; assumption.
Qed.

(** X18.  Each tree of the result of [load_root_data] holds exactly the
    branches whose array is an [np.ndarray] in every file: a branch that
    is missing, or is not a plain array, in one file is dropped from the
    merged tree without an error. *)
Theorem load_root_data_common_branches {L : Type} {AL : ArrayLib L}
    (set_iter : list key -> list key) (set_iter_str : list string -> list string)
    {root_directory ttree : Type}
    (uproot_open : string -> result root_directory)
    (allkeys : root_directory -> result (list string))
    (get : root_directory -> string -> result ttree)
    (tree_keys : ttree -> result (list string))
    (branch_array : ttree -> string -> result (option L))
    (names : list string) (files : list root_directory) (keys_ : list (list string))
    (ret : list (key * tree L)) (s : string) (v : tree L) :
  (forall ks, Permutation (set_iter ks) ks) ->
  Forall2 (fun n f => uproot_open n = Ok f) names files ->
  Forall2 (fun f ks => allkeys f = Ok ks) files keys_ ->
  load_root_data set_iter set_iter_str uproot_open allkeys get tree_keys branch_array
    (FileNames names) = Ok (Dict ret) ->
  dict_get (KStr s) ret = Some v ->
  exists d, v = Dict d
    /\ forall b, In b (keys d)
                 <-> Forall (fun f => exists t, get f s = Ok t
                                      /\ array_branch tree_keys branch_array t b) files.
Proof.
  intros Hperm Hopen Hkeys Hr Hv.
  rewrite (load_root_data_opened set_iter set_iter_str _ _ uproot_open allkeys get
             tree_keys branch_array names files keys_ Hopen Hkeys) in Hr.
  apply bind_ok_inv in Hr as [ret' [Hret E]]. inversion E; subst ret'. clear E.
  destruct (merge_names_entries set_iter _ _ get tree_keys branch_array files _ _ _ Hret)
    as [_ [Hother Hin]].
  destruct (in_dec string_dec s (set_iter_str (gathered_names keys_))) as [Hs|Hs].
  2: { rewrite Hother in Hv; [discriminate|].
       intros i Hi E. inversion E; subst. contradiction. }
  destruct (Hin s Hs) as [data [v' [Hdata [Hm Hv']]]].
  rewrite Hv in Hv'. inversion Hv'; subst v'. clear Hv'.
  apply sequence_ok_iff, Forall2_map_left in Hdata.
  assert (Hds : exists ds,
             data = map Dict ds
             /\ Forall2 (fun f d => exists t, get f s = Ok t
                           /\ forall b, In b (keys d)
                                        <-> array_branch tree_keys branch_array t b)
                        files ds).
  { clear - Hdata. induction Hdata as [|f x files data Hx _ [ds [-> IH]]].
    - exists []. split; [reflexivity | constructor].
    - cbv beta in Hx. apply bind_ok_inv in Hx as [t [Ht Hx]].
      destruct (load_Ttree_keys _ tree_keys branch_array t x Hx) as [d [-> Hd]].
      exists (d :: ds). split; [reflexivity|]. constructor; [|exact IH].
      exists t. split; assumption. }
  destruct Hds as [ds [-> Hds]].
  destruct (merged_dict_keys set_iter ds 0 v Hperm Hm) as [rd [-> Hrd]].
  exists rd. split; [reflexivity|]. intros b. rewrite Hrd. symmetry.
  apply (Forall2_Forall_iff _ _ _ _ _ Hds).
  intros f d [t [Ht Hd]]. rewrite Hd. split.
  - intros [t' [Ht' Hb]]. rewrite Ht in Ht'. inversion Ht'; subst t'. exact Hb.
  - intros Hb. exists t. split; assumption.
Qed.

Lemma load_root_data_every_name_witness :
  let fa := [("tree;1", [("x", Some (vector [1; 2]%Z)); ("y", None)])] in
  let fb := [("tree;1", [("x", Some (vector [3]%Z)); ("y", Some (vector [4]%Z))])] in
  let files := [fa; fb] in
  let keys_ := [["tree;1"]; ["tree;1"]] in
  exists ret,
    Dict [(KStr "tree", Dict [(KStr "x", Leaf (vector [1; 2; 3]%Z))])] = Dict ret
    /\ (forall k, In k (keys ret)
                  <-> exists ks j, In ks keys_ /\ In j ks /\ k = KStr (before_semicolon j))
    /\ (forall ks j f, In ks keys_ -> In j ks -> In f files ->
          exists t d, disk_get f (before_semicolon j) = Ok t
                      /\ load_Ttree disk_tree_keys disk_branch_array t = Ok (Dict d)).
Proof.
  intros fa fb files keys_.
  apply (load_root_data_every_name (fun ks => ks) (fun ns => ns)
           (disk_open [("a.root", fa); ("b.root", fb)])
           disk_allkeys disk_get disk_tree_keys disk_branch_array
           ["a.root"; "b.root"] files keys_).
  - intros ns. apply Permutation_refl.
  - repeat constructor.
  - repeat constructor.
  - reflexivity.
Defined.

Lemma load_root_data_common_branches_witness :
  let fa := [("tree;1", [("x", Some (vector [1; 2]%Z)); ("y", None)])] in
  let fb := [("tree;1", [("x", Some (vector [3]%Z)); ("y", Some (vector [4]%Z))])] in
  exists d,
    Dict [(KStr "x", Leaf (vector [1; 2; 3]%Z))] = Dict d
    /\ forall b, In b (keys d)
                 <-> Forall (fun f => exists t, disk_get f "tree" = Ok t
                                      /\ array_branch disk_tree_keys disk_branch_array t b)
                            [fa; fb].
Proof.
  intros fa fb.
  apply (load_root_data_common_branches (fun ks => ks) (fun ns => ns)
           (disk_open [("a.root", fa); ("b.root", fb)])
           disk_allkeys disk_get disk_tree_keys disk_branch_array
           ["a.root"; "b.root"] [fa; fb] [["tree;1"]; ["tree;1"]]
           [(KStr "tree", Dict [(KStr "x", Leaf (vector [1; 2; 3]%Z))])] "tree").
  - intros ks. apply Permutation_refl.
  - repeat constructor.
  - repeat constructor.
  - reflexivity.
  - reflexivity.
Defined.

(** ** The file name of save_dict_to_root *)

Lemma rstrip_keeps_end (chars s : string) : ends_in chars (rstrip chars s) = false.
Proof.
  induction s as [|c s IH]; cbn [rstrip]; [reflexivity|].
  destruct (rstrip chars s) as [|c' r] eqn:E.
  - destruct (in_chars c chars) eqn:Ec; cbn [ends_in]; [reflexivity | exact Ec].
  - cbn [ends_in]. exact IH.
Qed.

Lemma rstrip_nothing (chars s : string) :
  ends_in chars s = false -> rstrip chars s = s.
Proof.
  induction s as [|c s IH]; cbn [rstrip ends_in]; [reflexivity|].
  destruct s as [|c' s'].
  - cbn [rstrip]. intros ->. reflexivity.
  - intros H. rewrite (IH H). reflexivity.
Qed.

Lemma rstrip_all (chars t : string) :
  forallb (fun c => in_chars c chars) (list_ascii_of_string t) = true ->
  rstrip chars t = EmptyString.
Proof.
  induction t as [|c t IH]; cbn [rstrip list_ascii_of_string forallb]; [reflexivity|].
  intros H. apply andb_prop in H as [Hc Ht]. rewrite (IH Ht), Hc. reflexivity.
Qed.

Lemma rstrip_app (chars s t : string) :
  forallb (fun c => in_chars c chars) (list_ascii_of_string t) = true ->
  rstrip chars (s ++ t) = rstrip chars s.
Proof.
  intros Ht. induction s as [|c s IH]; cbn [append rstrip].
  - apply rstrip_all, Ht.
  - rewrite IH. reflexivity.
Qed.

Lemma length_append (a b : string) :
  String.length (a ++ b) = String.length a + String.length b.
Proof. induction a as [|c a IH]; cbn; [reflexivity | rewrite IH; reflexivity]. Qed.

Lemma append_cancel_right (x a b : string) : (a ++ x = b ++ x)%string -> a = b.
Proof.
  revert b. induction a as [|c a IH]; intros [|c' b] H; cbn [append] in H.
  - reflexivity.
  - apply (f_equal String.length) in H. cbn [String.length] in H.
    rewrite length_append in H. lia.
  - apply (f_equal String.length) in H. cbn [String.length] in H.
    rewrite length_append in H. lia.
  - inversion H; subst. f_equal. apply IH. assumption.
Qed.

(** X19.  [save_dict_to_root] writes to [file_name + ".root"] exactly when
    [file_name] does not end in one of the characters [.], [r], [o], [t];
    otherwise the name loses its trailing characters of that kind, so a
    name given with or without the extension leads to the same file. *)
Theorem save_dict_to_root_file_name (file_name : string) :
  (root_file_name file_name = (file_name ++ ".root")%string
   <-> ends_in ".root" file_name = false)
  /\ root_file_name (file_name ++ ".root") = root_file_name file_name
  /\ ends_in ".root" (rstrip ".root" file_name) = false.
Proof.
  unfold root_file_name. split; [split|split].
  - intros H. apply append_cancel_right in H. rewrite <- H. apply rstrip_keeps_end.
  - intros H. rewrite (rstrip_nothing _ _ H). reflexivity.
  - rewrite rstrip_app by reflexivity. reflexivity.
  - apply rstrip_keeps_end.
Qed.
